(** * Mercury RPC core: the CCI network-abstraction plugin and the client engine

    A shallow embedding of [src/na/na_cci.c] and [src/mercury.c].

    Conventions of the embedding.
    - C functions that mutate process state become functions from a state
      record to a result and a new state.
    - A result of type [option _] is [None] exactly when the C code would
      touch memory it does not own (copy through a null pointer, copy past
      the end of a block, release a block twice): the C standard gives such
      an execution no meaning.
    - [malloc]/[calloc] are taken to succeed; the [NOMEM] branches of the
      source are not reachable in the model.
    - Sizes, tags and time-outs are [Z]; buffers are lists of bytes whose
      length is the size of the allocated block. *)

From Stdlib Require Import ZArith QArith Qround Lqa.
From stdpp Require Import gmap strings list.

Local Open Scope Z_scope.

(** ** Part I.  The CCI plugin ([na_cci.c]) *)

(** Return codes of the NA layer that the plugin produces ([na.h] is not part
    of the sources at hand; these are the enumerators [na_cci.c] names). *)
Inductive na_return_t :=
| NA_SUCCESS
| NA_TIMEOUT
| NA_INVALID_PARAM
| NA_SIZE_ERROR
| NA_NOMEM_ERROR
| NA_PROTOCOL_ERROR
| NA_PERMISSION_ERROR.

#[global] Instance na_return_t_eq_dec : EqDecision na_return_t.
Proof. solve_decision. Defined.

Inductive na_cb_type_t :=
| NA_CB_LOOKUP
| NA_CB_SEND_UNEXPECTED
| NA_CB_RECV_UNEXPECTED
| NA_CB_SEND_EXPECTED
| NA_CB_RECV_EXPECTED
| NA_CB_PUT
| NA_CB_GET.

(** *** Memory *)

(** Caller-owned memory: a block per address, the list being the block's
    bytes.  A null pointer is [None]. *)
Abbreviation memory := (gmap nat (list Byte.byte)).

(** [memcpy(dst, src, len)].  Copying nothing touches nothing.  Otherwise the
    destination must be a block of at least [len] bytes and the source must
    hold at least [len] bytes. *)
Definition memcpy (m : memory) (dst : option nat) (src : list Byte.byte)
    (len : Z) : option memory :=
  if len =? 0 then Some m
  else match dst with
       | None => None
       | Some p =>
           match m !! p with
           | None => None
           | Some old =>
               if (len <=? Z.of_nat (length old))
                  && (len <=? Z.of_nat (length src))
               then Some (<[p := take (Z.to_nat len) src
                                 ++ drop (Z.to_nat len) old]> m)
               else None
           end
       end.

(** *** Operation ids *)

(** [struct na_cci_info_recv_unexpected] as the member of an operation id:
    [buf] points into caller memory. *)
Record na_cci_info_recv_unexpected := {
  ru_buf : option nat;
  ru_buf_size : Z;
  ru_actual_size : Z;
  ru_na_cci_addr : option nat;
  ru_tag : Z
}.

(** The same struct as a staged message ([rx] in [handle_recv_unexpected]):
    [buf] is a private heap copy of the payload, held here by value. *)
Record unexpected_rx := {
  urx_buf : list Byte.byte;
  urx_buf_size : Z;
  urx_actual_size : Z;
  urx_na_cci_addr : option nat;
  urx_tag : Z
}.

(** [struct na_cci_info_recv_expected] as the member of an operation id.
    [re_entry] is the [tqe_next] pointer of its leading [TAILQ_ENTRY]; an
    operation id is queued through its own [entry], so this one keeps the
    zero [calloc] gave it. *)
Record na_cci_info_recv_expected := {
  re_entry : option nat;
  re_op_id : Z;
  re_buf : option nat;
  re_buf_size : Z;
  re_actual_size : Z;
  re_tag : Z
}.

(** The same struct as an entry of an address's [early] list: the payload is
    a private heap copy. *)
Record early_rx := {
  erx_buf : list Byte.byte;
  erx_buf_size : Z;
  erx_actual_size : Z;
  erx_tag : Z
}.

Record na_cci_info_put := {
  put_request_op_id : Z;
  put_transfer_op_id : Z;
  put_transfer_completed : bool;
  put_transfer_actual_size : Z;
  put_completion_op_id : Z;
  put_completion_actual_size : Z;
  put_internal_progress : bool;
  put_remote_addr : option nat
}.

Record na_cci_info_get := {
  get_request_op_id : Z;
  get_transfer_op_id : Z;
  get_transfer_actual_size : Z;
  get_internal_progress : bool;
  get_remote_addr : option nat
}.

(** The [info] union of an operation id together with its [type] tag: every
    site of the source sets the two consistently. *)
Inductive na_cci_op_info :=
| Info_lookup (addr : nat)
| Info_send_unexpected (op_id : Z)
| Info_recv_unexpected (ru : na_cci_info_recv_unexpected)
| Info_send_expected (op_id : Z)
| Info_recv_expected (re : na_cci_info_recv_expected)
| Info_put (p : na_cci_info_put)
| Info_get (g : na_cci_info_get).

Record na_cci_op_id := {
  op_context : nat;
  op_callback : nat;
  op_arg : nat;
  op_completed : bool;
  op_info : na_cci_op_info
}.

Definition op_type (op : na_cci_op_id) : na_cb_type_t :=
  match op_info op with
  | Info_lookup _ => NA_CB_LOOKUP
  | Info_send_unexpected _ => NA_CB_SEND_UNEXPECTED
  | Info_recv_unexpected _ => NA_CB_RECV_UNEXPECTED
  | Info_send_expected _ => NA_CB_SEND_EXPECTED
  | Info_recv_expected _ => NA_CB_RECV_EXPECTED
  | Info_put _ => NA_CB_PUT
  | Info_get _ => NA_CB_GET
  end.

Definition set_op_info (op : na_cci_op_id) (i : na_cci_op_info) :=
  {| op_context := op_context op; op_callback := op_callback op;
     op_arg := op_arg op; op_completed := op_completed op; op_info := i |}.

Definition set_op_completed (op : na_cci_op_id) (b : bool) :=
  {| op_context := op_context op; op_callback := op_callback op;
     op_arg := op_arg op; op_completed := b; op_info := op_info op |}.

(** [info.recv_unexpected.buf] read from an operation id that holds the
    [recv_expected] member.  Both members start at offset 0 of the union,
    and the first field of [recv_expected] is [entry.tqe_next]. *)
Definition recv_unexpected_buf_view (re : na_cci_info_recv_expected)
    : option nat := re_entry re.

(** *** Addresses, events, process state *)

Record na_cci_addr := {
  cci_addr : option nat;
  rxs : list na_cci_op_id;
  early : list early_rx;
  unexpected : bool;
  self : bool
}.

Definition set_rxs (a : na_cci_addr) (q : list na_cci_op_id) :=
  {| cci_addr := cci_addr a; rxs := q; early := early a;
     unexpected := unexpected a; self := self a |}.

Definition set_early (a : na_cci_addr) (q : list early_rx) :=
  {| cci_addr := cci_addr a; rxs := rxs a; early := q;
     unexpected := unexpected a; self := self a |}.

(** What [na_cci_complete] hands to the completion queue. *)
Inductive na_cb_info_union :=
| Cb_none
| Cb_lookup (addr : nat)
| Cb_recv_unexpected (actual_buf_size : Z) (source : option nat) (tag : Z).

Record na_cb_info := {
  cb_arg : nat;
  cb_ret : na_return_t;
  cb_type : na_cb_type_t;
  cb_info : na_cb_info_union
}.

Record na_cb_completion := {
  cq_callback : nat;
  cq_callback_info : na_cb_info;
  cq_op : na_cci_op_id
}.

(** A transport event.  A [RECV] event carries the connection's context (the
    address), the framing word [{expect:1, tag:31}] and the payload that
    follows it; [event->recv.len] counts the framing word too. *)
Inductive cci_event :=
| CCI_EVENT_SEND (context : na_cci_op_id)
| CCI_EVENT_RECV (connection : nat) (expect : bool) (tag : Z)
    (data : list Byte.byte)
| CCI_EVENT_CONNECT_REQUEST
| CCI_EVENT_CONNECT
| CCI_EVENT_ACCEPT
| CCI_EVENT_OTHER.

(** [sizeof(msg->size)]: one 32-bit framing word. *)
Definition sizeof_msg_size : Z := 4.

Definition recv_len (data : list Byte.byte) : Z :=
  sizeof_msg_size + Z.of_nat (length data).

(** One call the plugin made to [cci_rma]. *)
Record cci_rma_call := {
  rma_local_offset : Z;
  rma_remote_offset : Z;
  rma_length : Z;
  rma_write : bool
}.

Record na_cci_state := {
  endpoint_events : list cci_event;
  addrs : gmap nat na_cci_addr;
  unexpected_msg_queue : list unexpected_rx;
  unexpected_op_queue : list na_cci_op_id;
  completion_queue : list na_cb_completion;
  mem : memory;
  rma_calls : list cci_rma_call
}.

Definition set_endpoint_events (s : na_cci_state) (q : list cci_event) :=
  {| endpoint_events := q; addrs := addrs s;
     unexpected_msg_queue := unexpected_msg_queue s;
     unexpected_op_queue := unexpected_op_queue s;
     completion_queue := completion_queue s; mem := mem s;
     rma_calls := rma_calls s |}.

Definition set_addrs (s : na_cci_state) (m : gmap nat na_cci_addr) :=
  {| endpoint_events := endpoint_events s; addrs := m;
     unexpected_msg_queue := unexpected_msg_queue s;
     unexpected_op_queue := unexpected_op_queue s;
     completion_queue := completion_queue s; mem := mem s;
     rma_calls := rma_calls s |}.

Definition set_unexpected_msg_queue (s : na_cci_state)
    (q : list unexpected_rx) :=
  {| endpoint_events := endpoint_events s; addrs := addrs s;
     unexpected_msg_queue := q;
     unexpected_op_queue := unexpected_op_queue s;
     completion_queue := completion_queue s; mem := mem s;
     rma_calls := rma_calls s |}.

Definition set_unexpected_op_queue (s : na_cci_state)
    (q : list na_cci_op_id) :=
  {| endpoint_events := endpoint_events s; addrs := addrs s;
     unexpected_msg_queue := unexpected_msg_queue s;
     unexpected_op_queue := q;
     completion_queue := completion_queue s; mem := mem s;
     rma_calls := rma_calls s |}.

Definition set_completion_queue (s : na_cci_state)
    (q : list na_cb_completion) :=
  {| endpoint_events := endpoint_events s; addrs := addrs s;
     unexpected_msg_queue := unexpected_msg_queue s;
     unexpected_op_queue := unexpected_op_queue s;
     completion_queue := q; mem := mem s;
     rma_calls := rma_calls s |}.

Definition set_mem (s : na_cci_state) (m : memory) :=
  {| endpoint_events := endpoint_events s; addrs := addrs s;
     unexpected_msg_queue := unexpected_msg_queue s;
     unexpected_op_queue := unexpected_op_queue s;
     completion_queue := completion_queue s; mem := m;
     rma_calls := rma_calls s |}.

Definition set_rma_calls (s : na_cci_state) (q : list cci_rma_call) :=
  {| endpoint_events := endpoint_events s; addrs := addrs s;
     unexpected_msg_queue := unexpected_msg_queue s;
     unexpected_op_queue := unexpected_op_queue s;
     completion_queue := completion_queue s; mem := mem s;
     rma_calls := q |}.

(** *** Queues and completion *)

(** Modelled from the spec: [hg_queue_push_head] and [hg_queue_pop_tail]
    of the absent [mercury_queue.c], a FIFO queue entered at the head and
    left at the tail. *)
Definition hg_queue_push_head {A} (q : list A) (x : A) : list A := x :: q.

Definition hg_queue_pop_tail {A} (q : list A) : option A * list A :=
  match reverse q with
  | [] => (None, q)
  | x :: r => (Some x, reverse r)
  end.

Definition na_cci_msg_unexpected_push (rx : unexpected_rx) (s : na_cci_state)
    : na_return_t * na_cci_state :=
  (NA_SUCCESS,
   set_unexpected_msg_queue s (hg_queue_push_head (unexpected_msg_queue s) rx)).

Definition na_cci_msg_unexpected_pop (s : na_cci_state)
    : option unexpected_rx * na_cci_state :=
  let '(v, q) := hg_queue_pop_tail (unexpected_msg_queue s) in
  (v, set_unexpected_msg_queue s q).

Definition na_cci_msg_unexpected_op_push (op : na_cci_op_id)
    (s : na_cci_state) : na_return_t * na_cci_state :=
  (NA_SUCCESS,
   set_unexpected_op_queue s (hg_queue_push_head (unexpected_op_queue s) op)).

Definition na_cci_msg_unexpected_op_pop (s : na_cci_state)
    : option na_cci_op_id * na_cci_state :=
  let '(v, q) := hg_queue_pop_tail (unexpected_op_queue s) in
  (v, set_unexpected_op_queue s q).

(** Modelled from the spec: [na_cb_completion_add] of the absent [na.c];
    completion pushes [{op_id, callback, cb_info}] into the calling
    context's completion queue. *)
Definition na_cb_completion_add (callback : nat) (info : na_cb_info)
    (op : na_cci_op_id) (s : na_cci_state) : na_return_t * na_cci_state :=
  (NA_SUCCESS,
   set_completion_queue s
     (completion_queue s
      ++ [{| cq_callback := callback; cq_callback_info := info;
             cq_op := op |}])).

(** Modelled from the spec: [NA_Trigger] of the absent [na.c]; it dequeues up
    to [max_count] completions and invokes their callbacks on the calling
    thread.  The result lists the callbacks invoked, in order. *)
Definition NA_Trigger (max_count : nat) (s : na_cci_state)
    : list na_cb_completion * na_cci_state :=
  (take max_count (completion_queue s),
   set_completion_queue s (drop max_count (completion_queue s))).

(** A full drain: trigger until the completion queue is empty. *)
Definition trigger_drain (s : na_cci_state)
    : list na_cb_completion * na_cci_state :=
  NA_Trigger (length (completion_queue s)) s.

Definition na_cci_complete (op0 : na_cci_op_id) (s : na_cci_state)
    : na_return_t * na_cci_state :=
  let op := set_op_completed op0 true in
  let callback_info u :=
    {| cb_arg := op_arg op; cb_ret := NA_SUCCESS; cb_type := op_type op;
       cb_info := u |} in
  match op_info op with
  | Info_lookup a =>
      na_cb_completion_add (op_callback op) (callback_info (Cb_lookup a)) op s
  | Info_recv_unexpected ru =>
      na_cb_completion_add (op_callback op)
        (callback_info
           (Cb_recv_unexpected (ru_actual_size ru) (ru_na_cci_addr ru)
              (ru_tag ru))) op s
  | Info_recv_expected re =>
      (* Check buf_size and actual_size *)
      if negb (re_actual_size re =? re_buf_size re)
      then (NA_SIZE_ERROR, s)
      else na_cb_completion_add (op_callback op) (callback_info Cb_none) op s
  | Info_send_unexpected _ | Info_send_expected _ | Info_put _ | Info_get _ =>
      na_cb_completion_add (op_callback op) (callback_info Cb_none) op s
  end.

(** *** Posting messages *)

(** [rc] is what [cci_sendv] answered.  The second test of [rc] is the
    source's: it can only be reached with [rc = 0]. *)
Definition na_cci_msg_send_unexpected (context callback arg : nat) (rc : Z)
    (s : na_cci_state) : na_return_t * option na_cci_op_id * na_cci_state :=
  let op := {| op_context := context; op_callback := callback;
               op_arg := arg; op_completed := false;
               op_info := Info_send_unexpected 0 |} in
  if negb (rc =? 0) then (NA_PROTOCOL_ERROR, None, s)
  else if negb (rc =? 0) then
    let '(ret, s') := na_cci_complete op s in
    if decide (ret = NA_SUCCESS) then (NA_SUCCESS, Some op, s')
    else (ret, None, s')
  else (NA_SUCCESS, Some op, s).

Definition na_cci_msg_send_expected (context callback arg : nat) (rc : Z)
    (s : na_cci_state) : na_return_t * option na_cci_op_id * na_cci_state :=
  let op := {| op_context := context; op_callback := callback;
               op_arg := arg; op_completed := false;
               op_info := Info_send_expected 0 |} in
  if negb (rc =? 0) then (NA_PROTOCOL_ERROR, None, s)
  else if negb (rc =? 0) then
    let '(ret, s') := na_cci_complete op s in
    if decide (ret = NA_SUCCESS) then (NA_SUCCESS, Some op, s')
    else (ret, None, s')
  else (NA_SUCCESS, Some op, s).

Definition set_ru (op : na_cci_op_id) (ru : na_cci_info_recv_unexpected) :=
  set_op_info op (Info_recv_unexpected ru).

(** The result is the return code, the operation id stored through [op_id]
    (if the call stored one) and the new state. *)
Definition na_cci_msg_recv_unexpected (context callback arg : nat)
    (buf : option nat) (buf_size : Z) (s : na_cci_state)
    : option (na_return_t * option na_cci_op_id * na_cci_state) :=
  let op := {| op_context := context; op_callback := callback;
               op_arg := arg; op_completed := false;
               op_info := Info_recv_unexpected
                 {| ru_buf := buf; ru_buf_size := buf_size;
                    ru_actual_size := 0; ru_na_cci_addr := None;
                    ru_tag := 0 |} |} in
  (* Look for an unexpected message already received *)
  match na_cci_msg_unexpected_pop s with
  | (Some rx, s1) =>
      let msg_len :=
        if buf_size <? urx_buf_size rx then buf_size else urx_buf_size rx in
      m ← memcpy (mem s1) buf (urx_buf rx) msg_len;
      let op1 := set_ru op
        {| ru_buf := buf; ru_buf_size := buf_size;
           ru_actual_size := msg_len;
           ru_na_cci_addr := urx_na_cci_addr rx;
           ru_tag := urx_tag rx |} in
      let '(ret, s2) := na_cci_complete op1 (set_mem s1 m) in
      if decide (ret = NA_SUCCESS) then Some (NA_SUCCESS, Some op1, s2)
      else Some (ret, None, s2)
  | (None, s1) =>
      (* Nothing has been received yet so add op_id to progress queue *)
      let '(ret, s2) := na_cci_msg_unexpected_op_push op s1 in
      if decide (ret = NA_SUCCESS) then Some (NA_SUCCESS, Some op, s2)
      else Some (ret, None, s2)
  end.

(** [TAILQ_FOREACH] over [early] up to the first entry with the tag: the
    entry and the list without it. *)
Fixpoint early_find (cci_tag : Z) (q : list early_rx)
    : option (early_rx * list early_rx) :=
  match q with
  | [] => None
  | rx :: q' =>
      if erx_tag rx =? cci_tag then Some (rx, q')
      else '(r, rest) ← early_find cci_tag q'; Some (r, rx :: rest)
  end.

(** The copy length of the early-match path, as the source computes it. *)
Definition early_copy_len (buf_size rx_buf_size : Z) : Z :=
  if buf_size >? rx_buf_size then buf_size else rx_buf_size.

Definition set_re_actual_size (re : na_cci_info_recv_expected) (n : Z) :=
  {| re_entry := re_entry re; re_op_id := re_op_id re; re_buf := re_buf re;
     re_buf_size := re_buf_size re; re_actual_size := n;
     re_tag := re_tag re |}.

Definition na_cci_msg_recv_expected (context callback arg : nat)
    (buf : option nat) (buf_size : Z) (source : nat) (tag : Z)
    (s : na_cci_state)
    : option (na_return_t * option na_cci_op_id * na_cci_state) :=
  let cci_tag := tag mod 2 ^ 32 in
  na_cci_addr ← addrs s !! source;
  let re := {| re_entry := None; re_op_id := 0; re_buf := buf;
               re_buf_size := buf_size; re_actual_size := 0;
               re_tag := cci_tag |} in
  let op := {| op_context := context; op_callback := callback;
               op_arg := arg; op_completed := false;
               op_info := Info_recv_expected re |} in
  (* See if it has already arrived *)
  match early_find cci_tag (early na_cci_addr) with
  | Some (rx, rest) =>
      (* Found, copy to final buffer, and complete it *)
      let len := early_copy_len buf_size (erx_buf_size rx) in
      m ← memcpy (mem s) buf (erx_buf rx) len;
      let op1 := set_op_info op (Info_recv_expected (set_re_actual_size re len)) in
      let s1 := set_addrs (set_mem s m)
                  (<[source := set_early na_cci_addr rest]> (addrs s)) in
      let '(ret, s2) := na_cci_complete op1 s1 in
      (* goto out: op_id is not assigned on this path *)
      Some (ret, None, s2)
  | None =>
      (* Queue the recv request *)
      Some (NA_SUCCESS, Some op,
            set_addrs s
              (<[source := set_rxs na_cci_addr (rxs na_cci_addr ++ [op])]>
                 (addrs s)))
  end.

(** *** Event handlers and the progress loop *)

Definition handle_send (s : na_cci_state) (event_context : na_cci_op_id)
    : na_cci_state := s.

(** [TAILQ_FOREACH] over [rxs] up to the first posted receive with the tag:
    the operation id, its [recv_expected] member and the queue without it. *)
Fixpoint rxs_find (tag : Z) (q : list na_cci_op_id)
    : option (na_cci_op_id * na_cci_info_recv_expected * list na_cci_op_id) :=
  match q with
  | [] => None
  | op :: q' =>
      let next :=
        '(o, re, rest) ← rxs_find tag q'; Some (o, re, op :: rest) in
      match op_info op with
      | Info_recv_expected re =>
          if re_tag re =? tag then Some (op, re, q') else next
      | _ => next
      end
  end.

Definition handle_recv_expected (connection : nat) (tag : Z)
    (data : list Byte.byte) (s : na_cci_state) : option na_cci_state :=
  na_cci_addr ← addrs s !! connection;
  let msg_len := recv_len data - sizeof_msg_size in
  match rxs_find tag (rxs na_cci_addr) with
  | Some (op, re, rest) =>
      let len := if re_buf_size re <? msg_len then re_buf_size re
                 else msg_len in
      m ← memcpy (mem s) (recv_unexpected_buf_view re) data len;
      let op1 :=
        set_op_info op (Info_recv_expected (set_re_actual_size re len)) in
      let s1 := set_addrs (set_mem s m)
                  (<[connection := set_rxs na_cci_addr rest]> (addrs s)) in
      let '(ret, s2) := na_cci_complete op1 s1 in
      Some s2
  | None =>
      (* Early receive, cache it *)
      let rx := {| erx_buf := data; erx_buf_size := msg_len;
                   erx_actual_size := msg_len; erx_tag := tag |} in
      Some (set_addrs s
              (<[connection := set_early na_cci_addr
                                 (early na_cci_addr ++ [rx])]> (addrs s)))
  end.

(** The copy length of a payload delivered to a posted unexpected receive,
    as the source computes it from [buf_size], [event->recv.len] and
    [msg_len]. *)
Definition unexpected_copy_len (buf_size event_recv_len msg_len : Z) : Z :=
  if buf_size <? event_recv_len - msg_len then buf_size else msg_len.

Definition handle_recv_unexpected (connection : nat) (tag : Z)
    (data : list Byte.byte) (s : na_cci_state) : option na_cci_state :=
  let msg_len := recv_len data - sizeof_msg_size in
  match na_cci_msg_unexpected_op_pop s with
  | (Some op, s1) =>
      match op_info op with
      | Info_recv_unexpected ru =>
          let len :=
            unexpected_copy_len (ru_buf_size ru) (recv_len data) msg_len in
          let op1 := set_ru op
            {| ru_buf := ru_buf ru; ru_buf_size := ru_buf_size ru;
               ru_actual_size := len; ru_na_cci_addr := Some connection;
               ru_tag := tag |} in
          m ← memcpy (mem s1) (ru_buf ru) data len;
          let '(ret, s2) := na_cci_complete op1 (set_mem s1 m) in
          Some s2
      | _ =>
          (* only unexpected receives are pushed to this queue *)
          None
      end
  | (None, s1) =>
      let rx := {| urx_buf := data; urx_buf_size := msg_len;
                   urx_actual_size := msg_len;
                   urx_na_cci_addr := Some connection; urx_tag := tag |} in
      let '(ret, s2) := na_cci_msg_unexpected_push rx s1 in
      Some s2
  end.

Definition handle_recv (connection : nat) (expect : bool) (tag : Z)
    (data : list Byte.byte) (s : na_cci_state) : option na_cci_state :=
  if expect then handle_recv_expected connection tag data s
  else handle_recv_unexpected connection tag data s.

Definition handle_connect_request (s : na_cci_state) : na_cci_state := s.

Definition handle_connect (s : na_cci_state) : na_cci_state := s.

Definition handle_accept (s : na_cci_state) : na_cci_state := s.

(** [cci_get_event]: the next event of the endpoint, if one is pending. *)
Definition cci_get_event (s : na_cci_state)
    : option cci_event * na_cci_state :=
  match endpoint_events s with
  | [] => (None, s)
  | ev :: q => (Some ev, set_endpoint_events s q)
  end.

(** The [switch] of the progress loop. *)
Definition dispatch_event (ev : cci_event) (s : na_cci_state)
    : option na_cci_state :=
  match ev with
  | CCI_EVENT_SEND ctx => Some (handle_send s ctx)
  | CCI_EVENT_RECV c expect tag data => handle_recv c expect tag data s
  | CCI_EVENT_CONNECT_REQUEST => Some (handle_connect_request s)
  | CCI_EVENT_CONNECT => Some (handle_connect s)
  | CCI_EVENT_ACCEPT => Some (handle_accept s)
  | CCI_EVENT_OTHER => Some s
  end.

(** [na_cci_progress].  The body of the [do ... while] runs at least once.
    When [cci_get_event] yields an event the body handles it, sets [ret] to
    [NA_SUCCESS] and the loop ends: a call consumes at most one event.  When
    no event is pending the body only charges the elapsed time to
    [remaining] and polls again; events are appended to the endpoint between
    calls, so the loop then runs out its time and the call answers
    [NA_TIMEOUT]. *)
Definition na_cci_progress (timeout : Z) (s : na_cci_state)
    : option (na_return_t * na_cci_state) :=
  match cci_get_event s with
  | (Some ev, s1) => s2 ← dispatch_event ev s1; Some (NA_SUCCESS, s2)
  | (None, s1) => Some (NA_TIMEOUT, s1)
  end.

Definition na_cci_cancel (context : nat) (op_id : na_cci_op_id)
    (s : na_cci_state) : na_return_t * na_cci_state :=
  (* TODO *)
  (* If received is queued, dequeue and free? *)
  (NA_PROTOCOL_ERROR, s).

(** *** Memory handles, put and get *)

Record na_cci_mem_handle := {
  mh_base : Z;
  mh_size : Z;
  mh_attr : Z
}.

(** [attr] is a [na_uint8_t]: the flags are narrowed to eight bits. *)
Definition na_cci_mem_handle_create (buf : Z) (buf_size : Z) (flags : Z)
    : na_return_t * na_cci_mem_handle :=
  (NA_SUCCESS,
   {| mh_base := buf; mh_size := buf_size; mh_attr := flags mod 2 ^ 8 |}).

(** [NA_MEM_READWRITE] is a macro of the absent [na.h] and is taken as a
    parameter; [rc] is what [cci_rma] answers if it is called. *)
Definition na_cci_put (NA_MEM_READWRITE : Z) (context callback arg : nat)
    (local_mem_handle : na_cci_mem_handle) (local_offset : Z)
    (remote_mem_handle : na_cci_mem_handle) (remote_offset : Z)
    (length : Z) (remote_addr : nat) (rc : Z) (s : na_cci_state)
    : option (na_return_t * option na_cci_op_id * na_cci_state) :=
  na_cci_addr ← addrs s !! remote_addr;
  if negb (mh_attr remote_mem_handle =? NA_MEM_READWRITE)
  then Some (NA_PERMISSION_ERROR, None, s)
  else
    let op := {| op_context := context; op_callback := callback;
                 op_arg := arg; op_completed := false;
                 op_info := Info_put
                   {| put_request_op_id := 0; put_transfer_op_id := 0;
                      put_transfer_completed := false;
                      put_transfer_actual_size := 0;
                      put_completion_op_id := 0;
                      put_completion_actual_size := 0;
                      put_internal_progress := false;
                      put_remote_addr := cci_addr na_cci_addr |} |} in
    (* Post the CCI RMA *)
    let s1 := set_rma_calls s
                (rma_calls s
                 ++ [{| rma_local_offset := local_offset;
                        rma_remote_offset := remote_offset;
                        rma_length := length; rma_write := true |}]) in
    if negb (rc =? 0) then Some (NA_PROTOCOL_ERROR, None, s1)
    else Some (NA_SUCCESS, Some op, s1).

Definition na_cci_get (context callback arg : nat)
    (local_mem_handle : na_cci_mem_handle) (local_offset : Z)
    (remote_mem_handle : na_cci_mem_handle) (remote_offset : Z)
    (length : Z) (remote_addr : nat) (rc : Z) (s : na_cci_state)
    : option (na_return_t * option na_cci_op_id * na_cci_state) :=
  na_cci_addr ← addrs s !! remote_addr;
  let op := {| op_context := context; op_callback := callback;
               op_arg := arg; op_completed := false;
               op_info := Info_get
                 {| get_request_op_id := 0; get_transfer_op_id := 0;
                    get_transfer_actual_size := 0;
                    get_internal_progress := false;
                    get_remote_addr := cci_addr na_cci_addr |} |} in
  let s1 := set_rma_calls s
              (rma_calls s
               ++ [{| rma_local_offset := local_offset;
                      rma_remote_offset := remote_offset;
                      rma_length := length; rma_write := false |}]) in
  if negb (rc =? 0) then Some (NA_PROTOCOL_ERROR, None, s1)
  else Some (NA_SUCCESS, Some op, s1).

(** *** Observations used to state the properties *)


(** The callbacks a full drain invokes. *)
Definition drained (s : na_cci_state) : list na_cb_completion :=
  (trigger_drain s).1.

(** *** Sample states of the plugin *)

Definition payload2 : list Byte.byte := [Byte.x41; Byte.x42].

Definition payload4 : list Byte.byte := [Byte.x41; Byte.x42; Byte.x43; Byte.x44].

Definition payload8 : list Byte.byte :=
  [Byte.x41; Byte.x42; Byte.x43; Byte.x44;
   Byte.x45; Byte.x46; Byte.x47; Byte.x48].

Definition zeros (n : nat) : list Byte.byte := replicate n Byte.x00.

(** A connected peer with nothing posted and nothing staged. *)
Definition peer : na_cci_addr :=
  {| cci_addr := Some 1%nat; rxs := []; early := []; unexpected := false;
     self := false |}.

(** A process that knows [peer] as address 1, owns one block of [cap] zero
    bytes at address 10, and has [events] pending on its endpoint. *)
Definition quiet (cap : nat) (events : list cci_event) : na_cci_state :=
  {| endpoint_events := events; addrs := {[ 1%nat := peer ]};
     unexpected_msg_queue := []; unexpected_op_queue := [];
     completion_queue := []; mem := {[ 10%nat := zeros cap ]};
     rma_calls := [] |}.

(** The same process after an unexpected receive of [buf_size] bytes into
    block 10 has been posted (callback 7, argument 0). *)
Definition posted_unexpected (cap : nat) (buf_size : Z)
    (events : list cci_event) : option na_cci_state :=
  '(_, _, s) ← na_cci_msg_recv_unexpected 0 7 0 (Some 10%nat) buf_size
                 (quiet cap []);
  Some (set_endpoint_events s events).

(** The same process with a payload for tag 7 staged early on [peer]. *)
Definition staged_early (cap : nat) (data : list Byte.byte)
    : option na_cci_state :=
  handle_recv_expected 1 7 data (quiet cap []).

(** An unexpected receive of 4 bytes into block 10, waiting in the
    unexpected-op queue while a 2-byte unexpected message is pending. *)
Definition waiting_unexpected : na_cci_state :=
  {| endpoint_events := [CCI_EVENT_RECV 1 false 3 payload2];
     addrs := {[ 1%nat := peer ]};
     unexpected_msg_queue := [];
     unexpected_op_queue :=
       [{| op_context := 0; op_callback := 7; op_arg := 0;
           op_completed := false;
           op_info := Info_recv_unexpected
             {| ru_buf := Some 10%nat; ru_buf_size := 4;
                ru_actual_size := 0; ru_na_cci_addr := None;
                ru_tag := 0 |} |}];
     completion_queue := []; mem := {[ 10%nat := zeros 4 ]};
     rma_calls := [] |}.

(** The [actual_buf_size] each drained callback of an unexpected receive is
    given. *)
Definition reported_sizes (q : list na_cb_completion) : list Z :=
  omap (λ c, match cb_info (cq_callback_info c) with
             | Cb_recv_unexpected n _ _ => Some n
             | _ => None
             end) q.

Definition early_of (s : na_cci_state) (a : nat) : list early_rx :=
  default [] (early <$> addrs s !! a).

Definition rxs_of (s : na_cci_state) (a : nat) : list na_cci_op_id :=
  default [] (rxs <$> addrs s !! a).

(** ** Part II.  The client engine ([mercury.c]) *)

(** Modelled from the spec: the return-code enumeration of the engine
    (section 7); [mercury_types.h], which declares [hg_return_t], is absent.
    [mercury.c] itself names every enumerator below except the last. *)
Inductive hg_return_t :=
| HG_SUCCESS
| HG_FAIL
| HG_TIMEOUT
| HG_INVALID_PARAM
| HG_SIZE_ERROR
| HG_NOMEM_ERROR
| HG_PROTOCOL_ERROR
| HG_NO_MATCH
| HG_CHECKSUM_ERROR
| HG_PERMISSION_ERROR.

#[global] Instance hg_return_t_eq_dec : EqDecision hg_return_t.
Proof. solve_decision. Defined.

(** [struct hg_request].  Pointers are block names, [None] is [NULL];
    [extra_send_buf_handle = None] is [HG_BULK_NULL]. *)
Record hg_request := {
  req_id : Z;
  send_buf : option nat;
  send_buf_size : Z;
  extra_send_buf : option nat;
  extra_send_buf_size : Z;
  extra_send_buf_handle : option nat;
  send_request : option nat;
  recv_buf : option nat;
  recv_buf_size : Z;
  recv_request : option nat;
  out_struct : option nat
}.

Definition set_send_buf (r : hg_request) (p : option nat) (n : Z) :=
  {| req_id := req_id r; send_buf := p; send_buf_size := n;
     extra_send_buf := extra_send_buf r;
     extra_send_buf_size := extra_send_buf_size r;
     extra_send_buf_handle := extra_send_buf_handle r;
     send_request := send_request r; recv_buf := recv_buf r;
     recv_buf_size := recv_buf_size r; recv_request := recv_request r;
     out_struct := out_struct r |}.

Definition set_extra_send_buf (r : hg_request) (p : option nat) (n : Z) :=
  {| req_id := req_id r; send_buf := send_buf r;
     send_buf_size := send_buf_size r;
     extra_send_buf := p; extra_send_buf_size := n;
     extra_send_buf_handle := extra_send_buf_handle r;
     send_request := send_request r; recv_buf := recv_buf r;
     recv_buf_size := recv_buf_size r; recv_request := recv_request r;
     out_struct := out_struct r |}.

Definition set_extra_send_buf_handle (r : hg_request) (hd : option nat) :=
  {| req_id := req_id r; send_buf := send_buf r;
     send_buf_size := send_buf_size r;
     extra_send_buf := extra_send_buf r;
     extra_send_buf_size := extra_send_buf_size r;
     extra_send_buf_handle := hd;
     send_request := send_request r; recv_buf := recv_buf r;
     recv_buf_size := recv_buf_size r; recv_request := recv_request r;
     out_struct := out_struct r |}.

Definition set_send_request (r : hg_request) (o : option nat) :=
  {| req_id := req_id r; send_buf := send_buf r;
     send_buf_size := send_buf_size r;
     extra_send_buf := extra_send_buf r;
     extra_send_buf_size := extra_send_buf_size r;
     extra_send_buf_handle := extra_send_buf_handle r;
     send_request := o; recv_buf := recv_buf r;
     recv_buf_size := recv_buf_size r; recv_request := recv_request r;
     out_struct := out_struct r |}.

Definition set_recv_buf (r : hg_request) (p : option nat) (n : Z) :=
  {| req_id := req_id r; send_buf := send_buf r;
     send_buf_size := send_buf_size r;
     extra_send_buf := extra_send_buf r;
     extra_send_buf_size := extra_send_buf_size r;
     extra_send_buf_handle := extra_send_buf_handle r;
     send_request := send_request r; recv_buf := p;
     recv_buf_size := n; recv_request := recv_request r;
     out_struct := out_struct r |}.

Definition set_recv_request (r : hg_request) (o : option nat) :=
  {| req_id := req_id r; send_buf := send_buf r;
     send_buf_size := send_buf_size r;
     extra_send_buf := extra_send_buf r;
     extra_send_buf_size := extra_send_buf_size r;
     extra_send_buf_handle := extra_send_buf_handle r;
     send_request := send_request r; recv_buf := recv_buf r;
     recv_buf_size := recv_buf_size r; recv_request := o;
     out_struct := out_struct r |}.

(** [struct hg_proc_info]: the routines are names of caller functions. *)
Record hg_proc_info := {
  enc_routine : nat;
  dec_routine : nat
}.

(** A value of the function map: the [hg_proc_info] block the table points
    to, or a pointer to a block that has been released since. *)
Inductive func_map_value :=
| Proc_info (p : hg_proc_info)
| Dangling.

(** The module-level variables of [mercury.c] the modelled entry points
    read. *)
Record hg_state := {
  hg_na_class_g : option nat;
  hg_func_map_g : option (gmap Z func_map_value)
}.

Definition set_hg_func_map_g (st : hg_state)
    (m : option (gmap Z func_map_value)) :=
  {| hg_na_class_g := hg_na_class_g st; hg_func_map_g := m |}.

(** What the engine holds on the heap: the blocks obtained from
    [hg_proc_buf_alloc] and [malloc], the bulk handles that are registered,
    and the request objects (futures) that have been marked complete. *)
Record hg_heap := {
  live_blocks : gset nat;
  live_bulk_handles : gset nat;
  completed_requests : gset nat
}.

(** [free] and [hg_proc_buf_free]: the block must be live. *)
Definition free_block (p : nat) (h : hg_heap) : option hg_heap :=
  if decide (p ∈ live_blocks h)
  then Some {| live_blocks := live_blocks h ∖ {[p]};
               live_bulk_handles := live_bulk_handles h;
               completed_requests := completed_requests h |}
  else None.

(** Modelled from the spec: [HG_Bulk_handle_free] of the absent
    [mercury_bulk.c] deregisters and releases a handle. *)
Definition HG_Bulk_handle_free (hd : nat) (h : hg_heap) : option hg_heap :=
  if decide (hd ∈ live_bulk_handles h)
  then Some {| live_blocks := live_blocks h;
               live_bulk_handles := live_bulk_handles h ∖ {[hd]};
               completed_requests := completed_requests h |}
  else None.

(** Modelled from the spec: [hg_request_complete] of the absent
    [mercury_request.c] sets the completion flag of a request object. *)
Definition hg_request_complete (obj : option nat) (h : hg_heap)
    : option hg_heap :=
  o ← obj;
  Some {| live_blocks := live_blocks h;
          live_bulk_handles := live_bulk_handles h;
          completed_requests := completed_requests h ∪ {[o]} |}.

(** What the absent collaborators of one call answer: the proc engine
    ([mercury_proc.c]), the header codec ([mercury_proc_header.c]), the bulk
    layer and the caller's encode/decode routines. *)
Record collaborators := {
  hg_proc_create_ret : hg_return_t;
  proc_cb_ret : nat -> hg_return_t;
  hg_proc_get_size : Z;
  hg_proc_get_extra_buf : option nat;
  hg_proc_get_extra_size : Z;
  HG_Bulk_handle_create_ret : hg_return_t;
  HG_Bulk_handle_create_handle : nat;
  hg_proc_flush_ret : hg_return_t;
  hg_proc_header_response_ret : hg_return_t;
  hg_proc_header_response_verify_ret : hg_return_t
}.

Definition add_block (p : option nat) (h : hg_heap) : hg_heap :=
  match p with
  | None => h
  | Some b => {| live_blocks := live_blocks h ∪ {[b]};
                 live_bulk_handles := live_bulk_handles h;
                 completed_requests := completed_requests h |}
  end.

Definition add_bulk_handle (hd : nat) (h : hg_heap) : hg_heap :=
  {| live_blocks := live_blocks h;
     live_bulk_handles := live_bulk_handles h ∪ {[hd]};
     completed_requests := completed_requests h |}.

(** Modelled from the spec: [hg_proc_free] of the absent proc engine
    releases the proc and, unless ownership of the overflow buffer was taken
    with [hg_proc_set_extra_buf_is_mine], that buffer too. *)
Definition hg_proc_free (E : collaborators) (extra_buf_is_mine : bool)
    (h : hg_heap) : option hg_heap :=
  match hg_proc_get_extra_buf E with
  | Some b => if extra_buf_is_mine then Some h else free_block b h
  | None => Some h
  end.

Definition func_map_lookup (st : hg_state) (id : Z) : option func_map_value :=
  m ← hg_func_map_g st; m !! id.

(** [hg_set_input], without [HG_HAS_XDR].  The static function is only
    called on the request [HG_Forward] has just allocated, so the request is
    taken non-null.  Looking an id up in a table that does not exist, or
    calling through a released [hg_proc_info], has no meaning.  The overflow
    buffer is a block the proc engine allocates while the encode routine
    runs. *)
Definition hg_set_input (E : collaborators) (st : hg_state)
    (priv_request : hg_request) (in_struct : option nat) (h : hg_heap)
    : option (hg_return_t * hg_request * hg_heap) :=
  match in_struct with
  | None => Some (HG_SUCCESS, priv_request, h)
  | Some _ =>
      m ← hg_func_map_g st;
      match m !! req_id priv_request with
      | None => Some (HG_FAIL, priv_request, h)
      | Some Dangling => None
      | Some (Proc_info proc_info) =>
          (* Create a new encoding proc *)
          if decide (hg_proc_create_ret E ≠ HG_SUCCESS)
          then Some (hg_proc_create_ret E, priv_request, h)
          else
            let done ret r mine h' :=
              h'' ← hg_proc_free E mine h'; Some (ret, r, h'') in
            (* Encode input parameters *)
            let h1 := add_block (hg_proc_get_extra_buf E) h in
            let ret := proc_cb_ret E (enc_routine proc_info) in
            if decide (ret ≠ HG_SUCCESS) then done ret priv_request false h1
            else if hg_proc_get_size E >? send_buf_size priv_request then
              let r1 := set_extra_send_buf priv_request
                          (hg_proc_get_extra_buf E)
                          (hg_proc_get_extra_size E) in
              if decide (HG_Bulk_handle_create_ret E ≠ HG_SUCCESS)
              then done (HG_Bulk_handle_create_ret E) r1 false h1
              else
                let r2 := set_extra_send_buf_handle r1
                            (Some (HG_Bulk_handle_create_handle E)) in
                let h2 :=
                  add_bulk_handle (HG_Bulk_handle_create_handle E) h1 in
                (* hg_proc_set_extra_buf_is_mine(proc, HG_TRUE), then flush *)
                done (hg_proc_flush_ret E) r2 true h2
            else done (hg_proc_flush_ret E) priv_request false h1
      end
  end.

(** [hg_get_output]: the decode routine fills the caller's structure, which
    the model leaves out; the result is the return code. *)
Definition hg_get_output (E : collaborators) (st : hg_state)
    (priv_request : hg_request) (out_struct : option nat)
    : option hg_return_t :=
  match out_struct with
  | None => Some HG_SUCCESS
  | Some _ =>
      m ← hg_func_map_g st;
      match m !! req_id priv_request with
      | None => Some HG_FAIL
      | Some Dangling => None
      | Some (Proc_info proc_info) =>
          if decide (hg_proc_create_ret E ≠ HG_SUCCESS)
          then Some (hg_proc_create_ret E)
          else
            let ret := proc_cb_ret E (dec_routine proc_info) in
            if decide (ret ≠ HG_SUCCESS) then Some ret
            else Some (hg_proc_flush_ret E)
      end
  end.

Definition free_if_set (p : option nat) (h : hg_heap) : option hg_heap :=
  match p with
  | Some b => free_block b h
  | None => Some h
  end.

(** [hg_send_input_cb]: [callback_info_ret] is [callback_info->ret] and the
    request is [callback_info->arg]. *)
Definition hg_send_input_cb (callback_info_ret : na_return_t)
    (priv_request : hg_request) (h : hg_heap)
    : option (na_return_t * hg_request * hg_heap) :=
  let ret := NA_SUCCESS in
  if decide (callback_info_ret ≠ NA_SUCCESS)
  then Some (ret, priv_request, h)
  else
    (* Everything has been sent so free unused resources except extra
       buffer *)
    h1 ← free_if_set (send_buf priv_request) h;
    let r1 := set_send_buf priv_request None 0 in
    (* Mark request as completed *)
    h2 ← hg_request_complete (send_request r1) h1;
    Some (ret, r1, h2).

Definition hg_recv_output_cb (E : collaborators) (st : hg_state)
    (callback_info_ret : na_return_t) (priv_request : hg_request)
    (h : hg_heap) : option (na_return_t * hg_request * hg_heap) :=
  let na_ret := NA_SUCCESS in
  if decide (callback_info_ret ≠ NA_SUCCESS)
  then Some (na_ret, priv_request, h)
  else
    (* Now we can free the extra send buf now since we received the
       response *)
    h1 ← free_if_set (extra_send_buf priv_request) h;
    let r1 := set_extra_send_buf priv_request None 0 in
    h2 ← match extra_send_buf_handle r1 with
         | Some hd => HG_Bulk_handle_free hd h1
         | None => Some h1
         end;
    let r2 := set_extra_send_buf_handle r1 None in
    (* Decode response header *)
    if decide (hg_proc_header_response_ret E ≠ HG_SUCCESS)
    then Some (na_ret, r2, h2)
    (* Verify header *)
    else if decide (hg_proc_header_response_verify_ret E ≠ HG_SUCCESS)
    then Some (na_ret, r2, h2)
    else
      (* Decode the function output parameters *)
      ret ← hg_get_output E st r2 (out_struct r2);
      if decide (ret ≠ HG_SUCCESS) then Some (na_ret, r2, h2)
      else
        (* Everything has been decoded so free unused resources *)
        h3 ← free_if_set (recv_buf r2) h2;
        let r3 := set_recv_buf r2 None 0 in
        (* Mark request as completed *)
        h4 ← hg_request_complete (recv_request r3) h3;
        Some (na_ret, r3, h4).

(** *** Registration *)

(** Modelled from the spec: [hg_hash_table_insert] of the absent
    [mercury_hash_table.c]; insertion replaces on equal id and answers
    non-zero. *)
Definition hg_hash_table_insert (m : gmap Z func_map_value) (key : Z)
    (value : func_map_value) : bool * gmap Z func_map_value :=
  (true, <[key := value]> m).

(** [HG_Register].  [hg_hash_string] belongs to the absent
    [mercury_hash_string.h] and is a parameter; [hg_id_t] is a 32-bit
    unsigned integer.  When the call answers 0 the key and the value that
    were just inserted are released while the table keeps pointing to
    them. *)
Definition HG_Register (hg_hash_string : string -> Z) (func_name : string)
    (enc_routine dec_routine : nat) (st : hg_state) : Z * hg_state :=
  match hg_func_map_g st with
  | None => (0, st)
  | Some m =>
      (* Generate a key from the string *)
      let id := hg_hash_string func_name mod 2 ^ 32 in
      (* Fill a func info struct and store it into the function map *)
      let proc_info :=
        {| enc_routine := enc_routine; dec_routine := dec_routine |} in
      let '(ok, m1) := hg_hash_table_insert m id (Proc_info proc_info) in
      let ret := if ok then id else 0 in
      if ret =? 0
      then (ret, set_hg_func_map_g st
                   (Some (if ok then <[id := Dangling]> m1 else m1)))
      else (ret, set_hg_func_map_g st (Some m1))
  end.

(** [HG_Registered] with non-null [flag] and [id]: the code, [*flag] and
    [*id].  The lookup compares the id with the key of the entry it finds;
    for an entry whose key [HG_Register] has released that comparison reads
    freed memory and has no meaning. *)
Definition HG_Registered (hg_hash_string : string -> Z) (func_name : string)
    (st : hg_state) : option (hg_return_t * option (bool * Z)) :=
  match hg_func_map_g st with
  | None => Some (HG_FAIL, None)
  | Some m =>
      let func_id := hg_hash_string func_name mod 2 ^ 32 in
      match m !! func_id with
      | Some Dangling => None
      | found =>
          let flag := bool_decide (is_Some found) in
          Some (HG_SUCCESS, Some (flag, if flag then func_id else 0))
      end
  end.

(** *** Waiting *)

(** What [hg_request_wait] of the absent [mercury_request.c] answers for a
    request object and a time-out in milliseconds: whether it returned
    [HG_UTIL_SUCCESS], the completion flag, and the wall-clock seconds the
    call took (the difference of the two [hg_time_get_current] readings
    around it). *)
Record wait_answer := {
  wait_ok : bool;
  wait_flag : bool;
  wait_elapsed : Q
}.

(** [HG_Wait].  [double] arithmetic is taken exact.  [timeout / 1000] is the
    source's division of an [unsigned int] by an [int], done before the
    conversion to [double].  The result is the return code, the value stored
    through [status] (when [status] is a real pointer), the request with the
    two futures as the statements of [HG_Wait] leave them, and the waits
    performed, each with the time-out it was given.  The completion
    callbacks that progress runs inside [hg_request_wait] are
    [hg_send_input_cb] and [hg_recv_output_cb] above; what they do to the
    buffers of the request is theirs and is not repeated here, so the other
    fields of the request are shown as they were at entry. *)
Definition HG_Wait (hg_request_wait : nat -> Z -> wait_answer)
    (st : hg_state) (request : option hg_request) (timeout : Z)
    (status : bool)
    : hg_return_t * option bool * option hg_request * list (nat * Z) :=
  let remaining : Q := inject_Z (timeout / 1000) in
  let done ret (r : hg_request) waits :=
    (ret,
     (if status
      then Some (bool_decide (send_request r = None)
                 && bool_decide (recv_request r = None))
      else None),
     Some r, waits) in
  match request with
  | None => (HG_FAIL, None, None, [])
  | Some priv_request =>
      match hg_na_class_g st with
      | None => done HG_FAIL priv_request []
      | Some _ =>
          let recv_stage remaining r waits :=
            match recv_request r with
            | Some obj =>
                let t := Qfloor (remaining * inject_Z 1000) in
                let a := hg_request_wait obj t in
                if negb (wait_ok a) then done HG_FAIL r (waits ++ [(obj, t)])
                else done HG_SUCCESS
                       (if wait_flag a then set_recv_request r None else r)
                       (waits ++ [(obj, t)])
            | None => done HG_SUCCESS r waits
            end in
          match send_request priv_request with
          | Some obj =>
              let a := hg_request_wait obj timeout in
              if negb (wait_ok a)
              then done HG_FAIL priv_request [(obj, timeout)]
              else
                let remaining := (remaining - wait_elapsed a)%Q in
                let remaining :=
                  if Qle_bool 0 remaining then remaining else 0%Q in
                recv_stage remaining
                  (if wait_flag a then set_send_request priv_request None
                   else priv_request)
                  [(obj, timeout)]
          | None => recv_stage remaining priv_request []
          end
      end
  end.

(** *** Error strings *)

(** [HG_ERROR_STRING_MACRO(def, value, string)]; [def_name] is [#def]. *)
Definition HG_ERROR_STRING_MACRO (def : Z) (def_name : string) (value : Z)
    (str : string) : string :=
  if value =? def then def_name else str.

(** [HG_Error_to_string].  The numeric values of the enumerators are those of
    the absent [mercury_types.h], given by [enum_value]. *)
Definition HG_Error_to_string (enum_value : hg_return_t -> Z) (errnum : Z)
    : string :=
  let hg_error_string := "UNDEFINED/UNRECOGNIZED NA ERROR"%string in
  let hg_error_string := HG_ERROR_STRING_MACRO (enum_value HG_FAIL)
    "HG_FAIL" errnum hg_error_string in
  let hg_error_string := HG_ERROR_STRING_MACRO (enum_value HG_SUCCESS)
    "HG_SUCCESS" errnum hg_error_string in
  let hg_error_string := HG_ERROR_STRING_MACRO (enum_value HG_TIMEOUT)
    "HG_TIMEOUT" errnum hg_error_string in
  let hg_error_string := HG_ERROR_STRING_MACRO (enum_value HG_INVALID_PARAM)
    "HG_INVALID_PARAM" errnum hg_error_string in
  let hg_error_string := HG_ERROR_STRING_MACRO (enum_value HG_SIZE_ERROR)
    "HG_SIZE_ERROR" errnum hg_error_string in
  let hg_error_string := HG_ERROR_STRING_MACRO (enum_value HG_NOMEM_ERROR)
    "HG_NOMEM_ERROR" errnum hg_error_string in
  let hg_error_string := HG_ERROR_STRING_MACRO (enum_value HG_PROTOCOL_ERROR)
    "HG_PROTOCOL_ERROR" errnum hg_error_string in
  let hg_error_string := HG_ERROR_STRING_MACRO (enum_value HG_NO_MATCH)
    "HG_NO_MATCH" errnum hg_error_string in
  let hg_error_string := HG_ERROR_STRING_MACRO (enum_value HG_CHECKSUM_ERROR)
    "HG_CHECKSUM_ERROR" errnum hg_error_string in
  hg_error_string.

(** *** Observations and sample data of the engine *)

(** The overflow buffer [b] and its bulk handle [hd] are held by the
    request: the request points to them, both are live, and the request's
    other buffers are other blocks. *)
Definition overflow_held (r : hg_request) (h : hg_heap) (b hd : nat)
    : Prop :=
  extra_send_buf r = Some b ∧ extra_send_buf_handle r = Some hd
  ∧ b ∈ live_blocks h ∧ hd ∈ live_bulk_handles h
  ∧ send_buf r ≠ Some b ∧ recv_buf r ≠ Some b.

(** The overflow buffer and its handle have been released. *)
Definition overflow_released (r : hg_request) (h : hg_heap) (b hd : nat)
    : Prop :=
  extra_send_buf r = None ∧ extra_send_buf_size r = 0
  ∧ extra_send_buf_handle r = None
  ∧ (b ∉ live_blocks h) ∧ (hd ∉ live_bulk_handles h).

(** A pointer is null or names a live block. *)
Definition null_or_live (p : option nat) (h : hg_heap) : Prop :=
  match p with
  | None => True
  | Some b => b ∈ live_blocks h
  end.

(** The output of the request can be decoded without touching a released
    table entry. *)
Definition decodable (st : hg_state) (r : hg_request) : Prop :=
  (out_struct r = None)
  ∨ (∃ m, hg_func_map_g st = Some m ∧ m !! req_id r ≠ Some Dangling).

(** The name of an enumerator, as the preprocessor's [#def] spells it. *)
Definition enumerator_name (e : hg_return_t) : string :=
  match e with
  | HG_SUCCESS => "HG_SUCCESS"
  | HG_FAIL => "HG_FAIL"
  | HG_TIMEOUT => "HG_TIMEOUT"
  | HG_INVALID_PARAM => "HG_INVALID_PARAM"
  | HG_SIZE_ERROR => "HG_SIZE_ERROR"
  | HG_NOMEM_ERROR => "HG_NOMEM_ERROR"
  | HG_PROTOCOL_ERROR => "HG_PROTOCOL_ERROR"
  | HG_NO_MATCH => "HG_NO_MATCH"
  | HG_CHECKSUM_ERROR => "HG_CHECKSUM_ERROR"
  | HG_PERMISSION_ERROR => "HG_PERMISSION_ERROR"
  end.

(** A sample numbering of the enumerators, in the order of declaration. *)
Definition sample_enum_value (e : hg_return_t) : Z :=
  match e with
  | HG_SUCCESS => 0
  | HG_FAIL => 1
  | HG_TIMEOUT => 2
  | HG_INVALID_PARAM => 3
  | HG_SIZE_ERROR => 4
  | HG_NOMEM_ERROR => 5
  | HG_PROTOCOL_ERROR => 6
  | HG_NO_MATCH => 7
  | HG_CHECKSUM_ERROR => 8
  | HG_PERMISSION_ERROR => 9
  end.

(** A sample instance of the string-hash parameter, the djb2 hash on 32
    bits: [result = (result << 5) + result + c] from 5381. *)
Definition djb2 (name : string) : Z :=
  fold_left
    (λ result c,
       (Z.shiftl result 5 + result + Z.of_nat (Ascii.nat_of_ascii c)) mod 2 ^ 32)
    (String.list_ascii_of_string name) 5381.

(** An initialised engine with an empty function map. *)
Definition initialised : hg_state :=
  {| hg_na_class_g := Some 1%nat; hg_func_map_g := Some ∅ |}.

(** A request as [HG_Forward] builds it before the input is encoded: send
    buffer 1, receive buffer 2, futures 20 and 21. *)
Definition fresh_request : hg_request :=
  {| req_id := 5863232; send_buf := Some 1%nat; send_buf_size := 4096;
     extra_send_buf := None; extra_send_buf_size := 0;
     extra_send_buf_handle := None; send_request := Some 20%nat;
     recv_buf := Some 2%nat; recv_buf_size := 4096;
     recv_request := Some 21%nat; out_struct := None |}.

Definition fresh_heap : hg_heap :=
  {| live_blocks := {[ 1%nat; 2%nat ]}; live_bulk_handles := ∅;
     completed_requests := ∅ |}.

(** Collaborators that all succeed; the encoded input takes [size] bytes and
    the proc engine's overflow buffer, if any, is [extra]; a bulk handle
    that is created is handle 9. *)
Definition all_succeed (size : Z) (extra : option nat) : collaborators :=
  {| hg_proc_create_ret := HG_SUCCESS;
     proc_cb_ret := λ _, HG_SUCCESS;
     hg_proc_get_size := size;
     hg_proc_get_extra_buf := extra;
     hg_proc_get_extra_size := size;
     HG_Bulk_handle_create_ret := HG_SUCCESS;
     HG_Bulk_handle_create_handle := 9%nat;
     hg_proc_flush_ret := HG_SUCCESS;
     hg_proc_header_response_ret := HG_SUCCESS;
     hg_proc_header_response_verify_ret := HG_SUCCESS |}.

(** The engine with the procedure ["az"] registered under [djb2]. *)
Definition registered_az : hg_state :=
  (HG_Register djb2 "az" 11 12 initialised).2.

(** [hg_request_wait] that sees the send future 20 complete after a quarter
    of a second and the other futures not complete within the time-out. *)
Definition send_done_after_250ms (obj : nat) (timeout : Z) : wait_answer :=
  if decide (obj = 20%nat)
  then {| wait_ok := true; wait_flag := true; wait_elapsed := 1 # 4 |}
  else {| wait_ok := true; wait_flag := false;
          wait_elapsed := inject_Z timeout / inject_Z 1000 |}.

(** [hg_request_wait] that sees every future complete at once. *)
Definition all_done_at_once (obj : nat) (timeout : Z) : wait_answer :=
  {| wait_ok := true; wait_flag := true; wait_elapsed := 0 |}.

(** ** Part II-b.  The rest of the two files *)

(** *** Plugin: address lookup, address strings, registration *)

(** [na_cci_addr_lookup].  [addr] names the block [malloc] returns for the
    address.  The function allocates the operation id and the address and
    returns: it neither connects nor completes the operation. *)
Definition na_cci_addr_lookup (context callback arg : nat) (addr : nat)
    (s : na_cci_state) : na_return_t * option na_cci_op_id * na_cci_state :=
  let op := {| op_context := context; op_callback := callback;
               op_arg := arg; op_completed := false;
               op_info := Info_lookup addr |} in
  let na_cci_addr := {| cci_addr := None; rxs := []; early := [];
                        unexpected := false; self := false |} in
  (NA_SUCCESS, Some op, set_addrs s (<[addr := na_cci_addr]> (addrs s))).

(** [na_cci_addr_free]: the address block is released; what is queued on it
    goes with it. *)
Definition na_cci_addr_free (addr : option nat) (s : na_cci_state)
    : option (na_return_t * na_cci_state) :=
  match addr with
  | None => Some (NA_INVALID_PARAM, s)
  | Some a =>
      _ ← addrs s !! a;
      Some (NA_SUCCESS, set_addrs s (delete a (addrs s)))
  end.

(** [strcpy(dst, src)]: the characters of [src] and the terminating zero. *)
Definition strcpy (m : memory) (dst : option nat) (src : string)
    : option memory :=
  memcpy m dst (String.list_byte_of_string src ++ [Byte.x00])
    (Z.of_nat (String.length src) + 1).

(** [na_cci_addr_to_string].  [uri] is the address's [uri] field, which the
    address record of Part I leaves out; no function of the plugin ever sets
    it, and reading it unset ([None]) has no meaning. *)
Definition na_cci_addr_to_string (uri : option string) (buf : option nat)
    (buf_size : Z) (m : memory) : option (na_return_t * memory) :=
  u ← uri;
  if Z.of_nat (String.length u) >? buf_size then Some (NA_SIZE_ERROR, m)
  else m' ← strcpy m buf u; Some (NA_SUCCESS, m').

(** [na_cci_mem_register]: the flags handed to [cci_rma_register].
    [CCI_FLAG_READ], [CCI_FLAG_WRITE] and [NA_MEM_READWRITE] are macros of
    absent headers, taken as parameters; [rc] is what [cci_rma_register]
    answers. *)
Definition na_cci_mem_register (CCI_FLAG_READ CCI_FLAG_WRITE : Z)
    (NA_MEM_READWRITE : Z) (mem_handle : na_cci_mem_handle) (rc : Z)
    : na_return_t * Z :=
  let flags := CCI_FLAG_READ in
  let flags :=
    if negb (Z.land (mh_attr mem_handle) NA_MEM_READWRITE =? 0)
    then Z.lor flags CCI_FLAG_WRITE else flags in
  (if negb (rc =? 0) then NA_PROTOCOL_ERROR else NA_SUCCESS, flags).

(** *** Plugin: sequences of calls *)

(** One step of a process that uses the plugin: a call of one of its entry
    points with its arguments, the arrival of an event at the endpoint, or a
    trigger. *)
Inductive na_call :=
| Call_addr_lookup (context callback arg addr : nat)
| Call_addr_free (addr : option nat)
| Call_msg_send_unexpected (context callback arg : nat) (rc : Z)
| Call_msg_send_expected (context callback arg : nat) (rc : Z)
| Call_msg_recv_unexpected (context callback arg : nat) (buf : option nat)
    (buf_size : Z)
| Call_msg_recv_expected (context callback arg : nat) (buf : option nat)
    (buf_size : Z) (source : nat) (tag : Z)
| Call_put (NA_MEM_READWRITE : Z) (context callback arg : nat)
    (local_mem_handle : na_cci_mem_handle) (local_offset : Z)
    (remote_mem_handle : na_cci_mem_handle) (remote_offset : Z)
    (length : Z) (remote_addr : nat) (rc : Z)
| Call_get (context callback arg : nat)
    (local_mem_handle : na_cci_mem_handle) (local_offset : Z)
    (remote_mem_handle : na_cci_mem_handle) (remote_offset : Z)
    (length : Z) (remote_addr : nat) (rc : Z)
| Call_progress (timeout : Z)
| Call_cancel (context : nat) (op_id : na_cci_op_id)
| Call_trigger (max_count : nat)
| Event_arrives (ev : cci_event).

Definition run_call (c : na_call) (s : na_cci_state) : option na_cci_state :=
  match c with
  | Call_addr_lookup context callback arg addr =>
      Some (na_cci_addr_lookup context callback arg addr s).2
  | Call_addr_free addr => snd <$> na_cci_addr_free addr s
  | Call_msg_send_unexpected context callback arg rc =>
      Some (na_cci_msg_send_unexpected context callback arg rc s).2
  | Call_msg_send_expected context callback arg rc =>
      Some (na_cci_msg_send_expected context callback arg rc s).2
  | Call_msg_recv_unexpected context callback arg buf buf_size =>
      snd <$> na_cci_msg_recv_unexpected context callback arg buf buf_size s
  | Call_msg_recv_expected context callback arg buf buf_size source tag =>
      snd <$> na_cci_msg_recv_expected context callback arg buf buf_size
                source tag s
  | Call_put rw context callback arg lh lo rh ro len ra rc =>
      snd <$> na_cci_put rw context callback arg lh lo rh ro len ra rc s
  | Call_get context callback arg lh lo rh ro len ra rc =>
      snd <$> na_cci_get context callback arg lh lo rh ro len ra rc s
  | Call_progress timeout => snd <$> na_cci_progress timeout s
  | Call_cancel context op_id => Some (na_cci_cancel context op_id s).2
  | Call_trigger max_count => Some (NA_Trigger max_count s).2
  | Event_arrives ev =>
      Some (set_endpoint_events s (endpoint_events s ++ [ev]))
  end.

Fixpoint run_calls (cs : list na_call) (s : na_cci_state)
    : option na_cci_state :=
  match cs with
  | [] => Some s
  | c :: cs' => s' ← run_call c s; run_calls cs' s'
  end.

(** The completion is that of a receive. *)
Definition is_recv_completion (c : na_cb_completion) : Prop :=
  cb_type (cq_callback_info c) = NA_CB_RECV_UNEXPECTED
  ∨ cb_type (cq_callback_info c) = NA_CB_RECV_EXPECTED.

(** What the callback of a drained completion is told: its type, the
    argument registered with the operation, and for an unexpected receive
    the actual size, the source and the tag. *)
Definition reported (q : list na_cb_completion)
    : list (na_cb_type_t * nat * na_cb_info_union) :=
  (λ c, (cb_type (cq_callback_info c), cb_arg (cq_callback_info c),
         cb_info (cq_callback_info c))) <$> q.

(** A staged message whose length field is the length of its copy, as the
    handlers stage them. *)
Definition early_rx_wf (rx : early_rx) : Prop :=
  erx_buf_size rx = Z.of_nat (length (erx_buf rx)).

Definition unexpected_rx_wf (rx : unexpected_rx) : Prop :=
  urx_buf_size rx = Z.of_nat (length (urx_buf rx)).

(** *** Engine: tags *)

(** The tag generator's two variables. *)
Record hg_tag_state := {
  hg_request_tag_g : Z;
  hg_request_max_tag_g : Z
}.

(** Modelled from the spec: [hg_atomic_cas32] and [hg_atomic_incr32] of the
    absent [mercury_atomic.h]; compare-and-swap answers whether it swapped,
    increment answers the new value, on 32-bit signed integers. *)
Definition hg_atomic_cas32 (v compare_value new_value : Z) : bool * Z :=
  if v =? compare_value then (true, new_value) else (false, v).

Definition hg_atomic_incr32 (v : Z) : Z :=
  (v + 1 + 2 ^ 31) mod 2 ^ 32 - 2 ^ 31.

(** [hg_gen_request_tag]; [na_tag_t] is a 32-bit unsigned integer. *)
Definition hg_gen_request_tag (t : hg_tag_state) : Z * hg_tag_state :=
  (* Compare and swap tag if reached max tag *)
  let '(swapped, v) :=
    hg_atomic_cas32 (hg_request_tag_g t) (hg_request_max_tag_g t) 0 in
  if swapped
  then (0, {| hg_request_tag_g := v;
              hg_request_max_tag_g := hg_request_max_tag_g t |})
  else
    (* Increment tag *)
    let v' := hg_atomic_incr32 v in
    (v' mod 2 ^ 32,
     {| hg_request_tag_g := v';
        hg_request_max_tag_g := hg_request_max_tag_g t |}).

(** The tags of [n] successive draws. *)
Fixpoint draw_tags (n : nat) (t : hg_tag_state) : list Z * hg_tag_state :=
  match n with
  | O => ([], t)
  | S n' =>
      let '(tag, t1) := hg_gen_request_tag t in
      let '(tags, t2) := draw_tags n' t1 in
      (tag :: tags, t2)
  end.

(** *** Engine: initialisation *)

(** All module-level variables of [mercury.c]: those of [hg_state] and the
    context, the request class, the bulk flag and the tag generator. *)
Record hg_globals := {
  engine : hg_state;
  hg_context_g : option nat;
  hg_request_class_g : option nat;
  hg_bulk_initialized_internal_g : bool;
  tags : hg_tag_state
}.

Definition set_tags (G : hg_globals) (t : hg_tag_state) : hg_globals :=
  {| engine := engine G; hg_context_g := hg_context_g G;
     hg_request_class_g := hg_request_class_g G;
     hg_bulk_initialized_internal_g := hg_bulk_initialized_internal_g G;
     tags := t |}.

(** What [mercury.c] reads from the other modules during [HG_Init] and
    [HG_Finalize]: their [extern] variables and the answers of their
    functions. *)
Record module_env := {
  hg_bulk_na_class_g : option nat;
  hg_bulk_context_g : option nat;
  hg_bulk_request_class_g : option nat;
  hg_handler_na_class_g : option nat;
  hg_handler_context_g : option nat;
  hg_handler_request_class_g : option nat;
  NA_Context_create_result : option nat;
  hg_request_init_result : option nat;
  HG_Bulk_initialized_flag : bool;
  HG_Bulk_init_ret : hg_return_t;
  NA_Msg_get_max_tag : Z;
  HG_Bulk_finalize_ret : hg_return_t;
  NA_Context_destroy_ret : na_return_t
}.

Definition HG_Init (M : module_env) (na_class : option nat) (G : hg_globals)
    : hg_return_t * hg_globals :=
  match na_class with
  | None => (HG_FAIL, G)
  | Some c =>
      match hg_na_class_g (engine G) with
      | Some _ => (HG_FAIL, G)
      | None =>
          let eng1 := {| hg_na_class_g := Some c;
                         hg_func_map_g := hg_func_map_g (engine G) |} in
          let with_context ctx rc :=
            {| engine := eng1; hg_context_g := ctx;
               hg_request_class_g := rc;
               hg_bulk_initialized_internal_g :=
                 hg_bulk_initialized_internal_g G;
               tags := tags G |} in
          (* Create local context if na_class different from hg_bulk_class *)
          let selected :=
            if decide (hg_bulk_na_class_g M = Some c)
            then (true, with_context (hg_bulk_context_g M)
                          (hg_bulk_request_class_g M))
            else match hg_handler_na_class_g M with
                 | Some _ => (true, with_context (hg_handler_context_g M)
                                      (hg_handler_request_class_g M))
                 | None =>
                     match NA_Context_create_result M with
                     | None =>
                         (false, with_context None (hg_request_class_g G))
                     | Some ctx =>
                         (true, with_context (Some ctx)
                                  (hg_request_init_result M))
                     end
                 end in
          let '(ok, G1) := selected in
          if negb ok then (HG_FAIL, G1)
          (* Initialize bulk module *)
          else if negb (HG_Bulk_initialized_flag M)
                  && bool_decide (HG_Bulk_init_ret M ≠ HG_SUCCESS)
          then (HG_FAIL, G1)
          else
            (HG_SUCCESS,
             {| engine := {| hg_na_class_g := Some c;
                             hg_func_map_g := Some ∅ |};
                hg_context_g := hg_context_g G1;
                hg_request_class_g := hg_request_class_g G1;
                hg_bulk_initialized_internal_g :=
                  negb (HG_Bulk_initialized_flag M);
                (* Initialize atomic for tags *)
                tags := {| hg_request_tag_g := 0;
                           hg_request_max_tag_g := NA_Msg_get_max_tag M |}
             |})
      end
  end.

(** [HG_Finalize].  Releasing a function map that does not exist has no
    meaning. *)
Definition HG_Finalize (M : module_env) (G : hg_globals)
    : option (hg_return_t * hg_globals) :=
  match hg_na_class_g (engine G) with
  | None => Some (HG_FAIL, G)
  | Some c =>
      if hg_bulk_initialized_internal_g G
         && bool_decide (HG_Bulk_finalize_ret M ≠ HG_SUCCESS)
      then Some (HG_FAIL, G)
      else
        let G1 := {| engine := engine G; hg_context_g := hg_context_g G;
                     hg_request_class_g := hg_request_class_g G;
                     hg_bulk_initialized_internal_g := false;
                     tags := tags G |} in
        let shared :=
          bool_decide (is_Some (hg_handler_na_class_g M))
          || (bool_decide (is_Some (hg_bulk_na_class_g M))
              && bool_decide (Some c = hg_bulk_na_class_g M)) in
        if negb shared
           && bool_decide (NA_Context_destroy_ret M ≠ NA_SUCCESS)
        then
          (* the request class is finalized, the context is not destroyed *)
          Some (HG_FAIL,
                {| engine := engine G1; hg_context_g := hg_context_g G1;
                   hg_request_class_g := None;
                   hg_bulk_initialized_internal_g := false;
                   tags := tags G1 |})
        else
          (* Delete function map *)
          _ ← hg_func_map_g (engine G);
          Some (HG_SUCCESS,
                {| engine := {| hg_na_class_g := None;
                                hg_func_map_g := None |};
                   hg_context_g := None; hg_request_class_g := None;
                   hg_bulk_initialized_internal_g := false;
                   tags := tags G1 |})
  end.

(** [HG_Initialized] with a non-null [flag]: the code, [*flag] and
    [*na_class]. *)
Definition HG_Initialized (G : hg_globals)
    : hg_return_t * bool * option nat :=
  (HG_SUCCESS, bool_decide (is_Some (hg_na_class_g (engine G))),
   hg_na_class_g (engine G)).

(** *** Engine: forward, wait-all, free *)

(** What one call of [HG_Forward] obtains from its collaborators: the blocks
    [malloc] and [hg_proc_buf_alloc] return, the two sizes the NA class
    reports, the request objects [hg_request_create] returns, and the
    answers of the header encoder and of the two NA posts. *)
Record forward_env := {
  fw_request : nat;
  fw_send_buf : nat;
  fw_recv_buf : nat;
  fw_max_unexpected_size : Z;
  fw_max_expected_size : Z;
  fw_send_request : option nat;
  fw_recv_request : option nat;
  fw_header_request_ret : hg_return_t;
  fw_recv_expected_ret : na_return_t;
  fw_send_unexpected_ret : na_return_t
}.

(** A message operation handed to the NA layer: buffer, size, peer, tag. *)
Inductive na_post :=
| Post_recv_expected (buf : option nat) (buf_size : Z) (source : nat)
    (tag : Z)
| Post_send_unexpected (buf : option nat) (buf_size : Z) (dest : nat)
    (tag : Z).

(** The [done] block of [HG_Forward] on failure. *)
Definition HG_Forward_cleanup (F : forward_env) (priv_request : hg_request)
    (h : hg_heap) : option hg_heap :=
  h1 ← free_if_set (send_buf priv_request) h;
  h2 ← free_if_set (recv_buf priv_request) h1;
  h3 ← free_if_set (extra_send_buf priv_request) h2;
  h4 ← match extra_send_buf_handle priv_request with
       | Some hd => HG_Bulk_handle_free hd h3
       | None => Some h3
       end;
  free_block (fw_request F) h4.

(** [HG_Forward].  The result is the return code, the request stored
    through [request] (its block and its contents), the module variables,
    the heap, and the posts made to the NA layer in order, each with the
    code it was answered. *)
Definition HG_Forward (E : collaborators) (F : forward_env) (G : hg_globals)
    (addr : nat) (id : Z) (in_struct out_struct : option nat) (h : hg_heap)
    : option (hg_return_t * option (nat * hg_request) * hg_globals
              * hg_heap * list (na_post * na_return_t)) :=
  match hg_na_class_g (engine G) with
  | None => Some (HG_FAIL, None, G, h, [])
  | Some _ =>
      let h0 :=
        add_block (Some (fw_recv_buf F))
          (add_block (Some (fw_send_buf F))
             (add_block (Some (fw_request F)) h)) in
      let priv_request :=
        {| req_id := id;
           send_buf := Some (fw_send_buf F);
           send_buf_size := fw_max_unexpected_size F;
           (* Extra send buffer set to NULL by default *)
           extra_send_buf := None; extra_send_buf_size := 0;
           extra_send_buf_handle := None;
           send_request := fw_send_request F;
           recv_buf := Some (fw_recv_buf F);
           recv_buf_size := fw_max_expected_size F;
           recv_request := fw_recv_request F;
           (* Keep pointer to output structure *)
           out_struct := out_struct |} in
      let failed r G' h' posts :=
        h'' ← HG_Forward_cleanup F r h'; Some (HG_FAIL, None, G', h'', posts) in
      (* Encode the function parameters *)
      '(ret, r, h1) ← hg_set_input E (engine G) priv_request in_struct h0;
      if decide (ret ≠ HG_SUCCESS) then failed r G h1 []
      (* Encode request header *)
      else if decide (fw_header_request_ret F ≠ HG_SUCCESS)
      then failed r G h1 []
      else
        (* Post the send message and pre-post the recv message *)
        let '(send_tag, t) := hg_gen_request_tag (tags G) in
        let recv_tag := send_tag in
        let G1 := set_tags G t in
        let p_recv :=
          (Post_recv_expected (recv_buf r) (recv_buf_size r) addr recv_tag,
           fw_recv_expected_ret F) in
        if decide (fw_recv_expected_ret F ≠ NA_SUCCESS)
        then failed r G1 h1 [p_recv]
        else
          let p_send :=
            (Post_send_unexpected (send_buf r) (send_buf_size r) addr
               send_tag, fw_send_unexpected_ret F) in
          if decide (fw_send_unexpected_ret F ≠ NA_SUCCESS)
          then failed r G1 h1 [p_recv; p_send]
          else Some (HG_SUCCESS, Some (fw_request F, r), G1, h1,
                     [p_recv; p_send])
  end.

(** The request as [HG_Forward] has filled it in, and the heap as its three
    allocations have left it, at the call of [hg_set_input]. *)
Definition forward_request (F : forward_env) (id : Z) (out : option nat)
    : hg_request :=
  {| req_id := id;
     send_buf := Some (fw_send_buf F);
     send_buf_size := fw_max_unexpected_size F;
     extra_send_buf := None; extra_send_buf_size := 0;
     extra_send_buf_handle := None;
     send_request := fw_send_request F;
     recv_buf := Some (fw_recv_buf F);
     recv_buf_size := fw_max_expected_size F;
     recv_request := fw_recv_request F;
     out_struct := out |}.

Definition forward_heap (F : forward_env) (h : hg_heap) : hg_heap :=
  add_block (Some (fw_recv_buf F))
    (add_block (Some (fw_send_buf F))
       (add_block (Some (fw_request F)) h)).

(** [HG_Wait_all]: the requests of the array in order, each waited with the
    full time-out; the result is the last code and, per request, what
    [HG_Wait] stored and left. *)
Fixpoint HG_Wait_all_loop (hg_request_wait : nat -> Z -> wait_answer)
    (st : hg_state) (array_of_requests : list (option hg_request))
    (timeout : Z) (ret : hg_return_t)
    : hg_return_t
      * list (option bool * option hg_request * list (nat * Z)) :=
  match array_of_requests with
  | [] => (ret, [])
  | request :: rest =>
      let '(ret1, status, r', waits) :=
        HG_Wait hg_request_wait st request timeout true in
      let '(ret2, out) :=
        HG_Wait_all_loop hg_request_wait st rest timeout ret1 in
      (ret2, (status, r', waits) :: out)
  end.

Definition HG_Wait_all (hg_request_wait : nat -> Z -> wait_answer)
    (st : hg_state) (array_of_requests : list (option hg_request))
    (timeout : Z)
    : hg_return_t
      * list (option bool * option hg_request * list (nat * Z)) :=
  match hg_na_class_g st with
  | None => (HG_FAIL, [])
  | Some _ =>
      (* TODO For now just loop over requests *)
      HG_Wait_all_loop hg_request_wait st array_of_requests timeout
        HG_SUCCESS
  end.

(** [HG_Request_free].  The request is its block and its contents; routine
    name 0 stands for a null routine pointer.  The free-mode proc has no
    overflow buffer, so releasing it leaves the heap alone. *)
Definition HG_Request_free (E : collaborators) (st : hg_state)
    (request : option (nat * hg_request)) (h : hg_heap)
    : option (hg_return_t * hg_heap) :=
  match hg_na_class_g st with
  | None => Some (HG_FAIL, h)
  | Some _ =>
      match request with
      | None => Some (HG_FAIL, h)
      | Some (block, priv_request) =>
          if bool_decide (is_Some (send_request priv_request))
             || bool_decide (is_Some (recv_request priv_request))
          then Some (HG_FAIL, h)
          else
            (* Retrieve decoding function from function map *)
            m ← hg_func_map_g st;
            match m !! req_id priv_request with
            | None => Some (HG_FAIL, h)
            | Some Dangling => None
            | Some (Proc_info proc_info) =>
                let free_request ret :=
                  h' ← free_block block h; Some (ret, h') in
                if bool_decide (is_Some (out_struct priv_request))
                   && negb (Nat.eqb (dec_routine proc_info) 0)
                then
                  (* Create a new free proc *)
                  if decide (hg_proc_create_ret E ≠ HG_SUCCESS)
                  then Some (HG_FAIL, h)
                  else
                    (* Free memory allocated during output decoding *)
                    if decide (proc_cb_ret E (dec_routine proc_info)
                               ≠ HG_SUCCESS)
                    then free_request HG_FAIL
                    else free_request HG_SUCCESS
                else free_request HG_SUCCESS
            end
      end
  end.

(** *** More sample data *)

(** An engine with nothing initialised. *)
Definition uninitialised : hg_globals :=
  {| engine := {| hg_na_class_g := None; hg_func_map_g := None |};
     hg_context_g := None; hg_request_class_g := None;
     hg_bulk_initialized_internal_g := false;
     tags := {| hg_request_tag_g := 0; hg_request_max_tag_g := 0 |} |}.

(** The other modules not initialised either; every collaborator succeeds,
    the context created is 5, the request class 6, the largest tag 3. *)
Definition standalone : module_env :=
  {| hg_bulk_na_class_g := None; hg_bulk_context_g := None;
     hg_bulk_request_class_g := None; hg_handler_na_class_g := None;
     hg_handler_context_g := None; hg_handler_request_class_g := None;
     NA_Context_create_result := Some 5%nat;
     hg_request_init_result := Some 6%nat;
     HG_Bulk_initialized_flag := false; HG_Bulk_init_ret := HG_SUCCESS;
     NA_Msg_get_max_tag := 3;
     HG_Bulk_finalize_ret := HG_SUCCESS;
     NA_Context_destroy_ret := NA_SUCCESS |}.

(** The same with a context that cannot be created. *)
Definition no_context : module_env :=
  {| hg_bulk_na_class_g := None; hg_bulk_context_g := None;
     hg_bulk_request_class_g := None; hg_handler_na_class_g := None;
     hg_handler_context_g := None; hg_handler_request_class_g := None;
     NA_Context_create_result := None;
     hg_request_init_result := Some 6%nat;
     HG_Bulk_initialized_flag := false; HG_Bulk_init_ret := HG_SUCCESS;
     NA_Msg_get_max_tag := 3;
     HG_Bulk_finalize_ret := HG_SUCCESS;
     NA_Context_destroy_ret := NA_SUCCESS |}.

(** The engine of [registered_az] with its other module variables. *)
Definition running : hg_globals :=
  {| engine := registered_az; hg_context_g := Some 5%nat;
     hg_request_class_g := Some 6%nat;
     hg_bulk_initialized_internal_g := true;
     tags := {| hg_request_tag_g := 2; hg_request_max_tag_g := 3 |} |}.

(** A forward whose collaborators all succeed: request block 40, buffers 1
    and 2 of 4096 bytes, futures 20 and 21. *)
Definition forward_ok : forward_env :=
  {| fw_request := 40%nat; fw_send_buf := 1%nat; fw_recv_buf := 2%nat;
     fw_max_unexpected_size := 4096; fw_max_expected_size := 4096;
     fw_send_request := Some 20%nat; fw_recv_request := Some 21%nat;
     fw_header_request_ret := HG_SUCCESS;
     fw_recv_expected_ret := NA_SUCCESS;
     fw_send_unexpected_ret := NA_SUCCESS |}.

(** The same with a send that the NA layer refuses. *)
Definition forward_send_refused : forward_env :=
  {| fw_request := 40%nat; fw_send_buf := 1%nat; fw_recv_buf := 2%nat;
     fw_max_unexpected_size := 4096; fw_max_expected_size := 4096;
     fw_send_request := Some 20%nat; fw_recv_request := Some 21%nat;
     fw_header_request_ret := HG_SUCCESS;
     fw_recv_expected_ret := NA_SUCCESS;
     fw_send_unexpected_ret := NA_PROTOCOL_ERROR |}.

(** Collaborators that succeed except for the creation of the bulk
    handle. *)
Definition bulk_create_fails (size : Z) (extra : option nat)
    : collaborators :=
  {| hg_proc_create_ret := HG_SUCCESS;
     proc_cb_ret := λ _, HG_SUCCESS;
     hg_proc_get_size := size;
     hg_proc_get_extra_buf := extra;
     hg_proc_get_extra_size := size;
     HG_Bulk_handle_create_ret := HG_NOMEM_ERROR;
     HG_Bulk_handle_create_handle := 9%nat;
     hg_proc_flush_ret := HG_SUCCESS;
     hg_proc_header_response_ret := HG_SUCCESS;
     hg_proc_header_response_verify_ret := HG_SUCCESS |}.

(** Collaborators that succeed except for the verification of the response
    header. *)
Definition verify_fails : collaborators :=
  {| hg_proc_create_ret := HG_SUCCESS;
     proc_cb_ret := λ _, HG_SUCCESS;
     hg_proc_get_size := 0;
     hg_proc_get_extra_buf := None;
     hg_proc_get_extra_size := 0;
     HG_Bulk_handle_create_ret := HG_SUCCESS;
     HG_Bulk_handle_create_handle := 9%nat;
     hg_proc_flush_ret := HG_SUCCESS;
     hg_proc_header_response_ret := HG_SUCCESS;
     hg_proc_header_response_verify_ret := HG_CHECKSUM_ERROR |}.

(** No block and no handle live. *)
Definition empty_heap : hg_heap :=
  {| live_blocks := ∅; live_bulk_handles := ∅; completed_requests := ∅ |}.

(** [hg_request_wait] that never sees a future complete. *)
Definition never_done (obj : nat) (timeout : Z) : wait_answer :=
  {| wait_ok := true; wait_flag := false;
     wait_elapsed := inject_Z timeout / inject_Z 1000 |}.

(** [hg_request_wait] that fails on the send future 20. *)
Definition send_wait_fails (obj : nat) (timeout : Z) : wait_answer :=
  {| wait_ok := negb (Nat.eqb obj 20); wait_flag := true;
     wait_elapsed := 0 |}.

(** *** More sample states of the plugin *)

(** The process of [quiet] with a 2-byte unexpected message of [peer],
    tag 3, staged and no receive posted. *)
Definition staged_unexpected : na_cci_state :=
  {| endpoint_events := []; addrs := {[ 1%nat := peer ]};
     unexpected_msg_queue :=
       [{| urx_buf := payload2; urx_buf_size := 2; urx_actual_size := 2;
           urx_na_cci_addr := Some 1%nat; urx_tag := 3 |}];
     unexpected_op_queue := [];
     completion_queue := []; mem := {[ 10%nat := zeros 4 ]};
     rma_calls := [] |}.

(** The process of [quiet] with a 2-byte expected message for tag 7 staged
    early on [peer]. *)
Definition early_staged : na_cci_state :=
  {| endpoint_events := [];
     addrs := {[ 1%nat :=
                 {| cci_addr := Some 1%nat; rxs := [];
                    early := [{| erx_buf := payload2; erx_buf_size := 2;
                                 erx_actual_size := 2; erx_tag := 7 |}];
                    unexpected := false; self := false |} ]};
     unexpected_msg_queue := []; unexpected_op_queue := [];
     completion_queue := []; mem := {[ 10%nat := zeros 4 ]};
     rma_calls := [] |}.

(** A send, a progress on the pending unexpected message, the send's
    event, a progress on it. *)
Definition send_then_progress : list na_call :=
  [Call_msg_send_unexpected 0 8 0 0; Call_progress 0;
   Event_arrives
     (CCI_EVENT_SEND {| op_context := 0; op_callback := 8; op_arg := 0;
                        op_completed := false;
                        op_info := Info_send_unexpected 0 |});
   Call_progress 0].

(** A memory handle of 64 bytes with access attribute [attr]. *)
Definition handle64 (attr : Z) : na_cci_mem_handle :=
  {| mh_base := 4096; mh_size := 64; mh_attr := attr |}.

(** ** Part III.  Properties of the plugin *)

Section Plugin_facts.

Local Open Scope nat_scope.

Lemma drained_is_queue s : drained s = completion_queue s.
Proof. unfold drained, trigger_drain, NA_Trigger; simpl. by rewrite take_ge. Qed.

Lemma trigger_drain_empties s : completion_queue (trigger_drain s).2 = [].
Proof. unfold trigger_drain, NA_Trigger; simpl. by rewrite drop_ge. Qed.

Lemma hg_queue_pop_tail_nil {A} (q : list A) :
  (hg_queue_pop_tail q).1 = None ↔ q = [].
Proof.
  unfold hg_queue_pop_tail. destruct (reverse q) as [|x r] eqn:E; simpl.
  - split; [intros _|done].
    apply (f_equal reverse) in E. by rewrite reverse_involutive in E.
  - split; [done|]. intros ->. by rewrite reverse_nil in E.
Qed.

Lemma hg_queue_fifo {A} (q : list A) (x y : A) :
  hg_queue_pop_tail (hg_queue_push_head (q ++ [y]) x)
  = (Some y, hg_queue_push_head q x).
Proof.
  unfold hg_queue_pop_tail, hg_queue_push_head.
  rewrite app_comm_cons, reverse_snoc. by rewrite reverse_involutive.
Qed.





(** The slip in [handle_send]: a [SEND] event is consumed and nothing is
    completed, whatever operation id the event names. *)
Lemma progress_send_event timeout op q s :
  endpoint_events s = CCI_EVENT_SEND op :: q →
  na_cci_progress timeout s = Some (NA_SUCCESS, set_endpoint_events s q).
Proof. intros H. unfold na_cci_progress, cci_get_event. by rewrite H. Qed.




(** The two ways the source computes a copy length that can exceed the
    posted buffer. *)
Lemma early_copy_len_short buf_size rx_buf_size :
  (buf_size < rx_buf_size)%Z → early_copy_len buf_size rx_buf_size = rx_buf_size.
Proof. unfold early_copy_len. intros H. destruct (Z.gtb_spec buf_size rx_buf_size); [lia|done]. Qed.

Lemma unexpected_copy_len_long buf_size msg_len :
  (sizeof_msg_size ≤ buf_size)%Z →
  unexpected_copy_len buf_size (sizeof_msg_size + msg_len) msg_len = msg_len.
Proof.
  unfold unexpected_copy_len. intros H.
  destruct (Z.ltb_spec buf_size (sizeof_msg_size + msg_len - msg_len)); [lia|done].
Qed.

Lemma unexpected_copy_len_tiny buf_size msg_len :
  (buf_size < sizeof_msg_size)%Z →
  unexpected_copy_len buf_size (sizeof_msg_size + msg_len) msg_len = buf_size.
Proof.
  unfold unexpected_copy_len. intros H.
  destruct (Z.ltb_spec buf_size (sizeof_msg_size + msg_len - msg_len)); [done|lia].
Qed.

(** C2, at the failing input: a 4-byte message for tag 7 is staged early; a
    receive for tag 7 is posted with a length of 2 over a block of 8 bytes.
    The source takes the larger of the two lengths: 4 bytes are copied, the
    actual size is 4, [na_cci_complete] then rejects the operation with
    [NA_SIZE_ERROR] and nothing is queued for the callback; the staged
    message is consumed.  Over a block of exactly 2 bytes the copy runs past
    the block. *)
Theorem recv_expected_early_short_buffer :
  early_copy_len 2 4 = 4%Z
  ∧ (∃ s s', staged_early 8 payload4 = Some s
       ∧ early_of s 1 = [{| erx_buf := payload4; erx_buf_size := 4;
                            erx_actual_size := 4; erx_tag := 7 |}]
       ∧ na_cci_msg_recv_expected 0 7 0 (Some 10) 2 1 7 s
         = Some (NA_SIZE_ERROR, None, s')
       ∧ mem s' !! 10 = Some (payload4 ++ zeros 4)
       ∧ early_of s' 1 = [] ∧ rxs_of s' 1 = [] ∧ drained s' = [])
  ∧ (s ← staged_early 2 payload4;
     na_cci_msg_recv_expected 0 7 0 (Some 10) 2 1 7 s) = None.
Proof.
  split; [reflexivity|]. split; [|by vm_compute].
  eexists _, _. split; [reflexivity|]. split; [by vm_compute|].
  split; [reflexivity|]. by vm_compute.
Qed.

(** The same in general: whenever the posted length is shorter than the
    staged message, the early-match path either copies past a block or
    answers [NA_SIZE_ERROR] with the staged message consumed and no
    completion queued. *)
Lemma recv_expected_early_short_never_completes context callback arg buf
    buf_size source tag s a rx rest :
  addrs s !! source = Some a →
  early_find (tag mod 2 ^ 32) (early a) = Some (rx, rest) →
  (buf_size < erx_buf_size rx)%Z →
  na_cci_msg_recv_expected context callback arg buf buf_size source tag s
  = None
  ∨ ∃ s', na_cci_msg_recv_expected context callback arg buf buf_size source
             tag s
           = Some (NA_SIZE_ERROR, None, s')
           ∧ completion_queue s' = completion_queue s
           ∧ early_of s' source = rest.
Proof.
  intros Ha Hf Hlt. unfold na_cci_msg_recv_expected.
  rewrite Ha. simpl. rewrite Hf, (early_copy_len_short _ _ Hlt).
  destruct (memcpy (mem s) buf (erx_buf rx) (erx_buf_size rx)) as [m|];
    [right|by left].
  simpl. unfold na_cci_complete. simpl.
  destruct (Z.eqb_spec (erx_buf_size rx) buf_size) as [E|_]; [lia|].
  simpl. eexists. split; [reflexivity|]. split; [done|].
  unfold early_of. simpl. by rewrite lookup_insert_eq.
Qed.

(** The other path of C2: the receive is posted first and the message
    arrives later.  The copy goes through [info.recv_unexpected.buf], which
    for this operation id is a null pointer, not the posted buffer. *)
Lemma recv_expected_late_copies_through_null :
  ∃ s, na_cci_msg_recv_expected 0 7 0 (Some 10) 2 1 7 (quiet 8 [])
       = Some (NA_SUCCESS, Some s.1, s.2)
       ∧ length (rxs_of s.2 1) = 1
       ∧ handle_recv_expected 1 7 payload4 s.2 = None.
Proof. eexists (_, _). split; [reflexivity|]. by vm_compute. Qed.

(** C3, at the failing input: an unexpected receive is posted with a length
    of 4 over a block of 8 bytes, then an 8-byte unexpected message arrives.
    The source compares the posted length with [event->recv.len - msg_len],
    the size of the framing word, so all 8 bytes are copied and 8 is
    reported.  Over a block of exactly 4 bytes the copy runs past the
    block. *)
Theorem recv_unexpected_posted_first_overruns :
  unexpected_copy_len 4 (recv_len payload8) 8 = 8%Z
  ∧ (∃ s s', posted_unexpected 8 4 [CCI_EVENT_RECV 1 false 3 payload8] = Some s
       ∧ length (unexpected_op_queue s) = 1
       ∧ na_cci_progress 0 s = Some (NA_SUCCESS, s')
       ∧ mem s' !! 10 = Some payload8
       ∧ reported_sizes (drained s') = [8%Z])
  ∧ (s ← posted_unexpected 4 4 [CCI_EVENT_RECV 1 false 3 payload8];
     na_cci_progress 0 s) = None.
Proof.
  split; [reflexivity|]. split; [|by vm_compute].
  eexists _, _. split; [reflexivity|]. split; [reflexivity|].
  split; [reflexivity|]. by vm_compute.
Qed.

(** The sibling path of C3 does truncate: when the payload was staged before
    the receive is posted, the reported size is the smaller of the two
    lengths. *)
Lemma recv_unexpected_staged_first_truncates context callback arg buf
    buf_size s ret op s' :
  unexpected_msg_queue s ≠ [] →
  na_cci_msg_recv_unexpected context callback arg buf buf_size s
  = Some (ret, Some op, s') →
  ∃ ru rx, op_info op = Info_recv_unexpected ru
    ∧ last (unexpected_msg_queue s) = Some rx
    ∧ ru_actual_size ru = Z.min buf_size (urx_buf_size rx)
    ∧ reported_sizes (drained s')
      = reported_sizes (drained s) ++ [ru_actual_size ru].
Proof.
  intros Hne. unfold na_cci_msg_recv_unexpected, na_cci_msg_unexpected_pop.
  pose proof (hg_queue_pop_tail_nil (unexpected_msg_queue s)) as Hnil.
  unfold hg_queue_pop_tail in *.
  destruct (reverse (unexpected_msg_queue s)) as [|rx r] eqn:Hr; simpl in *.
  { exfalso. by apply Hne, Hnil. }
  intros H. apply bind_Some in H as (m & Hm & H).
  unfold na_cci_complete, na_cb_completion_add in H. simpl in H.
  injection H as <- <- <-. eexists _, rx. simpl.
  split; [reflexivity|]. split.
  { apply (f_equal reverse) in Hr. rewrite reverse_involutive in Hr.
    rewrite Hr, reverse_cons. apply last_snoc. }
  split.
  { simpl. destruct (Z.ltb_spec buf_size (urx_buf_size rx)); lia. }
  rewrite !drained_is_queue. simpl.
  unfold reported_sizes. by rewrite omap_app.
Qed.

(** C8: a put whose remote handle was created read-only answers
    [NA_PERMISSION_ERROR], returns no operation id and leaves the process
    state, with the record of [cci_rma] calls, as it was; a put whose remote
    handle was created read-write passes the check and calls [cci_rma]
    once. *)
Theorem put_read_only_permission_error
    (NA_MEM_READWRITE NA_MEM_READ_ONLY : Z) context callback arg
    local_mem_handle local_offset base size remote_offset length_
    remote_addr rc s a :
  (0 ≤ NA_MEM_READWRITE < 2 ^ 8)%Z →
  (NA_MEM_READ_ONLY mod 2 ^ 8)%Z ≠ NA_MEM_READWRITE →
  addrs s !! remote_addr = Some a →
  na_cci_put NA_MEM_READWRITE context callback arg local_mem_handle
    local_offset (na_cci_mem_handle_create base size NA_MEM_READ_ONLY).2
    remote_offset length_ remote_addr rc s
  = Some (NA_PERMISSION_ERROR, None, s)
  ∧ ∃ ret op s',
      na_cci_put NA_MEM_READWRITE context callback arg local_mem_handle
        local_offset (na_cci_mem_handle_create base size NA_MEM_READWRITE).2
        remote_offset length_ remote_addr rc s
      = Some (ret, op, s')
      ∧ ret ≠ NA_PERMISSION_ERROR
      ∧ rma_calls s'
        = rma_calls s ++ [{| rma_local_offset := local_offset;
                             rma_remote_offset := remote_offset;
                             rma_length := length_; rma_write := true |}].
Proof.
  intros Hrw Hro Ha. unfold na_cci_put. rewrite Ha. simpl.
  split.
  - destruct (Z.eqb_spec (NA_MEM_READ_ONLY mod 2 ^ 8) NA_MEM_READWRITE);
      [done|reflexivity].
  - rewrite Z.mod_small by done. rewrite Z.eqb_refl. simpl.
    destruct (rc =? 0)%Z; simpl; eexists _, _, _; split_and!; done.
Qed.

Lemma put_read_only_permission_error_witness :
  na_cci_put 0 0 7 0 {| mh_base := 0; mh_size := 8; mh_attr := 0 |} 0
    (na_cci_mem_handle_create 4096 8 1).2 0 8 1 0 (quiet 0 [])
  = Some (NA_PERMISSION_ERROR, None, quiet 0 []).
Proof.
  refine (proj1 (put_read_only_permission_error 0 1 0 7 0
                   {| mh_base := 0; mh_size := 8; mh_attr := 0 |}
                   0 4096 8 0 8 1 0 (quiet 0 []) peer _ _ _)).
  - lia.
  - vm_compute. discriminate.
  - reflexivity.
Defined.

(** C9, at the failing input: an unexpected receive and an expected receive
    are posted and not yet matched; cancelling either answers
    [NA_PROTOCOL_ERROR], leaves it in its queue and completes nothing. *)
Theorem cancel_posted_receive_does_nothing :
  ∃ op1 s1 op2 s2,
    na_cci_msg_recv_unexpected 0 7 0 (Some 10) 4 (quiet 4 [])
    = Some (NA_SUCCESS, Some op1, s1)
    ∧ na_cci_msg_recv_expected 0 7 0 (Some 10) 4 1 7 s1
      = Some (NA_SUCCESS, Some op2, s2)
    ∧ unexpected_op_queue s2 = [op1] ∧ rxs_of s2 1 = [op2]
    ∧ na_cci_cancel 0 op1 s2 = (NA_PROTOCOL_ERROR, s2)
    ∧ na_cci_cancel 0 op2 s2 = (NA_PROTOCOL_ERROR, s2)
    ∧ drained s2 = [].
Proof.
  eexists _, _, _, _. split; [reflexivity|]. split; [reflexivity|].
  by vm_compute.
Qed.

End Plugin_facts.

(** ** Part IV.  Properties of the engine *)

Section Engine_facts.

(** *** Registration *)

Lemma HG_Register_nonzero hg_hash_string name enc dec st m :
  hg_func_map_g st = Some m →
  hg_hash_string name mod 2 ^ 32 ≠ 0 →
  HG_Register hg_hash_string name enc dec st
  = (hg_hash_string name mod 2 ^ 32,
     set_hg_func_map_g st
       (Some (<[hg_hash_string name mod 2 ^ 32 :=
                  Proc_info {| enc_routine := enc; dec_routine := dec |}]> m))).
Proof.
  intros Hm Hne. unfold HG_Register, hg_hash_table_insert. rewrite Hm.
  by destruct (Z.eqb_spec (hg_hash_string name mod 2 ^ 32) 0).
Qed.

(** C4, as stated, fails: ["az"] and ["bY"] are distinct names with the same
    hash; registering ["bY"] after ["az"] answers the common id, not a
    failure, and the table then holds the routines of ["bY"]. *)
Lemma register_collision_not_rejected :
  "az" ≠ "bY" ∧ djb2 "az" = 5863232 ∧ djb2 "bY" = 5863232
  ∧ func_map_lookup registered_az 5863232
    = Some (Proc_info {| enc_routine := 11; dec_routine := 12 |})
  ∧ (HG_Register djb2 "bY" 13 14 registered_az).1 = 5863232
  ∧ func_map_lookup (HG_Register djb2 "bY" 13 14 registered_az).2 5863232
    = Some (Proc_info {| enc_routine := 13; dec_routine := 14 |})
  ∧ HG_Registered djb2 "az" (HG_Register djb2 "bY" 13 14 registered_az).2
    = Some (HG_SUCCESS, Some (true, 5863232)).
Proof. split; [done|]. by vm_compute. Qed.

(** C4 (amended): when two procedure names, distinct or not, have the same
    non-zero hash, registering the second after the first succeeds with the
    same id and leaves the table mapping that id to the second
    registration's encode/decode routines; the first name is then reported
    registered under that id.  When the routines are the same too, the
    second registration leaves the engine as the first left it. *)
Theorem register_same_hash_replaces (hg_hash_string : string → Z)
    name1 name2 enc1 dec1 enc2 dec2 st m :
  hg_func_map_g st = Some m →
  hg_hash_string name1 mod 2 ^ 32 = hg_hash_string name2 mod 2 ^ 32 →
  hg_hash_string name1 mod 2 ^ 32 ≠ 0 →
  let first := HG_Register hg_hash_string name1 enc1 dec1 st in
  let second := HG_Register hg_hash_string name2 enc2 dec2 first.2 in
  first.1 = hg_hash_string name1 mod 2 ^ 32
  ∧ second.1 = first.1
  ∧ func_map_lookup second.2 second.1
    = Some (Proc_info {| enc_routine := enc2; dec_routine := dec2 |})
  ∧ HG_Registered hg_hash_string name1 second.2
    = Some (HG_SUCCESS, Some (true, first.1))
  ∧ (enc1 = enc2 → dec1 = dec2 → second.2 = first.2).
Proof.
  intros Hm Heq Hne first second. subst first second.
  rewrite (HG_Register_nonzero _ _ _ _ _ _ Hm Hne). simpl.
  erewrite HG_Register_nonzero; [|reflexivity|by rewrite <- Heq].
  simpl. rewrite <- Heq. split_and!; try done.
  - unfold func_map_lookup. simpl. by rewrite lookup_insert_eq.
  - unfold HG_Registered. simpl. by rewrite lookup_insert_eq.
  - intros <- <-. by rewrite insert_insert_eq.
Qed.

Lemma register_same_hash_replaces_witness :
  (HG_Register djb2 "bY" 13 14 (HG_Register djb2 "az" 11 12 initialised).2).1
  = (HG_Register djb2 "az" 11 12 initialised).1
  ∧ func_map_lookup
      (HG_Register djb2 "bY" 13 14
         (HG_Register djb2 "az" 11 12 initialised).2).2
      (HG_Register djb2 "bY" 13 14
         (HG_Register djb2 "az" 11 12 initialised).2).1
    = Some (Proc_info {| enc_routine := 13; dec_routine := 14 |}).
Proof.
  pose proof (register_same_hash_replaces djb2 "az" "bY" 11 12 13 14
                initialised ∅ eq_refl eq_refl) as H.
  simpl in H. destruct H as (_ & H2 & H3 & _); [by vm_compute|].
  split; [exact H2|exact H3].
Defined.

(** *** The send callback *)

(** C5, as stated, fails: run with a transport failure the send callback
    answers [NA_SUCCESS] and changes nothing; the send future 20 is not
    completed. *)
Lemma send_cb_failure_leaves_future_pending :
  send_request fresh_request = Some 20%nat
  ∧ hg_send_input_cb NA_PROTOCOL_ERROR fresh_request fresh_heap
    = Some (NA_SUCCESS, fresh_request, fresh_heap)
  ∧ 20%nat ∉ completed_requests fresh_heap.
Proof. split; [done|]. split; [reflexivity|]. set_solver. Qed.

(** C5 (amended): run with transport success the send callback frees the
    send buffer, nulls the pointer and completes the send future; run with
    a transport failure it leaves the request and the heap as they are: the
    send buffer stays in place and the send future is not completed. *)
Theorem send_cb_completes_on_success_only r h b o :
  send_buf r = Some b → b ∈ live_blocks h → send_request r = Some o →
  (∃ h', hg_send_input_cb NA_SUCCESS r h
         = Some (NA_SUCCESS, set_send_buf r None 0, h')
         ∧ send_buf (set_send_buf r None 0) = None
         ∧ (b ∉ live_blocks h')
         ∧ completed_requests h' = completed_requests h ∪ {[o]})
  ∧ (∀ ret, ret ≠ NA_SUCCESS →
       hg_send_input_cb ret r h = Some (NA_SUCCESS, r, h)).
Proof.
  intros Hb Hlive Ho. split.
  - unfold hg_send_input_cb. simpl. rewrite Hb. simpl.
    unfold free_block. rewrite decide_True by done. simpl.
    rewrite Ho. simpl. eexists. split; [reflexivity|]. simpl.
    split_and!; [done| |done].
    rewrite elem_of_difference, elem_of_singleton. tauto.
  - intros ret Hret. unfold hg_send_input_cb. by rewrite decide_True.
Qed.

Lemma send_cb_completes_on_success_only_witness :
  ∃ h', hg_send_input_cb NA_SUCCESS fresh_request fresh_heap
        = Some (NA_SUCCESS, set_send_buf fresh_request None 0, h')
        ∧ completed_requests h' = completed_requests fresh_heap ∪ {[20%nat]}.
Proof.
  destruct (send_cb_completes_on_success_only fresh_request fresh_heap
              1%nat 20%nat eq_refl ltac:(by vm_compute) eq_refl)
    as [(h' & H1 & _ & _ & H4) _].
  exists h'. split; [exact H1|exact H4].
Defined.

(** *** The overflow buffer *)

(** On the overflow path [hg_set_input] leaves the request holding the proc
    engine's overflow buffer and the bulk handle created for it. *)
Lemma hg_set_input_overflow_held E st r0 in_struct h0 r h b :
  hg_set_input E st r0 (Some in_struct) h0 = Some (HG_SUCCESS, r, h) →
  send_buf_size r0 < hg_proc_get_size E →
  hg_proc_get_extra_buf E = Some b →
  b ∉ live_blocks h0 →
  null_or_live (send_buf r0) h0 → null_or_live (recv_buf r0) h0 →
  overflow_held r h b (HG_Bulk_handle_create_handle E).
Proof.
  intros H Hsz Hb Hfresh Hs Hr. unfold hg_set_input in H.
  apply bind_Some in H as (m & Hm & H).
  destruct (m !! req_id r0) as [[pi|]|]; [|done|done].
  case_decide; [congruence|].
  case_decide; [unfold hg_proc_free in H; rewrite Hb in H; simpl in H;
                apply bind_Some in H as (? & _ & ?); congruence|].
  destruct (Z.gtb_spec (hg_proc_get_size E) (send_buf_size r0)); [|lia].
  case_decide.
  { unfold hg_proc_free in H; rewrite Hb in H; simpl in H.
    apply bind_Some in H as (? & _ & ?); congruence. }
  unfold hg_proc_free in H. rewrite Hb in H. simpl in H.
  injection H as _ <- <-. unfold overflow_held; simpl.
  split_and!; try done.
  - apply elem_of_union_r. by apply elem_of_singleton.
  - apply elem_of_union_r. by apply elem_of_singleton.
  - intros E'. rewrite E' in Hs. simpl in Hs. done.
  - intros E'. rewrite E' in Hr. simpl in Hr. done.
Qed.

Lemma send_cb_keeps_overflow ret r h b hd na r' h' :
  overflow_held r h b hd →
  hg_send_input_cb ret r h = Some (na, r', h') →
  overflow_held r' h' b hd.
Proof.
  intros (Hb & Hhd & Hbl & Hhl & Hsb & Hrb). unfold hg_send_input_cb.
  case_decide; [by intros [= <- <- <-]|].
  intros Hcb. apply bind_Some in Hcb as (h1 & H1 & Hcb).
  apply bind_Some in Hcb as (h2 & H2 & [= <- <- <-]).
  unfold hg_request_complete in H2. simpl in H2.
  apply bind_Some in H2 as (o & _ & [= <-]).
  unfold overflow_held; simpl.
  unfold free_if_set, free_block in H1.
  destruct (send_buf r) as [p|]; [|by injection H1 as <-].
  case_decide; [|done]. injection H1 as <-. simpl.
  split_and!; try done.
  apply elem_of_difference. split; [done|].
  rewrite elem_of_singleton. congruence.
Qed.

Lemma send_cb_defined ret r h :
  null_or_live (send_buf r) h → is_Some (send_request r) →
  is_Some (hg_send_input_cb ret r h).
Proof.
  intros Hs [o Ho]. unfold hg_send_input_cb. case_decide; [done|].
  unfold free_if_set, free_block. destruct (send_buf r) as [p|]; simpl in *.
  - rewrite decide_True by done. simpl. by rewrite Ho.
  - by rewrite Ho.
Qed.

Lemma recv_cb_failure_changes_nothing E st ret r h :
  ret ≠ NA_SUCCESS → hg_recv_output_cb E st ret r h = Some (NA_SUCCESS, r, h).
Proof. intros H. unfold hg_recv_output_cb. by rewrite decide_True. Qed.

Lemma free_block_keeps_out p h h' b :
  free_block p h = Some h' → b ∉ live_blocks h → b ∉ live_blocks h'.
Proof.
  unfold free_block. case_decide; [|done]. intros [= <-] Hb. simpl.
  rewrite elem_of_difference. tauto.
Qed.

Lemma free_block_bulk_handles p h h' :
  free_block p h = Some h' → live_bulk_handles h' = live_bulk_handles h.
Proof. unfold free_block. case_decide; [|done]. by intros [= <-]. Qed.

Lemma recv_cb_success_releases_overflow E st r h b hd na r' h' :
  overflow_held r h b hd →
  hg_recv_output_cb E st NA_SUCCESS r h = Some (na, r', h') →
  overflow_released r' h' b hd.
Proof.
  intros (Hb & Hhd & Hbl & Hhl & Hsb & Hrb). unfold hg_recv_output_cb.
  rewrite decide_False by (intros E'; by apply E').
  rewrite Hb. simpl. unfold free_block at 1. rewrite decide_True by done.
  simpl. rewrite Hhd. unfold HG_Bulk_handle_free. simpl.
  rewrite decide_True by done. simpl.
  set (h2 := {| live_blocks := live_blocks h ∖ {[b]};
                live_bulk_handles := live_bulk_handles h ∖ {[hd]};
                completed_requests := completed_requests h |}).
  assert (b ∉ live_blocks h2) as Hb2.
  { simpl. rewrite elem_of_difference, elem_of_singleton. tauto. }
  assert (hd ∉ live_bulk_handles h2) as Hhd2.
  { simpl. rewrite elem_of_difference, elem_of_singleton. tauto. }
  clearbody h2.
  case_decide; [by intros [= <- <- <-]|].
  case_decide; [by intros [= <- <- <-]|].
  intros Hcb. apply bind_Some in Hcb as (ret & Hret & Hcb).
  case_decide; [by injection Hcb as <- <- <-|].
  apply bind_Some in Hcb as (h3 & H3 & Hcb).
  apply bind_Some in Hcb as (h4 & H4 & [= <- <- <-]).
  unfold hg_request_complete in H4.
  apply bind_Some in H4 as (o & _ & [= <-]).
  unfold overflow_released; simpl. simpl in H3.
  unfold free_if_set in H3. destruct (recv_buf r) as [p|].
  - split_and!; try done.
    + by eapply free_block_keeps_out.
    + by rewrite (free_block_bulk_handles _ _ _ H3).
  - by injection H3 as <-.
Qed.

Lemma recv_cb_success_defined E st r h b hd :
  overflow_held r h b hd →
  null_or_live (recv_buf r) h → is_Some (recv_request r) → decodable st r →
  is_Some (hg_recv_output_cb E st NA_SUCCESS r h).
Proof.
  intros (Hb & Hhd & Hbl & Hhl & Hsb & Hrb) Hr [o Ho] Hdec.
  unfold hg_recv_output_cb.
  rewrite decide_False by (intros E'; by apply E').
  rewrite Hb. simpl. unfold free_block at 1. rewrite decide_True by done.
  simpl. rewrite Hhd. unfold HG_Bulk_handle_free. simpl.
  rewrite decide_True by done. simpl.
  case_decide; [done|]. case_decide; [done|].
  assert (is_Some (hg_get_output E st
            (set_extra_send_buf_handle (set_extra_send_buf r None 0) None)
            (out_struct r))) as [ret Hret].
  { unfold hg_get_output. destruct Hdec as [->|(m & Hm & Hne)]; [done|].
    destruct (out_struct r); [|done]. rewrite Hm. simpl.
    destruct (m !! req_id r) as [[pi|]|]; [|done|done].
    repeat case_decide; done. }
  rewrite Hret. simpl. case_decide; [done|].
  unfold free_if_set, free_block. destruct (recv_buf r) as [p|]; simpl in *.
  - rewrite decide_True.
    + simpl. by rewrite Ho.
    + apply elem_of_difference. split; [done|].
      rewrite elem_of_singleton. congruence.
  - by rewrite Ho.
Qed.

(** [HG_Wait] only ever changes the two future pointers of a request. *)
Lemma HG_Wait_request hg_request_wait st r timeout status :
  ∃ s' q',
    (HG_Wait hg_request_wait st (Some r) timeout status).1.2
    = Some (set_recv_request (set_send_request r s') q')
    ∧ (s' = send_request r ∨ s' = None)
    ∧ (q' = recv_request r ∨ q' = None).
Proof.
  assert (∀ x, x = set_recv_request (set_send_request x (send_request x))
                     (recv_request x)) as Hid by (by intros []).
  unfold HG_Wait. destruct (hg_na_class_g st); simpl.
  2:{ exists (send_request r), (recv_request r). rewrite <- Hid. tauto. }
  destruct (send_request r) as [so|] eqn:Hs;
    [destruct (wait_ok (hg_request_wait so timeout)); simpl;
     [destruct (wait_flag (hg_request_wait so timeout))|]|];
    simpl; rewrite ?Hs;
    (destruct (recv_request r) as [ro|] eqn:Hq; simpl;
     [match goal with
      | |- context [hg_request_wait ro ?t] =>
          destruct (wait_ok (hg_request_wait ro t)); simpl;
          [destruct (wait_flag (hg_request_wait ro t))|]
      | _ => idtac
      end|]);
    simpl;
    first [ exists None, None; split; [by destruct r; simpl in *; subst|tauto]
          | exists None, (recv_request r); split;
            [by destruct r; simpl in *; subst|tauto]
          | exists (send_request r), None; split;
            [by destruct r; simpl in *; subst|tauto]
          | exists (send_request r), (recv_request r); split;
            [by destruct r; simpl in *; subst|tauto] ].
Qed.

(** [HG_Forward] after its call of [hg_set_input] has succeeded: it either
    succeeds and hands the request back as the encoding left it, or fails,
    hands nothing back and runs its clean-up on that request. *)
Lemma HG_Forward_after_encoding E F G addr id in_struct out h r h1 ret req
    G' h' posts :
  is_Some (hg_na_class_g (engine G)) →
  hg_set_input E (engine G) (forward_request F id out) in_struct
    (forward_heap F h) = Some (HG_SUCCESS, r, h1) →
  HG_Forward E F G addr id in_struct out h
  = Some (ret, req, G', h', posts) →
  (ret = HG_SUCCESS ∧ req = Some (fw_request F, r) ∧ h' = h1)
  ∨ (ret = HG_FAIL ∧ req = None ∧ HG_Forward_cleanup F r h1 = Some h').
Proof.
  intros [n Hn] Hsi H. unfold HG_Forward in H. rewrite Hn in H.
  change (hg_set_input E (engine G) _ in_struct _)
    with (hg_set_input E (engine G) (forward_request F id out) in_struct
            (forward_heap F h)) in H.
  rewrite Hsi in H. simpl in H.
  destruct (hg_gen_request_tag (tags G)) as [tag t].
  repeat case_decide; try done;
    try (apply bind_Some in H as (h'' & Hc & [= <- <- <- <- <-]);
         right; by rewrite Hc).
  injection H as <- <- <- <- <-. by left.
Qed.

(** The clean-up of [HG_Forward] releases the overflow buffer and the
    handle of the request it is run on. *)
Lemma HG_Forward_cleanup_releases F r h h' b hd :
  HG_Forward_cleanup F r h = Some h' →
  extra_send_buf r = Some b → extra_send_buf_handle r = Some hd →
  (b ∉ live_blocks h') ∧ (hd ∉ live_bulk_handles h').
Proof.
  unfold HG_Forward_cleanup. intros H Hb Hhd. rewrite Hb, Hhd in H.
  apply bind_Some in H as (h1 & _ & H).
  apply bind_Some in H as (h2 & _ & H).
  apply bind_Some in H as (h3 & H3 & H).
  apply bind_Some in H as (h4 & H4 & H).
  simpl in H3. unfold free_block in H3. case_decide; [|done].
  injection H3 as <-.
  unfold HG_Bulk_handle_free in H4. simpl in H4. case_decide; [|done].
  injection H4 as <-.
  split.
  - eapply free_block_keeps_out; [exact H|]. simpl.
    rewrite elem_of_difference, elem_of_singleton. tauto.
  - rewrite (free_block_bulk_handles _ _ _ H). simpl.
    rewrite elem_of_difference, elem_of_singleton. tauto.
Qed.

(** [HG_Request_free] releases the request's own block and nothing the
    request points to. *)
Lemma request_free_keeps_overflow E st block r h ret h' b hd :
  block ≠ b → overflow_held r h b hd →
  HG_Request_free E st (Some (block, r)) h = Some (ret, h') →
  overflow_held r h' b hd.
Proof.
  intros Hne Hheld H.
  assert (∀ ret0, (h'' ← free_block block h; Some (ret0, h''))
                  = Some (ret, h') → overflow_held r h' b hd) as Hfree.
  { intros ret0 Hf. apply bind_Some in Hf as (h'' & Hf & [= _ <-]).
    unfold free_block in Hf. case_decide; [|done]. injection Hf as <-.
    destruct Hheld as (? & ? & ? & ? & ? & ?).
    unfold overflow_held. simpl. split_and!; try done.
    rewrite elem_of_difference, elem_of_singleton. split; [done|congruence]. }
  unfold HG_Request_free in H.
  destruct (hg_na_class_g st); [|by injection H as _ <-].
  destruct (_ || _); [by injection H as _ <-|].
  apply bind_Some in H as (m & _ & H).
  destruct (m !! req_id r) as [[proc_info|]|];
    [|done|by injection H as _ <-].
  destruct (_ && _); [|by eapply Hfree].
  repeat case_decide; try (by injection H as _ <-); by eapply Hfree.
Qed.

(** C6, as stated, fails: a forward whose input takes the overflow path
    (5000 bytes for a send buffer of 4096) and whose send the NA layer then
    refuses.  After [hg_set_input] the request holds overflow block 3 and
    handle 9; [HG_Forward] answers [HG_FAIL], and its clean-up has released
    both although no response has arrived and no receive callback has
    run. *)
Lemma forward_cleanup_releases_overflow :
  ∃ r h1 G' h' tag,
    hg_set_input (all_succeed 5000 (Some 3%nat)) (engine running)
      (forward_request forward_send_refused 5863232 (Some 51%nat))
      (Some 50%nat) (forward_heap forward_send_refused empty_heap)
    = Some (HG_SUCCESS, r, h1)
    ∧ overflow_held r h1 3 9
    ∧ HG_Forward (all_succeed 5000 (Some 3%nat)) forward_send_refused running
        7%nat 5863232 (Some 50%nat) (Some 51%nat) empty_heap
      = Some (HG_FAIL, None, G', h',
              [(Post_recv_expected (Some 2%nat) 4096 7%nat tag, NA_SUCCESS);
               (Post_send_unexpected (Some 1%nat) 4096 7%nat tag,
                NA_PROTOCOL_ERROR)])
    ∧ (3%nat ∉ live_blocks h') ∧ (9%nat ∉ live_bulk_handles h').
Proof.
  eexists _, _, _, _, _. split; [reflexivity|].
  split; [|split; [reflexivity|split; vm_compute; discriminate]].
  unfold overflow_held. split_and!; try (by vm_compute); discriminate.
Qed.

(** C6 (amended): a request for which [hg_set_input] succeeds on the
    overflow path then holds the overflow buffer and its bulk handle, both
    live.  The send callback, a receive callback run with a transport
    failure and [HG_Request_free] leave them held.  They are released at two
    places.  A receive callback run with transport success (which is defined
    for a request in flight) releases both: the request's [extra_send_buf]
    is null with size 0, its handle is [HG_BULK_NULL], and neither the block
    nor the handle is live.  And when the request is the one [HG_Forward] is
    building, a failure of [HG_Forward] after the encoding releases both in
    its clean-up and hands no request back, while a success hands the
    request back still holding both. *)
Theorem overflow_kept_and_released E0 st r0 in_struct h0 r h b :
  hg_set_input E0 st r0 (Some in_struct) h0 = Some (HG_SUCCESS, r, h) →
  send_buf_size r0 < hg_proc_get_size E0 →
  hg_proc_get_extra_buf E0 = Some b →
  b ∉ live_blocks h0 →
  null_or_live (send_buf r0) h0 → null_or_live (recv_buf r0) h0 →
  overflow_held r h b (HG_Bulk_handle_create_handle E0)
  ∧ (∀ F G addr id out hf ret req G' h' posts,
       st = engine G → is_Some (hg_na_class_g st) →
       r0 = forward_request F id out → h0 = forward_heap F hf →
       HG_Forward E0 F G addr id (Some in_struct) out hf
       = Some (ret, req, G', h', posts) →
       (ret = HG_SUCCESS ∧ req = Some (fw_request F, r) ∧ h' = h)
       ∨ (ret = HG_FAIL ∧ req = None
          ∧ (b ∉ live_blocks h')
          ∧ (HG_Bulk_handle_create_handle E0 ∉ live_bulk_handles h')))
  ∧ ∀ r1 h1, overflow_held r1 h1 b (HG_Bulk_handle_create_handle E0) →
      (∀ ret na r2 h2,
         hg_send_input_cb ret r1 h1 = Some (na, r2, h2) →
         overflow_held r2 h2 b (HG_Bulk_handle_create_handle E0))
      ∧ (∀ ret, null_or_live (send_buf r1) h1 → is_Some (send_request r1) →
           is_Some (hg_send_input_cb ret r1 h1))
      ∧ (∀ E st' ret, ret ≠ NA_SUCCESS →
           hg_recv_output_cb E st' ret r1 h1 = Some (NA_SUCCESS, r1, h1))
      ∧ (∀ E st' block ret h2, block ≠ b →
           HG_Request_free E st' (Some (block, r1)) h1 = Some (ret, h2) →
           overflow_held r1 h2 b (HG_Bulk_handle_create_handle E0))
      ∧ (∀ E st' na r2 h2,
           hg_recv_output_cb E st' NA_SUCCESS r1 h1 = Some (na, r2, h2) →
           overflow_released r2 h2 b (HG_Bulk_handle_create_handle E0))
      ∧ (∀ E st', null_or_live (recv_buf r1) h1 →
           is_Some (recv_request r1) → decodable st' r1 →
           is_Some (hg_recv_output_cb E st' NA_SUCCESS r1 h1)).
Proof.
  intros H Hsz Hb Hfresh Hs Hr.
  assert (overflow_held r h b (HG_Bulk_handle_create_handle E0)) as Hheld
    by (by eapply hg_set_input_overflow_held).
  split_and!; [done| |].
  - intros F G addr id out hf ret req G' h' posts -> Hinit -> -> Hfw.
    destruct (HG_Forward_after_encoding _ _ _ _ _ _ _ _ _ _ _ _ _ _ _
                Hinit H Hfw) as [?|(-> & -> & Hclean)]; [by left|].
    right. destruct Hheld as (Hbuf & Hhd & _).
    destruct (HG_Forward_cleanup_releases _ _ _ _ _ _ Hclean Hbuf Hhd).
    done.
  - intros r1 h1 Hheld1. split_and!.
    + intros ret na r2 h2. by apply send_cb_keeps_overflow.
    + intros ret. by apply send_cb_defined.
    + intros E st' ret. by apply recv_cb_failure_changes_nothing.
    + intros E st' block ret h2 Hne. by apply request_free_keeps_overflow.
    + intros E st' na r2 h2. by apply recv_cb_success_releases_overflow.
    + intros E st'. by eapply recv_cb_success_defined.
Qed.

Lemma overflow_kept_and_released_witness :
  ∃ r h,
    hg_set_input (all_succeed 5000 (Some 3%nat)) (engine running)
      (forward_request forward_ok 5863232 (Some 51%nat)) (Some 50%nat)
      (forward_heap forward_ok empty_heap)
    = Some (HG_SUCCESS, r, h)
    ∧ overflow_held r h 3 9.
Proof.
  eexists _, _. split; [reflexivity|].
  refine (proj1 (overflow_kept_and_released
                   (all_succeed 5000 (Some 3%nat)) (engine running)
                   (forward_request forward_ok 5863232 (Some 51%nat))
                   50%nat (forward_heap forward_ok empty_heap) _ _ 3%nat
                   eq_refl eq_refl eq_refl _ _ _)).
  - vm_compute. discriminate.
  - by vm_compute.
  - by vm_compute.
Defined.

(** *** Waiting *)

(** Every path of [HG_Wait] on a request ends in the [done] block: the
    status stored is "both future pointers are null". *)
Lemma HG_Wait_status hg_request_wait st r timeout status :
  ∃ r',
    (HG_Wait hg_request_wait st (Some r) timeout status).1.2 = Some r'
    ∧ (HG_Wait hg_request_wait st (Some r) timeout status).1.1.2
      = if status
        then Some (bool_decide (send_request r' = None)
                   && bool_decide (recv_request r' = None))
        else None.
Proof.
  unfold HG_Wait. destruct r; simpl.
  repeat case_match; simpl; eexists; (split; [reflexivity|]); simpl in *;
    subst; try reflexivity; try discriminate.
Qed.

Lemma HG_Wait_status_iff_both_consumed hg_request_wait st r timeout ret b r'
    waits :
  HG_Wait hg_request_wait st (Some r) timeout true
  = (ret, Some b, Some r', waits) →
  b = true ↔ send_request r' = None ∧ recv_request r' = None.
Proof.
  destruct (HG_Wait_status hg_request_wait st r timeout true)
    as (r0 & H1 & H2).
  intros H. rewrite H in H1, H2. simpl in *.
  injection H1 as <-. injection H2 as ->.
  rewrite andb_true_iff, !bool_decide_eq_true. done.
Qed.

Lemma whole_seconds_of_subsecond timeout :
  0 ≤ timeout < 1000 →
  Qfloor (inject_Z (timeout / 1000) * inject_Z 1000) = 0.
Proof. intros H. by rewrite Z.div_small. Qed.

Lemma remaining_of_subsecond timeout (elapsed : Q) :
  0 ≤ timeout < 1000 → (0 <= elapsed)%Q →
  Qfloor ((if Qle_bool 0 (inject_Z (timeout / 1000) - elapsed)
           then (inject_Z (timeout / 1000) - elapsed)%Q else 0%Q)
          * inject_Z 1000) = 0.
Proof.
  intros H He. rewrite Z.div_small by done.
  destruct (Qle_bool 0 (inject_Z 0 - elapsed)) eqn:Hle; [|done].
  apply Qle_bool_iff in Hle.
  assert ((inject_Z 0 - elapsed) * inject_Z 1000 == 0)%Q as Hz.
  { change (inject_Z 0) with 0%Q in *. change (inject_Z 1000) with 1000%Q.
    assert (elapsed == 0)%Q as -> by lra. reflexivity. }
  by rewrite (Qfloor_comp _ _ Hz).
Qed.

#[local] Arguments Qfloor : simpl never.

(** What [timeout / 1000] costs: under one second nothing is left for the
    wait on the receive future, however quickly the send future
    completed. *)
Lemma HG_Wait_subsecond_recv_budget hg_request_wait st r timeout status :
  0 ≤ timeout < 1000 →
  (∀ obj t, (0 <= wait_elapsed (hg_request_wait obj t))%Q) →
  ∀ obj t,
    (obj, t) ∈ (HG_Wait hg_request_wait st (Some r) timeout status).2 →
    (send_request r = Some obj ∧ t = timeout)
    ∨ (recv_request r = Some obj ∧ t = 0).
Proof.
  intros Ht He obj t. unfold HG_Wait.
  pose proof (whole_seconds_of_subsecond timeout Ht) as HA.
  destruct (hg_na_class_g st); simpl; [|by intros ?%elem_of_nil].
  destruct (send_request r) as [so|] eqn:Hs.
  - pose proof (remaining_of_subsecond timeout _ Ht
                  (He so timeout)) as HB.
    destruct (wait_ok (hg_request_wait so timeout)); simpl.
    + assert (recv_request
                (if wait_flag (hg_request_wait so timeout)
                 then set_send_request r None else r) = recv_request r) as ->
        by (by destruct (wait_flag _)).
      destruct (recv_request r) as [ro|] eqn:Hq; simpl.
      * rewrite HB. repeat case_match; simpl;
          rewrite elem_of_cons, list_elem_of_singleton;
          intros [[= -> ->]|[= -> ->]]; tauto.
      * rewrite list_elem_of_singleton. intros [= -> ->]. tauto.
    + rewrite list_elem_of_singleton. intros [= -> ->]. tauto.
  - destruct (recv_request r) as [ro|] eqn:Hq; simpl.
    + rewrite HA. repeat case_match; simpl;
        rewrite list_elem_of_singleton; intros [= -> ->]; tauto.
    + by intros ?%elem_of_nil.
Qed.

(** C7, at the failing inputs.  With a time-out of 1500 ms and a send future
    that completes after 250 ms, the wait on the receive future is given
    750 ms, not the 1250 ms that are left of the caller's time-out: the
    integer division kept one whole second.  With a time-out of 999 ms it is
    given 0 ms although the send future completed at once. *)
Theorem wait_truncates_timeout_to_seconds :
  HG_Wait send_done_after_250ms initialised (Some fresh_request) 1500 true
  = (HG_SUCCESS, Some false, Some (set_send_request fresh_request None),
     [(20%nat, 1500); (21%nat, 750)])
  ∧ (HG_Wait all_done_at_once initialised (Some fresh_request) 999 true).2
    = [(20%nat, 999); (21%nat, 0)].
Proof. split; by vm_compute. Qed.

(** *** Error strings *)

(** C10: [HG_Error_to_string] answers a string for every code; each of
    the nine enumerators the function lists yields its own name, while
    [HG_PERMISSION_ERROR], like any code outside the enumeration, yields the
    fixed fallback string. *)
Theorem error_to_string_misses_permission_error
    (enum_value : hg_return_t → Z) :
  (∀ a b, enum_value a = enum_value b → a = b) →
  (∀ errnum, HG_Error_to_string enum_value errnum ≠ "")
  ∧ (∀ e, e ≠ HG_PERMISSION_ERROR →
       HG_Error_to_string enum_value (enum_value e) = enumerator_name e)
  ∧ HG_Error_to_string enum_value (enum_value HG_PERMISSION_ERROR)
    = "UNDEFINED/UNRECOGNIZED NA ERROR"
  ∧ (∀ errnum, (∀ e, errnum ≠ enum_value e) →
       HG_Error_to_string enum_value errnum
       = "UNDEFINED/UNRECOGNIZED NA ERROR").
Proof.
  intros Hinj.
  assert (∀ a b, a ≠ b → (enum_value a =? enum_value b) = false) as Hne.
  { intros a b Hab. apply Z.eqb_neq. intros E. by apply Hab, Hinj. }
  split_and!.
  - intros errnum. unfold HG_Error_to_string, HG_ERROR_STRING_MACRO.
    repeat case_match; done.
  - intros e He. unfold HG_Error_to_string, HG_ERROR_STRING_MACRO.
    destruct e; try done; simpl;
      rewrite ?Z.eqb_refl, ?Hne by done; reflexivity.
  - unfold HG_Error_to_string, HG_ERROR_STRING_MACRO.
    by rewrite !Hne.
  - intros errnum Hout. unfold HG_Error_to_string, HG_ERROR_STRING_MACRO.
    assert (∀ e, (errnum =? enum_value e) = false) as Hf.
    { intros e. apply Z.eqb_neq, Hout. }
    by rewrite !Hf.
Qed.

Lemma error_to_string_misses_permission_error_witness :
  HG_Error_to_string sample_enum_value (sample_enum_value HG_PERMISSION_ERROR)
  = "UNDEFINED/UNRECOGNIZED NA ERROR"
  ∧ HG_Error_to_string sample_enum_value (sample_enum_value HG_CHECKSUM_ERROR)
    = "HG_CHECKSUM_ERROR".
Proof.
  assert (∀ a b, sample_enum_value a = sample_enum_value b → a = b) as Hinj.
  { intros a b. destruct a, b; simpl; intros H; (reflexivity || discriminate H). }
  destruct (error_to_string_misses_permission_error sample_enum_value Hinj)
    as (_ & Hname & Hperm & _).
  split; [exact Hperm|]. exact (Hname HG_CHECKSUM_ERROR ltac:(discriminate)).
Defined.

End Engine_facts.

(** ** Part V.  Further properties of the plugin *)

Section Plugin_more.

Local Open Scope nat_scope.

(** A copy that fits. *)
Lemma memcpy_fits (m : memory) p old src (len : Z) :
  m !! p = Some old →
  (0 ≤ len)%Z → (len ≤ Z.of_nat (length old))%Z →
  (len ≤ Z.of_nat (length src))%Z →
  ∃ m', memcpy m (Some p) src len = Some m'
        ∧ m' !! p = Some (take (Z.to_nat len) src ++ drop (Z.to_nat len) old)
        ∧ ∀ q, q ≠ p → m' !! q = m !! q.
Proof.
  intros Hp H0 Ho Hs. unfold memcpy.
  destruct (Z.eqb_spec len 0) as [->|Hne].
  - by exists m.
  - rewrite Hp.
    destruct (Z.leb_spec len (Z.of_nat (length old))); [|lia].
    destruct (Z.leb_spec len (Z.of_nat (length src))); [|lia].
    simpl. eexists. split; [done|]. split.
    + by rewrite lookup_insert_eq.
    + intros q Hq. by rewrite lookup_insert_ne.
Qed.

(** A copy of at least one byte through a null pointer, past the end of the
    destination or past the end of the source has no meaning. *)
Lemma memcpy_faults (m : memory) dst src (len : Z) :
  (0 < len)%Z →
  dst = None
  ∨ (∃ p old, dst = Some p ∧ m !! p = Some old
       ∧ (Z.of_nat (length old) < len)%Z)
  ∨ (Z.of_nat (length src) < len)%Z →
  memcpy m dst src len = None.
Proof.
  intros Hpos H. unfold memcpy.
  destruct (Z.eqb_spec len 0); [lia|].
  destruct H as [->|[(p & old & -> & Hp & Hlt)|Hlt]]; [done| |].
  - rewrite Hp. by destruct (Z.leb_spec len (Z.of_nat (length old))); [lia|].
  - destruct dst as [p|]; [|done]. destruct (m !! p); [|done].
    destruct (Z.leb_spec len (Z.of_nat (length src))); [lia|].
    by rewrite andb_false_r.
Qed.

(** What [na_cci_complete] leaves alone, and what it may add. *)
Lemma na_cci_complete_frame op s ret s' :
  na_cci_complete op s = (ret, s') →
  endpoint_events s' = endpoint_events s ∧ addrs s' = addrs s
  ∧ unexpected_msg_queue s' = unexpected_msg_queue s
  ∧ unexpected_op_queue s' = unexpected_op_queue s
  ∧ mem s' = mem s ∧ rma_calls s' = rma_calls s
  ∧ (completion_queue s' = completion_queue s
     ∨ ∃ c, completion_queue s' = completion_queue s ++ [c]
            ∧ cb_type (cq_callback_info c) = op_type op
            ∧ cb_arg (cq_callback_info c) = op_arg op
            ∧ cq_callback c = op_callback op).
Proof.
  unfold na_cci_complete, na_cb_completion_add. simpl.
  destruct (op_info op) as [a|z|ru|z|re|p|g] eqn:Hi; intros H;
    try (injection H as <- <-; simpl; split_and!; try done;
         right; eexists; split; [done|]; simpl; unfold op_type; simpl;
         by rewrite Hi).
  destruct (negb _); injection H as <- <-; simpl; split_and!; try done;
    [by left|].
  right; eexists; split; [done|]; simpl; unfold op_type; simpl.
  by rewrite Hi.
Qed.

Lemma hg_queue_pop_tail_None {A} (q q' : list A) :
  hg_queue_pop_tail q = (None, q') → q = [] ∧ q' = [].
Proof.
  unfold hg_queue_pop_tail. destruct (reverse q) as [|x r] eqn:E; [|done].
  intros [= <-]. apply (f_equal reverse) in E.
  rewrite reverse_involutive in E. done.
Qed.

Lemma hg_queue_pop_tail_Some {A} (q q' : list A) x :
  hg_queue_pop_tail q = (Some x, q') → q = q' ++ [x].
Proof.
  unfold hg_queue_pop_tail. destruct (reverse q) as [|y r] eqn:E; [done|].
  intros [= <- <-]. apply (f_equal reverse) in E.
  rewrite reverse_involutive in E. by rewrite E, reverse_cons.
Qed.

Lemma hg_queue_pop_tail_snoc {A} (q : list A) x :
  hg_queue_pop_tail (q ++ [x]) = (Some x, q).
Proof.
  unfold hg_queue_pop_tail. rewrite reverse_snoc.
  by rewrite reverse_involutive.
Qed.

(** How one step changes the completion queue and the two process-wide
    queues. *)
Lemma recv_unexpected_step context callback arg buf buf_size s ret o s' :
  na_cci_msg_recv_unexpected context callback arg buf buf_size s
  = Some (ret, o, s') →
  (unexpected_msg_queue s = [] ∧ unexpected_msg_queue s' = []
   ∧ (∃ op, unexpected_op_queue s' = op :: unexpected_op_queue s)
   ∧ completion_queue s' = completion_queue s)
  ∨ (∃ rx, unexpected_msg_queue s = unexpected_msg_queue s' ++ [rx]
       ∧ unexpected_op_queue s' = unexpected_op_queue s
       ∧ ∃ c, completion_queue s' = completion_queue s ++ [c]
              ∧ cb_type (cq_callback_info c) = NA_CB_RECV_UNEXPECTED).
Proof.
  unfold na_cci_msg_recv_unexpected, na_cci_msg_unexpected_pop.
  destruct (hg_queue_pop_tail (unexpected_msg_queue s)) as [[rx|] q] eqn:Hq.
  - apply hg_queue_pop_tail_Some in Hq. intros Hr.
    apply bind_Some in Hr as (m & _ & Hr).
    destruct (na_cci_complete _ _) as [r1 s2] eqn:Hc.
    pose proof Hc as Hc'. apply na_cci_complete_frame in Hc
      as (_ & _ & Hmq & Hoq & _ & _ & Hcq).
    unfold na_cci_complete, na_cb_completion_add in Hc'. simpl in Hc'.
    injection Hc' as <- <-. simpl in Hr. injection Hr as <- <- <-.
    right. exists rx. simpl. split; [done|]. split; [done|].
    eexists. split; [done|]. done.
  - apply hg_queue_pop_tail_None in Hq as [Hq ->]. simpl.
    intros [= <- <- <-]. left. simpl. split_and!; try done. by eexists.
Qed.

Lemma handle_recv_unexpected_step c tag data s s' :
  handle_recv_unexpected c tag data s = Some s' →
  (unexpected_op_queue s = [] ∧ unexpected_op_queue s' = []
   ∧ (∃ rx, unexpected_msg_queue s' = rx :: unexpected_msg_queue s)
   ∧ completion_queue s' = completion_queue s)
  ∨ (∃ op, unexpected_op_queue s = unexpected_op_queue s' ++ [op]
       ∧ unexpected_msg_queue s' = unexpected_msg_queue s
       ∧ ∃ c0, completion_queue s' = completion_queue s ++ [c0]
               ∧ cb_type (cq_callback_info c0) = NA_CB_RECV_UNEXPECTED).
Proof.
  unfold handle_recv_unexpected, na_cci_msg_unexpected_op_pop.
  destruct (hg_queue_pop_tail (unexpected_op_queue s)) as [[op|] q] eqn:Hq.
  - apply hg_queue_pop_tail_Some in Hq.
    destruct (op_info op) as [a|z|ru|z|re|p|g] eqn:Hi; try done.
    intros Hr. apply bind_Some in Hr as (m & _ & Hr).
    unfold na_cci_complete, na_cb_completion_add in Hr. simpl in Hr.
    injection Hr as <-. right. exists op. simpl.
    split; [done|]. split; [done|]. eexists. split; [done|]. done.
  - apply hg_queue_pop_tail_None in Hq as [Hq ->]. simpl.
    intros [= <-]. left. simpl. split_and!; try done. by eexists.
Qed.

Lemma rxs_find_Some tag q op re rest :
  rxs_find tag q = Some (op, re, rest) → op_info op = Info_recv_expected re.
Proof.
  revert rest. induction q as [|o q IH]; intros rest; simpl; [done|].
  destruct (op_info o) as [a|z|ru|z|re'|p|g] eqn:Hi;
    try (intros H; apply bind_Some in H as ([[o1 r1] q1] & H1 & [= -> -> <-]);
         by eapply IH).
  destruct (re_tag re' =? tag)%Z.
  - by intros [= <- <- <-].
  - intros H; apply bind_Some in H as ([[o1 r1] q1] & H1 & [= -> -> <-]).
    by eapply IH.
Qed.

Lemma handle_recv_expected_step c tag data s s' :
  handle_recv_expected c tag data s = Some s' →
  unexpected_msg_queue s' = unexpected_msg_queue s
  ∧ unexpected_op_queue s' = unexpected_op_queue s
  ∧ (completion_queue s' = completion_queue s
     ∨ ∃ c0, completion_queue s' = completion_queue s ++ [c0]
             ∧ cb_type (cq_callback_info c0) = NA_CB_RECV_EXPECTED).
Proof.
  unfold handle_recv_expected. intros H.
  apply bind_Some in H as (a & Ha & H).
  destruct (rxs_find tag (rxs a)) as [[[op re] rest]|] eqn:Hf.
  - apply bind_Some in H as (m & Hm & H).
    destruct (na_cci_complete _ _) as [ret s2] eqn:Hc.
    injection H as <-.
    apply na_cci_complete_frame in Hc as (_ & _ & Hmq & Hoq & _ & _ & Hcq).
    simpl in *. split; [done|]. split; [done|].
    destruct Hcq as [->|(c0 & -> & Ht & _)]; [by left|].
    right. by exists c0.
  - injection H as <-. simpl. split_and!; try done. by left.
Qed.

Lemma run_call_step c s s' :
  run_call c s = Some s' →
  ((unexpected_msg_queue s = [] ∨ unexpected_op_queue s = []) →
   (unexpected_msg_queue s' = [] ∨ unexpected_op_queue s' = []))
  ∧ (completion_queue s' = completion_queue s
     ∨ (∃ c0, completion_queue s' = completion_queue s ++ [c0]
              ∧ is_recv_completion c0)
     ∨ ∃ n, completion_queue s' = drop n (completion_queue s)).
Proof.
  destruct c; simpl.
  - intros [= <-]. simpl. by split; [|left].
  - unfold na_cci_addr_free. destruct addr as [a|]; simpl.
    + destruct (addrs s !! a); simpl; [|done].
      intros [= <-]. simpl. by split; [|left].
    + intros [= <-]. by split; [|left].
  - unfold na_cci_msg_send_unexpected.
    destruct (negb (rc =? 0)%Z); simpl; intros [= <-]; by split; [|left].
  - unfold na_cci_msg_send_expected.
    destruct (negb (rc =? 0)%Z); simpl; intros [= <-]; by split; [|left].
  - intros H. apply fmap_Some in H as ([[ret o] s1] & H & ->). simpl.
    apply recv_unexpected_step in H
      as [(H1 & H2 & _ & H4)|(rx & H1 & H2 & c0 & H3 & H4)].
    + split; [by left|by left].
    + split.
      * intros [Hm|Ho]; [|right; by rewrite H2].
        rewrite Hm in H1. by destruct (unexpected_msg_queue s1).
      * right; left. exists c0. split; [done|]. by left.
  - intros H. apply fmap_Some in H as ([[ret o] s1] & H & ->). simpl.
    unfold na_cci_msg_recv_expected in H.
    apply bind_Some in H as (a & Ha & H).
    destruct (early_find _ _) as [[rx rest]|].
    + apply bind_Some in H as (m & Hm & H).
      destruct (na_cci_complete _ _) as [r1 s2] eqn:Hc.
      injection H as <- <- <-.
      apply na_cci_complete_frame in Hc as (_ & _ & Hmq & Hoq & _ & _ & Hcq).
      simpl in *. rewrite Hmq, Hoq. split; [done|].
      destruct Hcq as [->|(c0 & -> & Ht & _)]; [by left|].
      right; left. exists c0. split; [done|]. by right.
    + injection H as <- <- <-. simpl. by split; [|left].
  - intros H. apply fmap_Some in H as ([[ret o] s1] & H & ->). simpl.
    unfold na_cci_put in H. apply bind_Some in H as (a & Ha & H).
    repeat case_match; injection H as <- <- <-; simpl; by split; [|left].
  - intros H. apply fmap_Some in H as ([[ret o] s1] & H & ->). simpl.
    unfold na_cci_get in H. apply bind_Some in H as (a & Ha & H).
    repeat case_match; injection H as <- <- <-; simpl; by split; [|left].
  - intros H. apply fmap_Some in H as ([ret s1] & H & ->). simpl.
    unfold na_cci_progress, cci_get_event in H.
    destruct (endpoint_events s) as [|ev q] eqn:Hev.
    { injection H as <- <-. by split; [|left]. }
    apply bind_Some in H as (s2 & Hd & [= <- <-]).
    destruct ev as [ctx|c [|] tag data| | | |]; simpl in Hd;
      unfold handle_recv, handle_send, handle_connect_request,
        handle_connect, handle_accept in Hd;
      try (injection Hd as <-; simpl; by split; [|left]).
    + apply handle_recv_expected_step in Hd as (Hm & Ho & Hc). simpl in *.
      rewrite Hm, Ho. split; [done|].
      destruct Hc as [->|(c0 & -> & Ht)]; [by left|].
      right; left. exists c0. split; [done|]. by right.
    + apply handle_recv_unexpected_step in Hd
        as [(H1 & H2 & _ & H4)|(op & H1 & H2 & c0 & H3 & H4)]; simpl in *.
      * split; [by right|by left].
      * split.
        -- intros [Hm|Ho]; [left; by rewrite H2|].
           rewrite Ho in H1. by destruct (unexpected_op_queue s2).
        -- right; left. exists c0. split; [done|]. by left.
  - intros [= <-]. by split; [|left].
  - intros [= <-]. simpl. split; [done|]. right; right. by eexists.
  - intros [= <-]. simpl. by split; [|left].
Qed.

(** X1: Of all the operations the plugin accepts, only receives ever reach a
    callback: whatever is posted and whatever events arrive, a completion
    queue that holds only completions of receives keeps holding only such.
    Sends, puts, gets and address lookups are never completed. *)
Theorem only_receives_are_completed cs s s' :
  Forall is_recv_completion (completion_queue s) →
  run_calls cs s = Some s' →
  Forall is_recv_completion (completion_queue s').
Proof.
  revert s. induction cs as [|c cs IH]; intros s Hs; simpl.
  - by intros [= <-].
  - intros H. apply bind_Some in H as (s1 & H1 & H).
    apply (IH s1); [|done].
    apply run_call_step in H1 as [_ [->|[(c0 & -> & Hc)|(n & ->)]]];
      [done| |by apply Forall_drop].
    apply Forall_app. split; [done|]. by apply Forall_singleton.
Qed.

(** X2: The two process-wide queues are never both occupied: if no unexpected
    message is staged or no unexpected receive is waiting, the same holds
    after any sequence of calls and events. *)
Theorem unexpected_queues_never_both_occupied cs s s' :
  unexpected_msg_queue s = [] ∨ unexpected_op_queue s = [] →
  run_calls cs s = Some s' →
  unexpected_msg_queue s' = [] ∨ unexpected_op_queue s' = [].
Proof.
  revert s. induction cs as [|c cs IH]; intros s Hs; simpl.
  - by intros [= <-].
  - intros H. apply bind_Some in H as (s1 & H1 & H).
    apply (IH s1); [|done]. by apply (run_call_step _ _ _ H1).
Qed.

(** *** Unexpected messages *)

(** A message that arrives while no unexpected receive is waiting is staged
    at the head of the message queue. *)
Lemma progress_stages_unexpected timeout c tag data evs s :
  endpoint_events s = CCI_EVENT_RECV c false tag data :: evs →
  unexpected_op_queue s = [] →
  na_cci_progress timeout s
  = Some (NA_SUCCESS,
          set_unexpected_msg_queue
            (set_unexpected_op_queue (set_endpoint_events s evs) [])
            ({| urx_buf := data; urx_buf_size := Z.of_nat (length data);
                urx_actual_size := Z.of_nat (length data);
                urx_na_cci_addr := Some c; urx_tag := tag |}
             :: unexpected_msg_queue s)).
Proof.
  intros Hev Hq. unfold na_cci_progress, cci_get_event. rewrite Hev. simpl.
  unfold handle_recv_unexpected, na_cci_msg_unexpected_op_pop. simpl.
  rewrite Hq. simpl. unfold recv_len, sizeof_msg_size.
  replace (4 + Z.of_nat (length data) - 4)%Z with (Z.of_nat (length data))
    by lia.
  done.
Qed.

(** A receive posted while a message is staged: the call's result, where
    the payload went and what it left alone. *)
Lemma recv_unexpected_takes_staged context callback arg b buf_size s q rx
    old :
  unexpected_msg_queue s = q ++ [rx] → unexpected_rx_wf rx →
  mem s !! b = Some old →
  (0 ≤ buf_size)%Z →
  (Z.min buf_size (urx_buf_size rx) ≤ Z.of_nat (length old))%Z →
  ∃ op s',
    na_cci_msg_recv_unexpected context callback arg (Some b) buf_size s
    = Some (NA_SUCCESS, Some op, s')
    ∧ unexpected_msg_queue s' = q
    ∧ unexpected_op_queue s' = unexpected_op_queue s
    ∧ mem s' !! b
      = Some (take (Z.to_nat (Z.min buf_size (urx_buf_size rx))) (urx_buf rx)
              ++ drop (Z.to_nat (Z.min buf_size (urx_buf_size rx))) old)
    ∧ (∃ c0, completion_queue s' = completion_queue s ++ [c0]
             ∧ cq_callback c0 = callback
             ∧ cq_callback_info c0
               = {| cb_arg := arg; cb_ret := NA_SUCCESS;
                    cb_type := NA_CB_RECV_UNEXPECTED;
                    cb_info :=
                      Cb_recv_unexpected
                        (Z.min buf_size (urx_buf_size rx))
                        (urx_na_cci_addr rx) (urx_tag rx) |})
    ∧ ∀ b', b' ≠ b → mem s' !! b' = mem s !! b'.
Proof.
  intros Hq Hwf Hb H0 Hfit.
  unfold na_cci_msg_recv_unexpected, na_cci_msg_unexpected_pop.
  rewrite Hq, hg_queue_pop_tail_snoc.
  assert ((if (buf_size <? urx_buf_size rx)%Z then buf_size
           else urx_buf_size rx) = Z.min buf_size (urx_buf_size rx)) as ->.
  { destruct (Z.ltb_spec buf_size (urx_buf_size rx)); lia. }
  unfold unexpected_rx_wf in Hwf.
  destruct (memcpy_fits (mem s) b old (urx_buf rx)
              (Z.min buf_size (urx_buf_size rx)) Hb)
    as (m' & Hm & Hmb & Hother); [lia|lia|lia|].
  simpl. rewrite Hm. simpl.
  unfold na_cci_complete, na_cb_completion_add. simpl.
  eexists _, _. split; [reflexivity|]. simpl.
  split_and!; try done. by eexists.
Qed.

(** X3: The oldest staged unexpected message goes to the next receive posted,
    cut to the posted size: the buffer receives that many leading bytes of
    the payload and the callback is told that size, the source and the tag
    of the message. *)
Theorem unexpected_staged_message_delivered context callback arg b
    buf_size s q rx old :
  unexpected_msg_queue s = q ++ [rx] → unexpected_rx_wf rx →
  mem s !! b = Some old →
  (0 ≤ buf_size)%Z →
  (Z.min buf_size (urx_buf_size rx) ≤ Z.of_nat (length old))%Z →
  ∃ op s',
    na_cci_msg_recv_unexpected context callback arg (Some b) buf_size s
    = Some (NA_SUCCESS, Some op, s')
    ∧ unexpected_msg_queue s' = q
    ∧ unexpected_op_queue s' = unexpected_op_queue s
    ∧ mem s' !! b
      = Some (take (Z.to_nat (Z.min buf_size (urx_buf_size rx))) (urx_buf rx)
              ++ drop (Z.to_nat (Z.min buf_size (urx_buf_size rx))) old)
    ∧ reported (drained s')
      = reported (drained s)
        ++ [(NA_CB_RECV_UNEXPECTED, arg,
             Cb_recv_unexpected (Z.min buf_size (urx_buf_size rx))
               (urx_na_cci_addr rx) (urx_tag rx))].
Proof.
  intros Hq Hwf Hb H0 Hfit.
  destruct (recv_unexpected_takes_staged context callback arg b buf_size s q
              rx old Hq Hwf Hb H0 Hfit)
    as (op & s' & Hr & Hmq & Hoq & Hm & (c0 & Hcq & _ & Hinfo) & _).
  exists op, s'. split_and!; try done.
  rewrite !drained_is_queue, Hcq. unfold reported.
  by rewrite fmap_app, list_fmap_singleton, Hinfo.
Qed.

(** X4: A message that arrives while an unexpected receive posted with at least
    four bytes is waiting goes to the oldest such receive whole, whatever
    its posted size: the buffer receives the entire payload and the callback
    is told the payload's length, the source and the tag. *)
Theorem unexpected_message_to_waiting_receive timeout c tag data evs s q op
    ru b old :
  endpoint_events s = CCI_EVENT_RECV c false tag data :: evs →
  unexpected_op_queue s = q ++ [op] →
  op_info op = Info_recv_unexpected ru → ru_buf ru = Some b →
  mem s !! b = Some old →
  (sizeof_msg_size ≤ ru_buf_size ru)%Z →
  length data ≤ length old →
  ∃ s', na_cci_progress timeout s = Some (NA_SUCCESS, s')
    ∧ endpoint_events s' = evs
    ∧ unexpected_op_queue s' = q
    ∧ unexpected_msg_queue s' = unexpected_msg_queue s
    ∧ mem s' !! b = Some (data ++ drop (length data) old)
    ∧ reported (drained s')
      = reported (drained s)
        ++ [(NA_CB_RECV_UNEXPECTED, op_arg op,
             Cb_recv_unexpected (Z.of_nat (length data)) (Some c) tag)].
Proof.
  intros Hev Hq Hi Hbuf Hb Hsz Hfit.
  unfold na_cci_progress, cci_get_event. rewrite Hev. simpl.
  unfold handle_recv_unexpected, na_cci_msg_unexpected_op_pop. simpl.
  rewrite Hq, hg_queue_pop_tail_snoc, Hi.
  replace (recv_len data - sizeof_msg_size)%Z with (Z.of_nat (length data))
    by (unfold recv_len; lia).
  assert (unexpected_copy_len (ru_buf_size ru) (recv_len data)
            (Z.of_nat (length data)) = Z.of_nat (length data)) as ->
    by apply (unexpected_copy_len_long _ _ Hsz).
  rewrite Hbuf.
  destruct (memcpy_fits (mem s) b old data (Z.of_nat (length data)) Hb)
    as (m' & Hm & Hmb & _); [lia|lia|lia|].
  simpl. rewrite Hm. simpl.
  unfold na_cci_complete, na_cb_completion_add. simpl.
  eexists. split; [reflexivity|]. simpl.
  rewrite Nat2Z.id, firstn_all in Hmb.
  split_and!; try done.
  rewrite !drained_is_queue. simpl. unfold reported. by rewrite fmap_app.
Qed.

(** X5: Unexpected messages are delivered in the order they arrived: two
    messages staged one after the other go to the next two receives in that
    order, each cut to the size posted. *)
Theorem unexpected_messages_delivered_in_arrival_order c1 t1 d1 c2 t2 d2
    evs s b old cb1 a1 n1 cb2 a2 n2 :
  endpoint_events s
  = CCI_EVENT_RECV c1 false t1 d1 :: CCI_EVENT_RECV c2 false t2 d2 :: evs →
  unexpected_op_queue s = [] → unexpected_msg_queue s = [] →
  mem s !! b = Some old →
  (0 ≤ n1 ≤ Z.of_nat (length old))%Z →
  (0 ≤ n2 ≤ Z.of_nat (length old))%Z →
  ∃ s', run_calls [Call_progress 0; Call_progress 0;
                   Call_msg_recv_unexpected 0 cb1 a1 (Some b) n1;
                   Call_msg_recv_unexpected 0 cb2 a2 (Some b) n2] s
        = Some s'
    ∧ unexpected_msg_queue s' = []
    ∧ reported (drained s')
      = reported (drained s)
        ++ [(NA_CB_RECV_UNEXPECTED, a1,
             Cb_recv_unexpected (Z.min n1 (Z.of_nat (length d1)))
               (Some c1) t1);
            (NA_CB_RECV_UNEXPECTED, a2,
             Cb_recv_unexpected (Z.min n2 (Z.of_nat (length d2)))
               (Some c2) t2)].
Proof.
  intros Hev Hoq Hmq Hb [H1 H1'] [H2 H2'].
  cbn -[na_cci_progress na_cci_msg_recv_unexpected].
  rewrite (progress_stages_unexpected _ _ _ _ _ _ Hev Hoq).
  cbn -[na_cci_progress na_cci_msg_recv_unexpected].
  erewrite progress_stages_unexpected; [|reflexivity|reflexivity].
  cbn -[na_cci_progress na_cci_msg_recv_unexpected].
  rewrite Hmq.
  set (rx1 := {| urx_buf := d1; urx_buf_size := Z.of_nat (length d1);
                 urx_actual_size := Z.of_nat (length d1);
                 urx_na_cci_addr := Some c1; urx_tag := t1 |}).
  set (rx2 := {| urx_buf := d2; urx_buf_size := Z.of_nat (length d2);
                 urx_actual_size := Z.of_nat (length d2);
                 urx_na_cci_addr := Some c2; urx_tag := t2 |}).
  match goal with
  | |- context [na_cci_msg_recv_unexpected 0 cb1 a1 (Some b) n1 ?s0] =>
      destruct (recv_unexpected_takes_staged 0 cb1 a1 b n1 s0
                  [rx2] rx1 old)
        as (op1 & s1 & Hr1 & Hq1 & _ & Hm1 & (k1 & Hc1 & _ & Hi1) & _);
        [reflexivity|reflexivity|exact Hb|lia|simpl; lia|]
  end.
  rewrite Hr1. cbn -[na_cci_progress na_cci_msg_recv_unexpected].
  destruct (recv_unexpected_takes_staged 0 cb2 a2 b n2 s1
              [] rx2 _ Hq1 eq_refl Hm1)
    as (op2 & s2 & Hr2 & Hq2 & _ & _ & (k2 & Hc2 & _ & Hi2) & _).
  { lia. }
  { rewrite length_app, length_take, length_drop. simpl. lia. }
  rewrite Hr2.
  assert (reported (drained s2)
          = reported (drained s)
            ++ [(NA_CB_RECV_UNEXPECTED, a1,
                 Cb_recv_unexpected (Z.min n1 (Z.of_nat (length d1)))
                   (Some c1) t1);
                (NA_CB_RECV_UNEXPECTED, a2,
                 Cb_recv_unexpected (Z.min n2 (Z.of_nat (length d2)))
                   (Some c2) t2)]) as Hrep.
  { rewrite !drained_is_queue, Hc2, Hc1. unfold reported.
    rewrite !fmap_app, !list_fmap_singleton, Hi1, Hi2. simpl.
    by rewrite <- app_assoc. }
  exists s2. split; [reflexivity|]. split; [exact Hq2|exact Hrep].
Qed.

(** *** Expected messages *)

Lemma early_find_first tag pre rx post :
  Forall (λ r, erx_tag r ≠ tag) pre → erx_tag rx = tag →
  early_find tag (pre ++ rx :: post) = Some (rx, pre ++ post).
Proof.
  intros Hpre Hrx. induction Hpre as [|r pre Hr _ IH]; simpl.
  - by rewrite Hrx, Z.eqb_refl.
  - destruct (Z.eqb_spec (erx_tag r) tag); [done|]. by rewrite IH.
Qed.

Lemma early_find_none tag q :
  Forall (λ r, erx_tag r ≠ tag) q → early_find tag q = None.
Proof.
  induction 1 as [|r q Hr _ IH]; simpl; [done|].
  destruct (Z.eqb_spec (erx_tag r) tag); [done|]. by rewrite IH.
Qed.

Lemma rxs_find_snoc tag q op re :
  rxs_find tag q = None → op_info op = Info_recv_expected re →
  re_tag re = tag →
  rxs_find tag (q ++ [op]) = Some (op, re, q).
Proof.
  intros Hq Hi Ht. induction q as [|o q IH]; simpl.
  - by rewrite Hi, Ht, Z.eqb_refl.
  - simpl in Hq.
    destruct (op_info o) as [a|z|ru|z|re'|p|g];
      try (destruct (rxs_find tag q) as [[[o1 r1] q1]|]; [done|];
           by rewrite IH).
    destruct (re_tag re' =? tag)%Z; [done|].
    destruct (rxs_find tag q) as [[[o1 r1] q1]|]; [done|]. by rewrite IH.
Qed.

(** X6: An expected message that arrived before its receive was posted is
    handed over when a receive for its tag is posted with exactly the
    message's length: the first staged message with the tag is taken, the
    buffer receives its payload, the callback is queued, the other staged
    messages keep their order, and the call stores no operation id. *)
Theorem expected_early_message_delivered context callback arg b source tag
    s a pre rx post old :
  addrs s !! source = Some a →
  early a = pre ++ rx :: post →
  Forall (λ r, erx_tag r ≠ (tag mod 2 ^ 32)%Z) pre →
  erx_tag rx = (tag mod 2 ^ 32)%Z →
  early_rx_wf rx → mem s !! b = Some old →
  length (erx_buf rx) ≤ length old →
  ∃ s', na_cci_msg_recv_expected context callback arg (Some b)
          (erx_buf_size rx) source tag s
        = Some (NA_SUCCESS, None, s')
    ∧ early_of s' source = pre ++ post
    ∧ rxs_of s' source = rxs a
    ∧ mem s' !! b = Some (erx_buf rx ++ drop (length (erx_buf rx)) old)
    ∧ reported (drained s')
      = reported (drained s) ++ [(NA_CB_RECV_EXPECTED, arg, Cb_none)].
Proof.
  intros Ha He Hpre Hrx Hwf Hb Hfit. unfold na_cci_msg_recv_expected.
  rewrite Ha. simpl. rewrite He, (early_find_first _ _ _ _ Hpre Hrx).
  unfold early_copy_len. rewrite Z.gtb_ltb, Z.ltb_irrefl.
  unfold early_rx_wf in Hwf.
  destruct (memcpy_fits (mem s) b old (erx_buf rx) (erx_buf_size rx) Hb)
    as (m' & Hm & Hmb & _); [lia|lia|lia|].
  rewrite Hm. simpl. unfold na_cci_complete, na_cb_completion_add. simpl.
  rewrite Z.eqb_refl. simpl. eexists. split; [reflexivity|].
  unfold early_of, rxs_of. simpl. rewrite lookup_insert_eq. simpl.
  rewrite Hwf, Nat2Z.id, firstn_all in Hmb.
  split_and!; try done.
  rewrite !drained_is_queue. simpl. unfold reported. by rewrite fmap_app.
Qed.

(** X7: The early-match path has a defined outcome only for a posted length
    that does not exceed the staged message, and it always consumes that
    message and stores no operation id.  The callback is queued exactly when
    the two lengths are equal; a shorter posted length is answered
    [NA_SIZE_ERROR] with nothing queued. *)
Theorem expected_early_match_needs_equal_length context callback arg buf
    buf_size source tag s a pre rx post ret o s' :
  addrs s !! source = Some a →
  early a = pre ++ rx :: post →
  Forall (λ r, erx_tag r ≠ (tag mod 2 ^ 32)%Z) pre →
  erx_tag rx = (tag mod 2 ^ 32)%Z →
  early_rx_wf rx →
  na_cci_msg_recv_expected context callback arg buf buf_size source tag s
  = Some (ret, o, s') →
  o = None ∧ early_of s' source = pre ++ post
  ∧ ((ret = NA_SUCCESS ∧ buf_size = erx_buf_size rx
      ∧ reported (drained s')
        = reported (drained s) ++ [(NA_CB_RECV_EXPECTED, arg, Cb_none)])
     ∨ (ret = NA_SIZE_ERROR ∧ (buf_size < erx_buf_size rx)%Z
        ∧ drained s' = drained s)).
Proof.
  intros Ha He Hpre Hrx Hwf. unfold na_cci_msg_recv_expected.
  rewrite Ha. simpl. rewrite He, (early_find_first _ _ _ _ Hpre Hrx).
  unfold early_rx_wf in Hwf. unfold early_copy_len.
  destruct (Z.gtb_spec buf_size (erx_buf_size rx)) as [Hgt|Hle].
  - rewrite memcpy_faults; [done|lia|right; right; lia].
  - intros H. apply bind_Some in H as (m & Hm & H).
    unfold na_cci_complete, na_cb_completion_add in H. simpl in H.
    destruct (Z.eqb_spec (erx_buf_size rx) buf_size) as [Heq|Hne];
      simpl in H; injection H as <- <- <-;
      (split; [done|]);
      (split; [unfold early_of; simpl; by rewrite lookup_insert_eq|]).
    + left. split_and!; try done.
      rewrite !drained_is_queue. simpl. unfold reported. by rewrite fmap_app.
    + right. split_and!; [done|lia|by rewrite !drained_is_queue].
Qed.

(** X8: An expected message that arrives after its receive was posted is copied
    through a null pointer.  So when a receive is posted for a tag with
    nothing staged and nothing posted for it, a later message with that tag
    and a payload has no defined outcome if the posted size is positive; an
    empty message discards the receive without queuing its callback; only a
    receive of size zero is completed. *)
Theorem expected_message_to_posted_receive context callback arg buf buf_size
    source tag s a :
  addrs s !! source = Some a →
  Forall (λ r, erx_tag r ≠ (tag mod 2 ^ 32)%Z) (early a) →
  rxs_find (tag mod 2 ^ 32) (rxs a) = None →
  ∃ op s1,
    na_cci_msg_recv_expected context callback arg buf buf_size source tag s
    = Some (NA_SUCCESS, Some op, s1)
    ∧ rxs_of s1 source = rxs a ++ [op]
    ∧ drained s1 = drained s
    ∧ (∀ data, data ≠ [] → (0 < buf_size)%Z →
         handle_recv_expected source (tag mod 2 ^ 32) data s1 = None)
    ∧ ((0 < buf_size)%Z →
       ∃ s2, handle_recv_expected source (tag mod 2 ^ 32) [] s1 = Some s2
             ∧ rxs_of s2 source = rxs a ∧ early_of s2 source = early a
             ∧ drained s2 = drained s)
    ∧ (buf_size = 0%Z → ∀ data,
       ∃ s2, handle_recv_expected source (tag mod 2 ^ 32) data s1 = Some s2
             ∧ rxs_of s2 source = rxs a ∧ mem s2 = mem s
             ∧ reported (drained s2)
               = reported (drained s)
                 ++ [(NA_CB_RECV_EXPECTED, arg, Cb_none)]).
Proof.
  intros Ha He Hr. unfold na_cci_msg_recv_expected.
  rewrite Ha. simpl. rewrite (early_find_none _ _ He).
  eexists _, _. split; [reflexivity|].
  split; [unfold rxs_of; simpl; by rewrite lookup_insert_eq|].
  split; [by rewrite !drained_is_queue|].
  set (re := {| re_entry := None; re_op_id := 0; re_buf := buf;
                re_buf_size := buf_size; re_actual_size := 0;
                re_tag := (tag mod 2 ^ 32)%Z |}).
  set (op := {| op_context := context; op_callback := callback;
                op_arg := arg; op_completed := false;
                op_info := Info_recv_expected re |}).
  assert (rxs_find (tag mod 2 ^ 32) (rxs a ++ [op]) = Some (op, re, rxs a))
    as Hfind by (by apply rxs_find_snoc).
  split_and!.
  - intros data Hdata Hpos. unfold handle_recv_expected. simpl.
    rewrite lookup_insert_eq. simpl. rewrite Hfind.
    rewrite memcpy_faults; [done| |by left].
    change (re_buf_size re) with buf_size.
    unfold recv_len, sizeof_msg_size. destruct data as [|x data]; [done|].
    rewrite length_cons.
    destruct (Z.ltb_spec buf_size (4 + Z.of_nat (S (length data)) - 4)); lia.
  - intros Hpos. unfold handle_recv_expected. simpl.
    rewrite lookup_insert_eq. simpl. rewrite Hfind.
    assert ((if (re_buf_size re <? recv_len [] - sizeof_msg_size)%Z
             then re_buf_size re else (recv_len [] - sizeof_msg_size)%Z)
            = 0%Z) as ->.
    { change (re_buf_size re) with buf_size.
      unfold recv_len, sizeof_msg_size. simpl.
      destruct (Z.ltb_spec buf_size (4 + Z.of_nat 0 - 4)); lia. }
    unfold memcpy. cbn -[Z.eqb].
    unfold na_cci_complete, na_cb_completion_add. cbn -[Z.eqb].
    destruct (Z.eqb_spec 0 buf_size); [lia|]. simpl.
    eexists. split; [reflexivity|]. unfold rxs_of, early_of. simpl.
    rewrite lookup_insert_eq. simpl. split_and!; done.
  - intros -> data. unfold handle_recv_expected. simpl.
    rewrite lookup_insert_eq. simpl. rewrite Hfind.
    assert ((if (re_buf_size re <? recv_len data - sizeof_msg_size)%Z
             then re_buf_size re else (recv_len data - sizeof_msg_size)%Z)
            = 0%Z) as ->.
    { unfold recv_len, sizeof_msg_size. simpl.
      destruct (Z.ltb_spec 0 (4 + Z.of_nat (length data) - 4)); lia. }
    simpl. unfold na_cci_complete, na_cb_completion_add. simpl.
    eexists. split; [reflexivity|]. unfold rxs_of. simpl.
    rewrite lookup_insert_eq. simpl. split_and!; try done.
    rewrite !drained_is_queue. simpl. unfold reported. by rewrite fmap_app.
Qed.

(** *** Address strings and registration flags *)

Lemma length_list_byte_of_string (u : string) :
  length (String.list_byte_of_string u) = String.length u.
Proof.
  unfold String.list_byte_of_string. rewrite length_map.
  induction u as [|c u IH]; simpl; [done|]. by rewrite IH.
Qed.

(** X9: [na_cci_addr_to_string] refuses a URI longer than [buf_size] and leaves
    the buffer alone.  It accepts a URI of exactly [buf_size] characters,
    and then writes [buf_size + 1] bytes: into a buffer of [buf_size] bytes
    the terminating zero goes past the end.  A URI shorter than a buffer of
    [buf_size] bytes is stored with its terminator. *)
Theorem addr_to_string_bounds u b buf_size (m : memory) old :
  m !! b = Some old → Z.of_nat (length old) = buf_size →
  ((Z.of_nat (String.length u) > buf_size)%Z →
   na_cci_addr_to_string (Some u) (Some b) buf_size m
   = Some (NA_SIZE_ERROR, m))
  ∧ (Z.of_nat (String.length u) = buf_size →
     na_cci_addr_to_string (Some u) (Some b) buf_size m = None)
  ∧ ((Z.of_nat (String.length u) < buf_size)%Z →
     ∃ m', na_cci_addr_to_string (Some u) (Some b) buf_size m
           = Some (NA_SUCCESS, m')
       ∧ m' !! b
         = Some (String.list_byte_of_string u ++ [Byte.x00]
                 ++ drop (S (String.length u)) old)).
Proof.
  intros Hb Hlen. unfold na_cci_addr_to_string, strcpy. simpl.
  split_and!.
  - intros Hgt.
    by destruct (Z.gtb_spec (Z.of_nat (String.length u)) buf_size); [|lia].
  - intros Heq.
    destruct (Z.gtb_spec (Z.of_nat (String.length u)) buf_size); [lia|].
    rewrite memcpy_faults; [done|lia|].
    right; left. exists b, old. split_and!; [done|done|lia].
  - intros Hlt.
    destruct (Z.gtb_spec (Z.of_nat (String.length u)) buf_size); [lia|].
    destruct (memcpy_fits m b old
                (String.list_byte_of_string u ++ [Byte.x00])
                (Z.of_nat (String.length u) + 1) Hb)
      as (m' & Hm & Hmb & _); [lia|lia| |].
    { rewrite length_app, length_list_byte_of_string. simpl. lia. }
    rewrite Hm. simpl. exists m'. split; [done|]. rewrite Hmb.
    replace (Z.to_nat (Z.of_nat (String.length u) + 1))
      with (S (String.length u)) by lia.
    rewrite take_ge, <- app_assoc; [done|].
    rewrite length_app, length_list_byte_of_string. simpl. lia.
Qed.

(** X10: The two tests of the access attribute disagree when
    [NA_MEM_READWRITE] is zero: a handle that [na_cci_put] accepts as
    writable is registered with the write flag only if that macro has a bit
    set. *)
Theorem writable_handle_registered_for_write CCI_FLAG_READ CCI_FLAG_WRITE
    NA_MEM_READWRITE context callback arg local_mem_handle local_offset
    mem_handle remote_offset length_ remote_addr rc rc' s ret op s' :
  na_cci_put NA_MEM_READWRITE context callback arg local_mem_handle
    local_offset mem_handle remote_offset length_ remote_addr rc s
  = Some (ret, op, s') →
  ret ≠ NA_PERMISSION_ERROR →
  (na_cci_mem_register CCI_FLAG_READ CCI_FLAG_WRITE NA_MEM_READWRITE
     mem_handle rc').2
  = if (NA_MEM_READWRITE =? 0)%Z then CCI_FLAG_READ
    else Z.lor CCI_FLAG_READ CCI_FLAG_WRITE.
Proof.
  unfold na_cci_put. intros H Hret.
  apply bind_Some in H as (a & _ & H).
  destruct (Z.eqb_spec (mh_attr mem_handle) NA_MEM_READWRITE) as [Heq|Hne];
    simpl in H; [|by injection H as <- _ _].
  unfold na_cci_mem_register. cbn [snd]. rewrite Heq, Z.land_diag.
  by destruct (NA_MEM_READWRITE =? 0)%Z.
Qed.

(** *** The properties above on the sample states *)

Lemma only_receives_are_completed_witness :
  ∃ s', run_calls send_then_progress waiting_unexpected = Some s'
        ∧ Forall is_recv_completion (completion_queue s').
Proof.
  eexists. split; [reflexivity|].
  exact (only_receives_are_completed send_then_progress waiting_unexpected _
           (Forall_nil_2 _) eq_refl).
Defined.

Lemma unexpected_queues_never_both_occupied_witness :
  ∃ s', run_calls [Call_progress 0;
                   Call_msg_recv_unexpected 0 7 0 (Some 10) 4;
                   Call_msg_recv_unexpected 0 7 1 (Some 10) 4]
          (quiet 4 [CCI_EVENT_RECV 1 false 3 payload2]) = Some s'
        ∧ (unexpected_msg_queue s' = [] ∨ unexpected_op_queue s' = []).
Proof.
  eexists. split; [reflexivity|].
  exact (unexpected_queues_never_both_occupied
           [Call_progress 0;
            Call_msg_recv_unexpected 0 7 0 (Some 10) 4;
            Call_msg_recv_unexpected 0 7 1 (Some 10) 4]
           (quiet 4 [CCI_EVENT_RECV 1 false 3 payload2]) _
           (or_introl eq_refl) eq_refl).
Defined.

Lemma unexpected_staged_message_delivered_witness :
  ∃ op s',
    na_cci_msg_recv_unexpected 0 7 0 (Some 10) 4 staged_unexpected
    = Some (NA_SUCCESS, Some op, s')
    ∧ unexpected_msg_queue s' = []
    ∧ mem s' !! 10 = Some (payload2 ++ zeros 2)
    ∧ reported (drained s')
      = [(NA_CB_RECV_UNEXPECTED, 0, Cb_recv_unexpected 2 (Some 1) 3)].
Proof.
  destruct (unexpected_staged_message_delivered 0 7 0 10 4 staged_unexpected
              [] _ (zeros 4) eq_refl eq_refl eq_refl
              ltac:(vm_compute; discriminate)
              ltac:(vm_compute; discriminate))
    as (op & s' & H1 & H2 & _ & H3 & H4).
  exists op, s'. split_and!; [exact H1|exact H2|exact H3|exact H4].
Defined.

Lemma unexpected_message_to_waiting_receive_witness :
  ∃ s', na_cci_progress 0 waiting_unexpected = Some (NA_SUCCESS, s')
        ∧ unexpected_op_queue s' = []
        ∧ mem s' !! 10 = Some (payload2 ++ zeros 2)
        ∧ reported (drained s')
          = [(NA_CB_RECV_UNEXPECTED, 0, Cb_recv_unexpected 2 (Some 1) 3)].
Proof.
  destruct (unexpected_message_to_waiting_receive 0 1 3 payload2 []
              waiting_unexpected [] _ _ 10 (zeros 4)
              eq_refl eq_refl eq_refl eq_refl eq_refl
              ltac:(vm_compute; discriminate) ltac:(simpl; lia))
    as (s' & H1 & _ & H2 & _ & H3 & H4).
  exists s'. split_and!; [exact H1|exact H2|exact H3|exact H4].
Defined.

Lemma unexpected_messages_delivered_in_arrival_order_witness :
  ∃ s', run_calls [Call_progress 0; Call_progress 0;
                   Call_msg_recv_unexpected 0 7 0 (Some 10) 8;
                   Call_msg_recv_unexpected 0 7 1 (Some 10) 8]
          (quiet 8 [CCI_EVENT_RECV 1 false 3 payload2;
                    CCI_EVENT_RECV 1 false 4 payload4])
        = Some s'
        ∧ reported (drained s')
          = [(NA_CB_RECV_UNEXPECTED, 0, Cb_recv_unexpected 2 (Some 1) 3);
             (NA_CB_RECV_UNEXPECTED, 1, Cb_recv_unexpected 4 (Some 1) 4)].
Proof.
  destruct (unexpected_messages_delivered_in_arrival_order 1 3 payload2 1 4
              payload4 []
              (quiet 8 [CCI_EVENT_RECV 1 false 3 payload2;
                        CCI_EVENT_RECV 1 false 4 payload4])
              10 (zeros 8) 7 0 8 7 1 8 eq_refl eq_refl eq_refl eq_refl
              ltac:(simpl; lia) ltac:(simpl; lia))
    as (s' & H1 & _ & H2).
  exists s'. split; [exact H1|exact H2].
Defined.

Lemma expected_early_message_delivered_witness :
  ∃ s', na_cci_msg_recv_expected 0 7 0 (Some 10) 2 1 7 early_staged
        = Some (NA_SUCCESS, None, s')
        ∧ early_of s' 1 = []
        ∧ mem s' !! 10 = Some (payload2 ++ zeros 2)
        ∧ reported (drained s') = [(NA_CB_RECV_EXPECTED, 0, Cb_none)].
Proof.
  destruct (expected_early_message_delivered 0 7 0 10 1 7 early_staged _ []
              {| erx_buf := payload2; erx_buf_size := 2;
                 erx_actual_size := 2; erx_tag := 7 |} [] (zeros 4)
              eq_refl eq_refl (Forall_nil_2 _) eq_refl eq_refl eq_refl
              ltac:(simpl; lia))
    as (s' & H1 & H2 & _ & H3 & H4).
  exists s'. split_and!; [exact H1|exact H2|exact H3|exact H4].
Defined.

Lemma expected_early_match_needs_equal_length_witness :
  ∃ s', na_cci_msg_recv_expected 0 7 0 (Some 10) 1 1 7 early_staged
        = Some (NA_SIZE_ERROR, None, s')
        ∧ early_of s' 1 = [] ∧ drained s' = [].
Proof.
  eexists. split; [reflexivity|].
  destruct (expected_early_match_needs_equal_length 0 7 0 (Some 10) 1 1 7
              early_staged _ []
              {| erx_buf := payload2; erx_buf_size := 2;
                 erx_actual_size := 2; erx_tag := 7 |} [] _ _ _
              eq_refl eq_refl (Forall_nil_2 _) eq_refl eq_refl eq_refl)
    as (_ & H1 & _).
  split; [exact H1|reflexivity].
Defined.

Lemma expected_message_to_posted_receive_witness :
  ∃ op s1,
    na_cci_msg_recv_expected 0 7 0 (Some 10) 4 1 7 (quiet 4 [])
    = Some (NA_SUCCESS, Some op, s1)
    ∧ handle_recv_expected 1 7 payload2 s1 = None.
Proof.
  destruct (expected_message_to_posted_receive 0 7 0 (Some 10) 4 1 7
              (quiet 4 []) peer eq_refl (Forall_nil_2 _) eq_refl)
    as (op & s1 & H1 & _ & _ & H2 & _).
  exists op, s1. split; [exact H1|].
  exact (H2 payload2 ltac:(discriminate) ltac:(lia)).
Defined.

Lemma addr_to_string_bounds_witness :
  na_cci_addr_to_string (Some "ab") (Some 10) 2 {[ 10 := zeros 2 ]} = None.
Proof.
  exact (proj1 (proj2 (addr_to_string_bounds "ab" 10 2 {[ 10 := zeros 2 ]}
                         (zeros 2) eq_refl eq_refl)) eq_refl).
Defined.

Lemma writable_handle_registered_for_write_witness :
  (na_cci_mem_register 1 2 0 (handle64 0) 0).2 = 1%Z.
Proof.
  exact (writable_handle_registered_for_write 1 2 0 0 7 0 (handle64 0) 0
           (handle64 0) 0 64 1 0 0 (quiet 4 []) _ _ _ eq_refl
           ltac:(discriminate)).
Defined.

End Plugin_more.

(** ** Part VI.  Further properties of the engine *)

Section Engine_more.

(** *** Registration and tags *)

(** X11: A registered name is reported registered under its hash with the
    routines given, and registering it changes nothing for a name with
    another hash. *)
Theorem register_then_registered (hg_hash_string : string → Z) name enc dec
    st m :
  hg_func_map_g st = Some m →
  hg_hash_string name mod 2 ^ 32 ≠ 0 →
  (HG_Register hg_hash_string name enc dec st).1
  = hg_hash_string name mod 2 ^ 32
  ∧ HG_Registered hg_hash_string name
      (HG_Register hg_hash_string name enc dec st).2
    = Some (HG_SUCCESS, Some (true, hg_hash_string name mod 2 ^ 32))
  ∧ func_map_lookup (HG_Register hg_hash_string name enc dec st).2
      (hg_hash_string name mod 2 ^ 32)
    = Some (Proc_info {| enc_routine := enc; dec_routine := dec |})
  ∧ ∀ other,
      hg_hash_string other mod 2 ^ 32 ≠ hg_hash_string name mod 2 ^ 32 →
      HG_Registered hg_hash_string other
        (HG_Register hg_hash_string name enc dec st).2
      = HG_Registered hg_hash_string other st
      ∧ func_map_lookup (HG_Register hg_hash_string name enc dec st).2
          (hg_hash_string other mod 2 ^ 32)
        = func_map_lookup st (hg_hash_string other mod 2 ^ 32).
Proof.
  intros Hm Hne. rewrite (HG_Register_nonzero _ _ _ _ _ _ Hm Hne). simpl.
  unfold HG_Registered, func_map_lookup. simpl. rewrite Hm. simpl.
  rewrite lookup_insert_eq. split_and!; try done.
  intros other Ho. by rewrite lookup_insert_ne.
Qed.

Lemma register_then_registered_witness :
  HG_Registered djb2 "az" (HG_Register djb2 "az" 11 12 initialised).2
  = Some (HG_SUCCESS, Some (true, 5863232)).
Proof.
  exact (proj1 (proj2 (register_then_registered djb2 "az" 11 12 initialised
                         ∅ eq_refl ltac:(by vm_compute)))).
Defined.

(** X12: A name whose hash is zero cannot be registered: on a table that
    holds no released entry, [HG_Register] answers 0, its failure value,
    after having inserted the entry and released its key and value, so the
    table keeps an entry that points to released memory.  From then on
    asking [HG_Registered] about that name, and encoding input for id 0,
    read released memory: neither has a defined outcome. *)
Theorem register_hash_zero (hg_hash_string : string → Z) name enc dec st m :
  hg_func_map_g st = Some m →
  (∀ k, m !! k ≠ Some Dangling) →
  hg_hash_string name mod 2 ^ 32 = 0 →
  (HG_Register hg_hash_string name enc dec st).1 = 0
  ∧ func_map_lookup (HG_Register hg_hash_string name enc dec st).2 0
    = Some Dangling
  ∧ HG_Registered hg_hash_string name
      (HG_Register hg_hash_string name enc dec st).2
    = None
  ∧ (∀ E r in_struct h,
       req_id r = 0 →
       hg_set_input E (HG_Register hg_hash_string name enc dec st).2 r
         (Some in_struct) h = None)
  ∧ ∀ other,
      hg_hash_string other mod 2 ^ 32 ≠ 0 →
      HG_Registered hg_hash_string other
        (HG_Register hg_hash_string name enc dec st).2
      = HG_Registered hg_hash_string other st.
Proof.
  intros Hm _ Hz. unfold HG_Register, hg_hash_table_insert. rewrite Hm, Hz.
  simpl. unfold func_map_lookup, HG_Registered. simpl. rewrite Hz, Hm.
  rewrite lookup_insert_eq. split_and!; try done.
  - intros E r in_struct h Hr. unfold hg_set_input. simpl.
    by rewrite Hr, lookup_insert_eq.
  - intros other Ho. by rewrite !lookup_insert_ne.
Qed.

Lemma register_hash_zero_witness :
  (HG_Register (λ _, 0) "noop" 11 12 initialised).1 = 0
  ∧ HG_Registered (λ _, 0) "noop"
      (HG_Register (λ _, 0) "noop" 11 12 initialised).2
    = None.
Proof.
  destruct (register_hash_zero (λ _, 0) "noop" 11 12 initialised ∅
              eq_refl ltac:(intros k; by rewrite lookup_empty) eq_refl)
    as (H1 & _ & H2 & _).
  split; [exact H1|exact H2].
Defined.

(** With the counter within [0, max_tag], a draw answers the successor of
    the counter modulo [max_tag + 1] and leaves the counter at the tag
    drawn. *)
Lemma hg_gen_request_tag_next t :
  0 ≤ hg_request_tag_g t ≤ hg_request_max_tag_g t →
  hg_request_max_tag_g t < 2 ^ 31 →
  hg_gen_request_tag t
  = ((hg_request_tag_g t + 1) mod (hg_request_max_tag_g t + 1),
     {| hg_request_tag_g :=
          (hg_request_tag_g t + 1) mod (hg_request_max_tag_g t + 1);
        hg_request_max_tag_g := hg_request_max_tag_g t |}).
Proof.
  intros Hg Hmax. unfold hg_gen_request_tag, hg_atomic_cas32.
  destruct (Z.eqb_spec (hg_request_tag_g t) (hg_request_max_tag_g t))
    as [Heq|Hne].
  - rewrite Heq, Z_mod_same_full. done.
  - unfold hg_atomic_incr32.
    assert ((hg_request_tag_g t + 1 + 2 ^ 31) mod 2 ^ 32 - 2 ^ 31
            = hg_request_tag_g t + 1) as ->.
    { rewrite Z.mod_small; lia. }
    rewrite (Z.mod_small _ (2 ^ 32)) by lia.
    rewrite (Z.mod_small _ (hg_request_max_tag_g t + 1)) by lia. done.
Qed.

(** X13: The tags drawn run through the successors of the counter modulo
    [max_tag + 1]: the k-th draw answers the counter plus k modulo
    [max_tag + 1], so every tag is within [0, max_tag] and tag [max_tag] is
    followed by 0. *)
Theorem draw_tags_cycle n t :
  0 ≤ hg_request_tag_g t ≤ hg_request_max_tag_g t →
  hg_request_max_tag_g t < 2 ^ 31 →
  (draw_tags n t).1
  = (λ k, (hg_request_tag_g t + Z.of_nat k) mod (hg_request_max_tag_g t + 1))
    <$> seq 1 n.
Proof.
  revert t. induction n as [|n IH]; intros t Hg Hmax; [done|].
  simpl draw_tags. rewrite (hg_gen_request_tag_next t Hg Hmax).
  set (t1 := {| hg_request_tag_g :=
                  (hg_request_tag_g t + 1) mod (hg_request_max_tag_g t + 1);
                hg_request_max_tag_g := hg_request_max_tag_g t |}).
  specialize (IH t1).
  destruct (draw_tags n t1) as [l t2]. simpl in *.
  rewrite IH; [| |done].
  - f_equal.
    change (list_fmap nat Z ?f ?l) with (f <$> l).
    rewrite <- (fmap_S_seq 1), <- list_fmap_compose.
    apply list_fmap_ext. intros i k _. simpl.
    rewrite Zplus_mod_idemp_l. f_equal. lia.
  - pose proof (Z.mod_pos_bound (hg_request_tag_g t + 1)
                  (hg_request_max_tag_g t + 1)). lia.
Qed.

Lemma draw_tags_cycle_witness :
  (draw_tags 3 {| hg_request_tag_g := 2; hg_request_max_tag_g := 3 |}).1
  = [3; 0; 1].
Proof.
  exact (draw_tags_cycle 3 {| hg_request_tag_g := 2;
                              hg_request_max_tag_g := 3 |}
           ltac:(simpl; lia) ltac:(simpl; lia)).
Defined.

(** *** Initialisation *)

(** X14: A failed [HG_Init] is not undone: when [HG_Init] is given a class on an
    engine that is not initialised and fails, the class stays recorded and
    no function map exists.  The engine then reports itself initialised and
    every further [HG_Init] fails without changing anything. *)
Theorem failed_init_leaves_engine_initialised M c G G' :
  hg_na_class_g (engine G) = None →
  HG_Init M (Some c) G = (HG_FAIL, G') →
  hg_na_class_g (engine G') = Some c
  ∧ hg_func_map_g (engine G') = hg_func_map_g (engine G)
  ∧ HG_Initialized G' = (HG_SUCCESS, true, Some c)
  ∧ ∀ M' na_class, HG_Init M' na_class G' = (HG_FAIL, G').
Proof.
  intros Hun Hinit. unfold HG_Init in Hinit. rewrite Hun in Hinit.
  assert (∀ G1, hg_na_class_g (engine G1) = Some c →
                hg_func_map_g (engine G1) = hg_func_map_g (engine G) →
                hg_na_class_g (engine G1) = Some c
                ∧ hg_func_map_g (engine G1) = hg_func_map_g (engine G)
                ∧ HG_Initialized G1 = (HG_SUCCESS, true, Some c)
                ∧ ∀ M' na_class, HG_Init M' na_class G1 = (HG_FAIL, G1))
    as Hleft.
  { intros G1 Hc Hm. split_and!; try done.
    - unfold HG_Initialized. rewrite Hc. done.
    - intros M' [c'|]; unfold HG_Init; [by rewrite Hc|done]. }
  repeat case_match; simplify_eq; by apply Hleft.
Qed.

Lemma failed_init_leaves_engine_initialised_witness :
  ∃ G', HG_Init no_context (Some 1%nat) uninitialised = (HG_FAIL, G')
        ∧ hg_na_class_g (engine G') = Some 1%nat
        ∧ hg_func_map_g (engine G') = None.
Proof.
  eexists. split; [reflexivity|].
  destruct (failed_init_leaves_engine_initialised no_context 1%nat
              uninitialised _ eq_refl eq_refl) as (H1 & H2 & _).
  split; [exact H1|exact H2].
Defined.

(** X15: A successful [HG_Init] leaves an empty function map, in which no name is
    registered, and a tag counter at 0 with the transport's largest tag; a
    following [HG_Finalize] whose collaborators succeed returns every module
    variable but the tag counter to null. *)
Theorem init_then_finalize M M' c G G1 :
  HG_Init M (Some c) G = (HG_SUCCESS, G1) →
  HG_Bulk_finalize_ret M' = HG_SUCCESS →
  NA_Context_destroy_ret M' = NA_SUCCESS →
  engine G1 = {| hg_na_class_g := Some c; hg_func_map_g := Some ∅ |}
  ∧ tags G1 = {| hg_request_tag_g := 0;
                 hg_request_max_tag_g := NA_Msg_get_max_tag M |}
  ∧ (∀ hg_hash_string name,
       HG_Registered hg_hash_string name (engine G1)
       = Some (HG_SUCCESS, Some (false, 0)))
  ∧ HG_Finalize M' G1
    = Some (HG_SUCCESS,
            {| engine := {| hg_na_class_g := None; hg_func_map_g := None |};
               hg_context_g := None; hg_request_class_g := None;
               hg_bulk_initialized_internal_g := false;
               tags := tags G1 |}).
Proof.
  intros Hinit Hb Hd. unfold HG_Init in Hinit.
  destruct (hg_na_class_g (engine G)); [done|].
  assert (∀ G0, G1 = {| engine := {| hg_na_class_g := Some c;
                                      hg_func_map_g := Some ∅ |};
                        hg_context_g := hg_context_g G0;
                        hg_request_class_g := hg_request_class_g G0;
                        hg_bulk_initialized_internal_g :=
                          negb (HG_Bulk_initialized_flag M);
                        tags := {| hg_request_tag_g := 0;
                                   hg_request_max_tag_g :=
                                     NA_Msg_get_max_tag M |} |} →
          engine G1 = {| hg_na_class_g := Some c; hg_func_map_g := Some ∅ |}
          ∧ tags G1 = {| hg_request_tag_g := 0;
                         hg_request_max_tag_g := NA_Msg_get_max_tag M |}
          ∧ (∀ hg_hash_string name,
               HG_Registered hg_hash_string name (engine G1)
               = Some (HG_SUCCESS, Some (false, 0)))
          ∧ HG_Finalize M' G1
            = Some (HG_SUCCESS,
                    {| engine := {| hg_na_class_g := None;
                                    hg_func_map_g := None |};
                       hg_context_g := None; hg_request_class_g := None;
                       hg_bulk_initialized_internal_g := false;
                       tags := tags G1 |})) as Hgoal.
  { intros G0 ->. split_and!; try done.
    unfold HG_Finalize. simpl. rewrite Hb, Hd.
    rewrite (bool_decide_eq_false_2 (HG_SUCCESS ≠ HG_SUCCESS)) by tauto.
    rewrite (bool_decide_eq_false_2 (NA_SUCCESS ≠ NA_SUCCESS)) by tauto.
    by rewrite !andb_false_r. }
  repeat case_match; simplify_eq; by eapply Hgoal.
Qed.

Lemma init_then_finalize_witness :
  ∃ G1, HG_Init standalone (Some 1%nat) uninitialised = (HG_SUCCESS, G1)
        ∧ HG_Finalize standalone G1
          = Some (HG_SUCCESS,
                  {| engine := {| hg_na_class_g := None;
                                  hg_func_map_g := None |};
                     hg_context_g := None; hg_request_class_g := None;
                     hg_bulk_initialized_internal_g := false;
                     tags := tags G1 |}).
Proof.
  eexists. split; [reflexivity|].
  exact (proj2 (proj2 (proj2 (init_then_finalize standalone standalone 1%nat
                                uninitialised _ eq_refl eq_refl eq_refl)))).
Defined.

(** *** Waiting and freeing *)

(** X16: Once [HG_Wait] has reported a request completed, waiting on it again
    waits on nothing and reports it completed again. *)
Theorem wait_on_completed_request hg_request_wait st r timeout ret r' waits
    n :
  hg_na_class_g st = Some n →
  HG_Wait hg_request_wait st (Some r) timeout true
  = (ret, Some true, Some r', waits) →
  ∀ hg_request_wait' timeout',
    HG_Wait hg_request_wait' st (Some r') timeout' true
    = (HG_SUCCESS, Some true, Some r', []).
Proof.
  intros Hn H w' t'.
  destruct (proj1 (HG_Wait_status_iff_both_consumed _ _ _ _ _ _ _ _ H)
              eq_refl) as [Hs Hq].
  unfold HG_Wait. by rewrite Hn, Hs, Hq.
Qed.

Lemma wait_on_completed_request_witness :
  HG_Wait never_done initialised
    (Some (set_recv_request (set_send_request fresh_request None) None))
    0 true
  = (HG_SUCCESS, Some true,
     Some (set_recv_request (set_send_request fresh_request None) None), []).
Proof.
  exact (wait_on_completed_request all_done_at_once initialised fresh_request
           1000 HG_SUCCESS _ [(20%nat, 1000); (21%nat, 1000)] 1%nat
           eq_refl eq_refl never_done 0).
Defined.

Lemma HG_Wait_all_loop_spec hg_request_wait st reqs timeout ret0 :
  HG_Wait_all_loop hg_request_wait st reqs timeout ret0
  = (default ret0
       (last ((λ r, (HG_Wait hg_request_wait st r timeout true).1.1.1)
              <$> reqs)),
     (λ r, ((HG_Wait hg_request_wait st r timeout true).1.1.2,
            (HG_Wait hg_request_wait st r timeout true).1.2,
            (HG_Wait hg_request_wait st r timeout true).2)) <$> reqs).
Proof.
  revert ret0. induction reqs as [|r reqs IH]; intros ret0; [done|].
  simpl HG_Wait_all_loop.
  destruct (HG_Wait hg_request_wait st r timeout true)
    as [[[ret1 status] r'] waits] eqn:Hw.
  rewrite IH, !fmap_cons, Hw. cbn [fst snd]. f_equal.
  destruct reqs as [|r2 reqs]; [done|]. rewrite fmap_cons, last_cons_cons.
  by destruct (proj2 (last_is_Some
    ((HG_Wait hg_request_wait st r2 timeout true).1.1.1
     :: ((λ r0, (HG_Wait hg_request_wait st r0 timeout true).1.1.1)
         <$> reqs))) ltac:(done)) as [y ->].
Qed.

(** X17: [HG_Wait_all] waits on every request with the full time-out and answers
    the code of the last wait only: a failure on an earlier request does not
    show in its result. *)
Theorem wait_all_answers_last_code hg_request_wait st reqs r timeout n :
  hg_na_class_g st = Some n →
  (HG_Wait_all hg_request_wait st (reqs ++ [r]) timeout).1
  = (HG_Wait hg_request_wait st r timeout true).1.1.1
  ∧ (HG_Wait_all hg_request_wait st (reqs ++ [r]) timeout).2
    = (λ r, ((HG_Wait hg_request_wait st r timeout true).1.1.2,
             (HG_Wait hg_request_wait st r timeout true).1.2,
             (HG_Wait hg_request_wait st r timeout true).2))
      <$> (reqs ++ [r]).
Proof.
  intros Hn. unfold HG_Wait_all. rewrite Hn, HG_Wait_all_loop_spec.
  cbn [fst snd]. split; [|done]. by rewrite fmap_snoc, last_snoc.
Qed.

Lemma wait_all_answers_last_code_witness :
  (HG_Wait_all send_wait_fails initialised
     [Some fresh_request;
      Some (set_send_request fresh_request None)] 1000).1 = HG_SUCCESS
  ∧ (HG_Wait send_wait_fails initialised (Some fresh_request) 1000
       true).1.1.1 = HG_FAIL.
Proof.
  split; [|reflexivity].
  exact (eq_trans
           (proj1 (wait_all_answers_last_code send_wait_fails initialised
                     [Some fresh_request]
                     (Some (set_send_request fresh_request None)) 1000 1%nat
                     eq_refl))
           eq_refl).
Defined.

(** X18: [HG_Request_free] after [HG_Wait]: while [HG_Wait] reports the request
    not completed, freeing it fails and releases nothing; once it reports it
    completed, a request with a registered id and no output structure is
    freed. *)
Theorem free_after_wait E hg_request_wait st r timeout ret done_ r' waits n
    m proc_info block h :
  hg_na_class_g st = Some n →
  HG_Wait hg_request_wait st (Some r) timeout true
  = (ret, Some done_, Some r', waits) →
  hg_func_map_g st = Some m →
  m !! req_id r = Some (Proc_info proc_info) →
  out_struct r = None →
  block ∈ live_blocks h →
  HG_Request_free E st (Some (block, r')) h
  = if done_
    then Some (HG_SUCCESS,
               {| live_blocks := live_blocks h ∖ {[block]};
                  live_bulk_handles := live_bulk_handles h;
                  completed_requests := completed_requests h |})
    else Some (HG_FAIL, h).
Proof.
  intros Hn Hw Hm Hid Hout Hlive.
  pose proof (HG_Wait_status_iff_both_consumed _ _ _ _ _ _ _ _ Hw) as Hiff.
  assert (req_id r' = req_id r ∧ out_struct r' = out_struct r)
    as [Hid' Hout'].
  { destruct (HG_Wait_request hg_request_wait st r timeout true)
      as (s' & q' & Heq & _).
    rewrite Hw in Heq. simpl in Heq. by injection Heq as ->. }
  unfold HG_Request_free. rewrite Hn.
  destruct done_.
  - destruct (proj1 Hiff eq_refl) as [Hs Hq].
    rewrite Hs, Hq, Hm. simpl. rewrite Hid', Hid, Hout', Hout. simpl.
    unfold free_block. by rewrite decide_True.
  - destruct (send_request r') eqn:Hs; [done|].
    destruct (recv_request r') eqn:Hq; [by cbn|].
    assert (false = true) by (by apply Hiff). done.
Qed.

Lemma free_after_wait_witness :
  HG_Request_free (all_succeed 0 None) registered_az
    (Some (40%nat, set_send_request fresh_request None))
    {| live_blocks := {[ 40%nat ]}; live_bulk_handles := ∅;
       completed_requests := ∅ |}
  = Some (HG_FAIL,
          {| live_blocks := {[ 40%nat ]}; live_bulk_handles := ∅;
             completed_requests := ∅ |}).
Proof.
  exact (free_after_wait (all_succeed 0 None) send_done_after_250ms
           registered_az fresh_request 1500 HG_SUCCESS false _
           [(20%nat, 1500); (21%nat, 750)] 1%nat _
           {| enc_routine := 11; dec_routine := 12 |} 40%nat
           {| live_blocks := {[ 40%nat ]}; live_bulk_handles := ∅;
              completed_requests := ∅ |}
           eq_refl eq_refl eq_refl eq_refl eq_refl
           ltac:(by vm_compute)).
Defined.

(** *** The response callback *)

Lemma free_block_completed p h h' :
  free_block p h = Some h' →
  completed_requests h' = completed_requests h
  ∧ live_blocks h' = live_blocks h ∖ {[p]}.
Proof. unfold free_block. case_decide; [|done]. by intros [= <-]. Qed.

Lemma free_if_set_completed p h h' :
  free_if_set p h = Some h' →
  completed_requests h' = completed_requests h
  ∧ ∀ b, b ∈ live_blocks h' ↔ b ∈ live_blocks h ∧ p ≠ Some b.
Proof.
  destruct p as [b|]; simpl.
  - intros [-> ->]%free_block_completed. split; [done|]. intros b'.
    rewrite elem_of_difference, elem_of_singleton.
    split; intros [? ?]; split; congruence.
  - intros [= <-]. split; [done|]. intros b. by split; [|intros [? _]].
Qed.

Lemma bulk_free_completed hd h h' :
  match hd with
  | Some d => HG_Bulk_handle_free d h
  | None => Some h
  end = Some h' →
  completed_requests h' = completed_requests h
  ∧ live_blocks h' = live_blocks h.
Proof.
  destruct hd as [d|]; [|by intros [= <-]].
  unfold HG_Bulk_handle_free. case_decide; [|done]. by intros [= <-].
Qed.

(** X19: [hg_recv_output_cb] answers [NA_SUCCESS] whatever happens, and it wakes
    the waiter only after a complete decode: when the transport reports a
    failure, or the response header cannot be decoded or verified, or the
    output cannot be decoded, the receive future is not completed and the
    receive buffer stays allocated and with the request. *)
Theorem recv_cb_silent_on_decode_failure E st ret r h na r' h' :
  hg_recv_output_cb E st ret r h = Some (na, r', h') →
  na = NA_SUCCESS
  ∧ ∀ b,
      ret ≠ NA_SUCCESS
      ∨ hg_proc_header_response_ret E ≠ HG_SUCCESS
      ∨ hg_proc_header_response_verify_ret E ≠ HG_SUCCESS
      ∨ hg_get_output E st r (out_struct r) ≠ Some HG_SUCCESS →
      recv_buf r = Some b → b ∈ live_blocks h → extra_send_buf r ≠ Some b →
      completed_requests h' = completed_requests h
      ∧ recv_request r' = recv_request r
      ∧ recv_buf r' = Some b
      ∧ b ∈ live_blocks h'.
Proof.
  unfold hg_recv_output_cb. intros H.
  case_decide as Hret; [by simplify_eq|].
  apply bind_Some in H as (h1 & [Hc1 Hl1]%free_if_set_completed & H).
  apply bind_Some in H as (h2 & [Hc2 Hl2]%bulk_free_completed & H).
  rewrite Hc1 in Hc2.
  case_decide as Hh.
  { injection H as <- <- <-. split; [done|]. intros b _ Hb Hlive Hne.
    split_and!; try done. rewrite Hl2. by apply Hl1. }
  case_decide as Hv.
  { injection H as <- <- <-. split; [done|]. intros b _ Hb Hlive Hne.
    split_and!; try done. rewrite Hl2. by apply Hl1. }
  apply bind_Some in H as (ret' & Hout & H).
  change (hg_get_output E st r (out_struct r) = Some ret') in Hout.
  case_decide as Ho.
  { injection H as <- <- <-. split; [done|]. intros b _ Hb Hlive Hne.
    split_and!; try done. rewrite Hl2. by apply Hl1. }
  apply bind_Some in H as (h3 & _ & H).
  apply bind_Some in H as (h4 & _ & H).
  injection H as <- _ _. split; [done|].
  intros b [?|[?|[?|Hno]]]; try done.
  destruct Hno. rewrite Hout. f_equal. by destruct ret'.
Qed.

Lemma recv_cb_silent_on_decode_failure_witness :
  ∃ r' h',
    hg_recv_output_cb verify_fails registered_az NA_SUCCESS fresh_request
      fresh_heap = Some (NA_SUCCESS, r', h')
    ∧ completed_requests h' = completed_requests fresh_heap
    ∧ recv_buf r' = recv_buf fresh_request.
Proof.
  eexists _, _. split; [reflexivity|].
  destruct (proj2 (recv_cb_silent_on_decode_failure verify_fails
                     registered_az NA_SUCCESS fresh_request fresh_heap
                     _ _ _ eq_refl)
              2%nat ltac:(right; right; left; discriminate) eq_refl
              ltac:(by vm_compute) ltac:(discriminate))
    as (H1 & _ & H2 & _).
  split; [exact H1|exact H2].
Defined.

(** *** Forwarding a call *)

(** [hg_set_input] writes only the three overflow fields of the request. *)
Lemma hg_set_input_frame E st r0 in_struct h0 ret r h :
  hg_set_input E st r0 in_struct h0 = Some (ret, r, h) →
  req_id r = req_id r0
  ∧ send_buf r = send_buf r0 ∧ send_buf_size r = send_buf_size r0
  ∧ recv_buf r = recv_buf r0 ∧ recv_buf_size r = recv_buf_size r0
  ∧ send_request r = send_request r0 ∧ recv_request r = recv_request r0
  ∧ out_struct r = out_struct r0.
Proof.
  unfold hg_set_input. intros H.
  destruct in_struct; [|by simplify_eq].
  apply bind_Some in H as (m & _ & H).
  destruct (m !! req_id r0) as [[proc_info|]|]; [|done|by simplify_eq].
  repeat case_decide; try case_match;
    try (apply bind_Some in H as (h'' & _ & H)); by simplify_eq.
Qed.

(** X20: A successful [HG_Forward] has made exactly two posts, both accepted and
    both to the peer [addr]: first the receive of the response into the
    request's receive buffer, then the send of the request from its send
    buffer, with one and the same newly drawn tag.  The request handed back
    carries the id and the output structure of the call. *)
Theorem forward_posts_receive_before_send E F G addr id in_struct out h b r G'
    h' posts :
  HG_Forward E F G addr id in_struct out h
  = Some (HG_SUCCESS, Some (b, r), G', h', posts) →
  ∃ tag,
    hg_gen_request_tag (tags G) = (tag, tags G')
    ∧ posts
      = [(Post_recv_expected (Some (fw_recv_buf F))
            (fw_max_expected_size F) addr tag, NA_SUCCESS);
         (Post_send_unexpected (Some (fw_send_buf F))
            (fw_max_unexpected_size F) addr tag, NA_SUCCESS)]
    ∧ b = fw_request F ∧ req_id r = id ∧ out_struct r = out
    ∧ engine G' = engine G.
Proof.
  unfold HG_Forward. intros H.
  destruct (hg_na_class_g (engine G)); [|done].
  apply bind_Some in H as ([[ret r1] h1] & Hsi & H).
  apply hg_set_input_frame in Hsi
    as (Hid & Hsb & Hss & Hrb & Hrs & _ & _ & Hos). simpl in *.
  destruct (hg_gen_request_tag (tags G)) as [tag t] eqn:Htag.
  repeat case_decide;
    try (apply bind_Some in H as (h'' & _ & H); done).
  injection H as <- <- <- <- <-.
  exists tag. rewrite Hrb, Hrs, Hsb, Hss.
  assert (fw_recv_expected_ret F = NA_SUCCESS) as ->
    by (by destruct (fw_recv_expected_ret F)).
  assert (fw_send_unexpected_ret F = NA_SUCCESS) as ->
    by (by destruct (fw_send_unexpected_ret F)).
  done.
Qed.

Lemma forward_posts_receive_before_send_witness :
  ∃ r h' posts,
    HG_Forward (all_succeed 100 None) forward_ok running 7%nat 5863232
      (Some 50%nat) (Some 51%nat) empty_heap
    = Some (HG_SUCCESS, Some (40%nat, r),
            set_tags running
              {| hg_request_tag_g := 3; hg_request_max_tag_g := 3 |},
            h', posts)
    ∧ posts = [(Post_recv_expected (Some 2%nat) 4096 7%nat 3, NA_SUCCESS);
               (Post_send_unexpected (Some 1%nat) 4096 7%nat 3, NA_SUCCESS)].
Proof.
  eexists _, _, _. split; [reflexivity|].
  destruct (forward_posts_receive_before_send (all_succeed 100 None)
              forward_ok running 7%nat 5863232 (Some 50%nat) (Some 51%nat)
              empty_heap _ _ _ _ _ eq_refl) as (tag & Ht & Hp & _).
  assert (tag = 3) as -> by (vm_compute in Ht; congruence). exact Hp.
Defined.

(** X21: When [HG_Forward] fails after the NA layer has accepted the receive it
    pre-posted, the buffer of that receive has been freed while the receive
    is still posted, and no request is handed back through which it could
    be cancelled. *)
Theorem forward_failure_frees_posted_buffer E F G addr id in_struct
    out_struct h ret req G' h' posts buf size source tag :
  HG_Forward E F G addr id in_struct out_struct h
  = Some (ret, req, G', h', posts) →
  ret ≠ HG_SUCCESS →
  (Post_recv_expected buf size source tag, NA_SUCCESS) ∈ posts →
  buf = Some (fw_recv_buf F)
  ∧ (fw_recv_buf F ∉ live_blocks h')
  ∧ req = None.
Proof.
  unfold HG_Forward. intros H Hret Hin.
  destruct (hg_na_class_g (engine G));
    [|injection H as <- <- <- <- <-; by apply elem_of_nil in Hin].
  apply bind_Some in H as ([[ret1 r1] h1] & Hsi & H).
  apply hg_set_input_frame in Hsi as (_ & _ & _ & Hrb & _). simpl in *.
  destruct (hg_gen_request_tag (tags G)) as [tag' t] eqn:Htag.
  assert (∀ G1 posts1,
            (h'' ← HG_Forward_cleanup F r1 h1;
             Some (HG_FAIL, None, G1, h'', posts1))
            = Some (ret, req, G', h', posts) →
            (fw_recv_buf F ∉ live_blocks h') ∧ req = None ∧ posts = posts1)
    as Hclean.
  { intros G1 posts1 Hc.
    apply bind_Some in Hc as (h'' & Hc & [= <- <- <- <- <-]).
    split; [|done]. unfold HG_Forward_cleanup in Hc.
    apply bind_Some in Hc as (ha & _ & Hc).
    apply bind_Some in Hc as (hb & [_ Hlb]%free_if_set_completed & Hc).
    apply bind_Some in Hc as (hc & [_ Hlc]%free_if_set_completed & Hc).
    apply bind_Some in Hc as (hd & [_ Hld]%bulk_free_completed & Hc).
    apply free_block_completed in Hc as [_ Hle].
    rewrite Hle, elem_of_difference, Hld, Hlc, Hlb, Hrb. tauto. }
  repeat case_decide; try (injection H as <- <- <- <- <-; done);
    apply Hclean in H as (Hl & -> & ->); split_and!; try done.
  - by apply elem_of_nil in Hin.
  - by apply elem_of_nil in Hin.
  - apply list_elem_of_singleton in Hin. by simplify_eq.
  - apply elem_of_cons in Hin as [Hin|Hin]; [by simplify_eq|].
    by apply list_elem_of_singleton in Hin.
Qed.

Lemma forward_failure_frees_posted_buffer_witness :
  ∃ G' h' posts,
    HG_Forward (all_succeed 100 None) forward_send_refused running 7%nat
      5863232 (Some 50%nat) (Some 51%nat) empty_heap
    = Some (HG_FAIL, None, G', h', posts)
    ∧ (Post_recv_expected (Some 2%nat) 4096 7%nat 3, NA_SUCCESS) ∈ posts
    ∧ (2%nat ∉ live_blocks h').
Proof.
  eexists _, _, _. split; [reflexivity|].
  split; [by vm_compute; left|].
  exact (proj1 (proj2
    (forward_failure_frees_posted_buffer (all_succeed 100 None)
       forward_send_refused running 7%nat 5863232 (Some 50%nat)
       (Some 51%nat) empty_heap _ _ _ _ _ (Some 2%nat) 4096 7%nat 3
       eq_refl ltac:(discriminate) ltac:(by vm_compute; left)))).
Defined.

(** X22: When the encoded input does not fit the send buffer and the bulk handle
    for the overflow buffer cannot be created, [HG_Forward] releases the
    overflow buffer twice: [hg_set_input] leaves its address in the request
    while the proc, which still owns it, frees it, and the clean-up of
    [HG_Forward] frees it again. *)
Theorem forward_double_free_on_bulk_failure E F G addr id in_struct
    out_struct h n m proc_info b :
  hg_na_class_g (engine G) = Some n →
  hg_func_map_g (engine G) = Some m →
  m !! id = Some (Proc_info proc_info) →
  hg_proc_create_ret E = HG_SUCCESS →
  proc_cb_ret E (enc_routine proc_info) = HG_SUCCESS →
  fw_max_unexpected_size F < hg_proc_get_size E →
  hg_proc_get_extra_buf E = Some b →
  HG_Bulk_handle_create_ret E ≠ HG_SUCCESS →
  HG_Forward E F G addr id (Some in_struct) out_struct h = None.
Proof.
  intros Hn Hm Hid Hc He Hsz Hb Hbulk.
  unfold HG_Forward. rewrite Hn. unfold hg_set_input. rewrite Hm. simpl.
  rewrite Hid, Hc, He, Hb. simpl.
  rewrite (proj2 (Z.gtb_lt _ _) Hsz).
  rewrite (decide_True (P := HG_Bulk_handle_create_ret E ≠ HG_SUCCESS))
    by done.
  unfold hg_proc_free. rewrite Hb.
  destruct (free_block b _) as [h1|] eqn:Hf; [|done]. simpl.
  rewrite (decide_True (P := HG_Bulk_handle_create_ret E ≠ HG_SUCCESS))
    by done.
  apply free_block_completed in Hf as [_ Hl1].
  unfold HG_Forward_cleanup. simpl.
  destruct (free_block (fw_send_buf F) h1) as [h2|] eqn:Hf2; [|done].
  apply free_block_completed in Hf2 as [_ Hl2]. simpl.
  destruct (free_block (fw_recv_buf F) h2) as [h3|] eqn:Hf3; [|done].
  apply free_block_completed in Hf3 as [_ Hl3]. simpl.
  assert (free_block b h3 = None) as ->; [|done].
  unfold free_block. apply decide_False.
  rewrite Hl3, Hl2, Hl1, !elem_of_difference, elem_of_singleton. tauto.
Qed.

Lemma forward_double_free_on_bulk_failure_witness :
  HG_Forward (bulk_create_fails 5000 (Some 3%nat)) forward_ok running 7%nat
    5863232 (Some 50%nat) (Some 51%nat) empty_heap = None.
Proof.
  exact (forward_double_free_on_bulk_failure
           (bulk_create_fails 5000 (Some 3%nat)) forward_ok running 7%nat
           5863232 50%nat (Some 51%nat) empty_heap 1%nat _
           {| enc_routine := 11; dec_routine := 12 |} 3%nat
           eq_refl eq_refl eq_refl eq_refl eq_refl eq_refl eq_refl
           ltac:(discriminate)).
Defined.

End Engine_more.
